(** * Placement registry, mapper and RPC transport: a shallow embedding

    The development follows [registery.go]: the registry client
    ([registery], [lockActor], [unlockActor], [storeOrGet]), the per-actor
    [mapper] ([handleMsg], [lock], [migrate], ...), and the RPC client pool
    and server ([newClient], [sendRaft], [report], [ProcessCmd]).

    Go code that terminates the process ([glog.Fatalf], which logs and calls
    [os.Exit]) is modelled by the outcome [Fatal]: nothing runs afterwards,
    in particular no deferred call.  A run-time panic is [Panicked], a call
    that waits forever on its environment is [Blocked]. *)

From Stdlib Require Import ZArith NArith Lia Ascii String.
From Stdlib Require Import Decimal DecimalString DecimalN.
From stdpp Require Import base option list gmap strings sorting.

Local Open Scope string_scope.

(** ** Outcomes and the state-passing monad *)

(** Why the process was terminated by [glog.Fatalf]. *)
Inductive fatalReason :=
| FatalUnmarshall (d : string)
| FatalInconsistencies
| FatalInconsistentShards
| FatalNoLocalReceiver
| FatalNilHandler.

Inductive outcome (S A : Type) :=
| Done (a : A) (s : S)
| Fatal (why : fatalReason) (s : S)
| Blocked (s : S)
| Panicked (s : S).
Arguments Done {S A} a s.
Arguments Fatal {S A} why s.
Arguments Blocked {S A} s.
Arguments Panicked {S A} s.

Definition M (S A : Type) : Type := S → outcome S A.

Definition ret {S A} (a : A) : M S A := λ s, Done a s.

Definition bind {S A B} (m : M S A) (f : A → M S B) : M S B :=
  λ s, match m s with
       | Done a s' => f a s'
       | Fatal why s' => Fatal why s'
       | Blocked s' => Blocked s'
       | Panicked s' => Panicked s'
       end.

Definition fatalf {S A} (why : fatalReason) : M S A := λ s, Fatal why s.
Definition panic {S A} : M S A := λ s, Panicked s.
Definition get {S} : M S S := λ s, Done s s.
Definition modify {S} (f : S → S) : M S unit := λ s, Done tt (f s).

Declare Scope go_scope.
Delimit Scope go_scope with go.
Notation "'do' x <- m ; k" := (bind m (λ x, k))
  (at level 10, x name, m at level 100, k at level 200) : go_scope.
Notation "'do' ' p <- m ; k" := (bind m (λ x, match x with p => k end))
  (at level 10, p pattern, m at level 100, k at level 200) : go_scope.
Notation "m ;; k" := (bind m (λ _, k))
  (at level 100, k at level 200, right associativity) : go_scope.
Local Open Scope go_scope.

(** [for _, x := range l { body x }] over a slice. *)
Fixpoint forRange {S X} (l : list X) (body : X → M S unit) : M S unit :=
  match l with
  | [] => ret tt
  | x :: l' => body x ;; forRange l' body
  end.

Definition isDone {S A} (o : outcome S A) : bool :=
  match o with Done _ _ => true | _ => false end.
Definition isFatalWith {S A} (why : fatalReason) (o : outcome S A) : Prop :=
  ∃ s, o = Fatal why s.

(** ** Identifiers and key sets *)

(** Modelled from the spec: the declaration of [StageId] is not part of the
    file; the registry record layout gives it as an unsigned integer. *)
Abbreviation StageId := N (only parsing).

(** [ReceiverId] (named [RcvrId], with field [Id], in the mapper's part of the
    file; the mapper passes it to [storeOrGet] unchanged, so it is one
    type).  [id_RcvrId] is a [uint32]. *)
Record ReceiverId := mkReceiverId {
  id_StageId : StageId;
  id_ActorName : string;
  id_RcvrId : N
}.

Record DictionaryKey := mkDictionaryKey {
  Dict : string;
  Key : string
}.

Definition MapSet := list DictionaryKey.

Global Instance ReceiverId_eq_dec : EqDecision ReceiverId.
Proof. solve_decision. Defined.
Global Instance DictionaryKey_eq_dec : EqDecision DictionaryKey.
Proof. solve_decision. Defined.

Global Program Instance ReceiverId_countable : Countable ReceiverId :=
  inj_countable' (λ i, (id_StageId i, id_ActorName i, id_RcvrId i))
                 (λ t, mkReceiverId t.1.1 t.1.2 t.2) _.
Next Obligation. by intros []. Qed.

Global Program Instance DictionaryKey_countable : Countable DictionaryKey :=
  inj_countable' (λ k, (Dict k, Key k)) (λ t, mkDictionaryKey t.1 t.2) _.
Next Obligation. by intros []. Qed.

(** Modelled from the spec: [MapSet]'s [sort.Interface] methods are not part
    of the file; the order on [DictionaryKey] is lexicographic on the pair
    (Dict, Key), strings compared bytewise. *)
Definition dkLess (a b : DictionaryKey) : bool :=
  match String.compare (Dict a) (Dict b) with
  | Lt => true
  | Eq => match String.compare (Key a) (Key b) with Lt => true | _ => false end
  | Gt => false
  end.

Definition dkLe (a b : DictionaryKey) : Prop := dkLess b a = false.

Global Instance dkLe_dec : RelDecision dkLe.
Proof. intros a b. unfold dkLe. apply _. Defined.

(** [sort.Sort(ms)] *)
Definition sortMapSet (ms : MapSet) : MapSet := merge_sort dkLe ms.

(** ** The registry client *)

Record regVal := mkRegVal {
  rv_StageId : StageId;
  rv_RcvrId : N
}.

Global Instance regVal_eq_dec : EqDecision regVal.
Proof. solve_decision. Defined.

(** [regVal.Eq] *)
Definition regValEq (this that : regVal) : bool :=
  bool_decide (rv_StageId this = rv_StageId that) &&
  bool_decide (rv_RcvrId this = rv_RcvrId that).

(** The JSON encoding of registry records ([encoding/json]).  The package is
    an interface here: any codec that decodes what it encodes. *)
Class RegValCodec := {
  marshallRegVal : regVal → string;
  unmarshallRegVal : string → option regVal;
  unmarshall_marshall v : unmarshallRegVal (marshallRegVal v) = Some v
}.

Inductive regError :=
| ErrKeyExists
| ErrKeyNotFound
| ErrWatchFailed
| ErrForeignLock (v tempV : regVal).

(** An answer of the store to a [Watch] on a key: a transport error, or the
    next change of the key ([None]: deleted or expired). *)
Inductive watchResult :=
| WatchErr
| WatchChange (nv : option string).

Global Instance watchResult_eq_dec : EqDecision watchResult.
Proof. solve_decision. Defined.

(** Requests sent to the store, in order. *)
Inductive etcdOp :=
| OpCreate (k v : string) (ok : bool)
| OpGet (k : string) (r : option string)
| OpSet (k v : string)
| OpDelete (k : string) (ok : bool)
| OpWatch (k : string) (r : watchResult).

Global Instance etcdOp_eq_dec : EqDecision etcdOp.
Proof. solve_decision. Defined.

(** [registery]: the configuration ([prefix], [ttl]) and the embedded
    [*etcd.Client].

    Modelled from the spec: the etcd client is not part of the file.  Its
    contract is the registry KV contract: [Create] fails if the key exists,
    [Get] gives the value or not-found, [Delete] removes the key, [Watch]
    blocks until the next change of the key or fails with a transport error.
    [store] is the content of the key-value store, [watches] what the
    coming [Watch] calls will observe (none left: the call never returns),
    [ops] the requests made so far.  Expiry of a TTL is not modelled. *)
Record registery := mkRegistery {
  prefix : string;
  ttl : N;
  store : gmap string string;
  watches : list watchResult;
  ops : list etcdOp
}.

Definition setStore (f : gmap string string → gmap string string)
    (g : registery) : registery :=
  mkRegistery (prefix g) (ttl g) (f (store g)) (watches g) (ops g).
Definition setWatches (ws : list watchResult) (g : registery) : registery :=
  mkRegistery (prefix g) (ttl g) (store g) ws (ops g).
Definition logOp (op : etcdOp) (g : registery) : registery :=
  mkRegistery (prefix g) (ttl g) (store g) (watches g) (ops g ++ [op]).

(** [g.Create(k, v, ttl)]: [None] is a nil error. *)
Definition etcdCreate (k v : string) : M registery (option regError) :=
  λ g, match store g !! k with
       | Some _ => Done (Some ErrKeyExists) (logOp (OpCreate k v false) g)
       | None => Done None (logOp (OpCreate k v true) (setStore <[k:=v]> g))
       end.

(** [g.Get(k, false, false)] *)
Definition etcdGet (k : string) : M registery (regError + string) :=
  λ g, match store g !! k with
       | Some v => Done (inr v) (logOp (OpGet k (Some v)) g)
       | None => Done (inl ErrKeyNotFound) (logOp (OpGet k None) g)
       end.

(** [g.Set(k, v, ttl)] *)
Definition etcdSet (k v : string) : M registery unit :=
  λ g, Done tt (logOp (OpSet k v) (setStore <[k:=v]> g)).

(** [g.Delete(k, false)] *)
Definition etcdDelete (k : string) : M registery (option regError) :=
  λ g, match store g !! k with
       | Some _ => Done None (logOp (OpDelete k true) (setStore (delete k) g))
       | None => Done (Some ErrKeyNotFound) (logOp (OpDelete k false) g)
       end.

(** The store's side of a change observed by a [Watch]. *)
Definition applyChange (k : string) (nv : option string)
    (st : gmap string string) : gmap string string :=
  match nv with Some v => <[k:=v]> st | None => delete k st end.

Definition lockFileName : string := "__lock__".

(** [g.path(elem...)]: [g.prefix + "/" + strings.Join(elem, "/")] *)
Fixpoint joinSlash (elem : list string) : string :=
  match elem with
  | [] => ""
  | [e] => e
  | e :: rest => e +:+ "/" +:+ joinSlash rest
  end.
Definition path (g : registery) (elem : list string) : string :=
  prefix g +:+ "/" +:+ joinSlash elem.

Definition lockPath (g : registery) (id : ReceiverId) : string :=
  path g [id_ActorName id; lockFileName].

(** [fmt.Sprintf(keyFmtStr, id.ActorName, dk.Dict, dk.Key)] with
    [keyFmtStr = "/theatre/%s/%s/%s"] *)
Definition regKey (id : ReceiverId) (dk : DictionaryKey) : string :=
  "/theatre/" +:+ id_ActorName id +:+ "/" +:+ Dict dk +:+ "/" +:+ Key dk.

Definition callerRegVal (id : ReceiverId) : regVal :=
  mkRegVal (id_StageId id) (id_RcvrId id).

Section Registery.
Context `{RegValCodec}.

(** [unmarshallRegValOrFail] *)
Definition unmarshallRegValOrFail {S} (d : string) : M S regVal :=
  match unmarshallRegVal d with
  | Some v => ret v
  | None => fatalf (FatalUnmarshall d)
  end.

(** The loop of [lockActor], by recursion on what the coming watches will
    observe: each round either creates the lock key or consumes one watch. *)
Fixpoint lockActorLoop (k mv : string) (ws : list watchResult)
    (g : registery) : outcome registery (option regError) :=
  match store g !! k with
  | None =>
      Done None (setWatches ws (logOp (OpCreate k mv true) (setStore <[k:=mv]> g)))
  | Some _ =>
      let g1 := logOp (OpCreate k mv false) g in
      match ws with
      | [] => Blocked (setWatches [] g1)
      | WatchErr :: ws' =>
          Done (Some ErrWatchFailed) (setWatches ws' (logOp (OpWatch k WatchErr) g1))
      | WatchChange nv :: ws' =>
          lockActorLoop k mv ws'
            (logOp (OpWatch k (WatchChange nv)) (setStore (applyChange k nv) g1))
      end
  end.

Definition lockActor (id : ReceiverId) : M registery (option regError) :=
  λ g, lockActorLoop (lockPath g id) (marshallRegVal (callerRegVal id))
         (watches g) g.

Definition unlockActor (id : ReceiverId) : M registery (option regError) :=
  let v := callerRegVal id in
  do g <- get;
  let k := lockPath g id in
  do res <- etcdGet k;
  match res with
  | inl err => ret (Some err)
  | inr d =>
      do tempV <- unmarshallRegValOrFail d;
      if negb (regValEq v tempV) then ret (Some (ErrForeignLock v tempV))
      else
        do err <- etcdDelete k;
        match err with
        | Some e => ret (Some e)
        | None => ret None
        end
  end.

(** The first loop of [storeOrGet], carrying the locals [v], [mv] and
    [validate]. *)
Fixpoint readLoop (id : ReceiverId) (ms : MapSet) (v : regVal) (mv : string)
    (validate : bool) : M registery (regVal * string) :=
  match ms with
  | [] => ret (v, mv)
  | dk :: rest =>
      let k := regKey id dk in
      do res <- etcdGet k;
      match res with
      | inl _ => readLoop id rest v mv validate
      | inr d =>
          do resV <- unmarshallRegValOrFail d;
          if regValEq resV v then readLoop id rest v mv validate
          else if validate then fatalf FatalInconsistencies
          else readLoop id rest resV d true
      end
  end.

(** The second loop of [storeOrGet]. *)
Definition createLoop (id : ReceiverId) (ms : MapSet) (mv : string)
    : M registery unit :=
  forRange ms (λ dk, etcdCreate (regKey id dk) mv ;; ret tt).

(** [storeOrGet].  The error of [lockActor] is dropped; the deferred
    [unlockActor] runs when the function returns, its error dropped too.
    The line printed to standard output for each key is left out. *)
Definition storeOrGet (id : ReceiverId) (ms : MapSet) : M registery regVal :=
  lockActor id ;;
  let ms := sortMapSet ms in
  let v := callerRegVal id in
  let mv := marshallRegVal v in
  do '(v, mv) <- readLoop id ms v mv false;
  createLoop id ms mv ;;
  unlockActor id ;;
  ret v.

(** Modelled from the spec: [registery.set] is called by the mapper but is
    not part of the file.  It writes the caller's RegVal to every key
    unconditionally and returns the caller's RegVal. *)
Definition set (id : ReceiverId) (ms : MapSet) : M registery regVal :=
  let v := callerRegVal id in
  let mv := marshallRegVal v in
  forRange ms (λ dk, etcdSet (regKey id dk) mv) ;;
  ret v.

End Registery.

(** *** The JSON codec of registry records

    [json.Marshal] writes a [regVal] as an object with the fields
    [stage_id] and [rcvr_id] in decimal.  [parseRegVal] reads that text
    back; it is the instance of [RegValCodec] the examples run with. *)
Module Json.

Definition dquote : string := String "034"%char "".

Definition decimal (n : N) : string := NilEmpty.string_of_uint (N.to_uint n).

Definition stageField : string := "{" +:+ dquote +:+ "stage_id" +:+ dquote +:+ ":".
Definition rcvrField : string := "," +:+ dquote +:+ "rcvr_id" +:+ dquote +:+ ":".

Definition printRegVal (v : regVal) : string :=
  stageField +:+ decimal (rv_StageId v) +:+ rcvrField +:+
  decimal (rv_RcvrId v) +:+ "}".

Fixpoint dropPrefix (p s : string) : option string :=
  match p, s with
  | "", _ => Some s
  | String a p', String b s' => if Ascii.eqb a b then dropPrefix p' s' else None
  | String _ _, "" => None
  end.

Definition isDigit (a : ascii) : bool :=
  let n := nat_of_ascii a in (48 <=? n)%nat && (n <=? 57)%nat.

Fixpoint spanDigits (s : string) : string * string :=
  match s with
  | "" => ("", "")
  | String a s' =>
      if isDigit a then let '(d, r) := spanDigits s' in (String a d, r)
      else ("", s)
  end.

Definition parseNum (s : string) : option (N * string) :=
  let '(d, r) := spanDigits s in
  match d with
  | "" => None
  | _ => u ← NilEmpty.uint_of_string d; Some (N.of_uint u, r)
  end.

Definition parseRegVal (s : string) : option regVal :=
  r1 ← dropPrefix stageField s;
  '(a, r2) ← parseNum r1;
  r3 ← dropPrefix rcvrField r2;
  '(b, r4) ← parseNum r3;
  if decide (r4 = "}") then Some (mkRegVal a b) else None.

End Json.

(** ** Specification functions for the registry client *)

Definition opKey (op : etcdOp) : string :=
  match op with
  | OpCreate k _ _ | OpGet k _ | OpSet k _ | OpDelete k _ | OpWatch k _ => k
  end.

(** The state reached from [g] with store [st] after the requests [body]. *)
Definition after (st : gmap string string) (body : list etcdOp)
    (g : registery) : registery :=
  mkRegistery (prefix g) (ttl g) st (watches g) (ops g ++ body).

(** The state an outcome ends in. *)
Definition finalState {S A} (o : outcome S A) : S :=
  match o with
  | Done _ s | Fatal _ s | Blocked s | Panicked s => s
  end.

Section RegisterySpec.
Context `{RegValCodec}.

(** The decision taken by the first loop of [storeOrGet] on the answers of
    the reads, in order: the record kept and its text, or the fatal exit. *)
Fixpoint scan (v : regVal) (mv : string) (validate : bool)
    (rs : list (option string)) : fatalReason + regVal * string :=
  match rs with
  | [] => inr (v, mv)
  | None :: rest => scan v mv validate rest
  | Some d :: rest =>
      match unmarshallRegVal d with
      | None => inl (FatalUnmarshall d)
      | Some resV =>
          if regValEq resV v then scan v mv validate rest
          else if validate then inl FatalInconsistencies
          else scan resV d true rest
      end
  end.

Definition readAnswers (id : ReceiverId) (ms : MapSet)
    (st : gmap string string) : list (option string) :=
  (λ dk, st !! regKey id dk) <$> ms.

Definition onKeysOf (id : ReceiverId) (ms : MapSet) (op : etcdOp) : Prop :=
  ∃ dk, dk ∈ ms ∧ opKey op = regKey id dk.

(** What the second loop leaves in the store. *)
Fixpoint created (id : ReceiverId) (ms : MapSet) (mv : string)
    (st : gmap string string) : gmap string string :=
  match ms with
  | [] => st
  | dk :: rest =>
      created id rest mv
        (match st !! regKey id dk with
         | Some _ => st
         | None => <[regKey id dk := mv]> st
         end)
  end.

(** The key of [dk] holds a text that decodes to [v]. *)
Definition holds (st : gmap string string) (id : ReceiverId)
    (dk : DictionaryKey) (v : regVal) : Prop :=
  ∃ d, st !! regKey id dk = Some d ∧ unmarshallRegVal d = Some v.

(** The records read for the existing keys of the set, in the order
    [storeOrGet] reads them. *)
Definition decoded (rs : list (option string)) : list regVal :=
  omap (λ r, r ≫= unmarshallRegVal) rs.
Definition existingVals (id : ReceiverId) (ms : MapSet)
    (st : gmap string string) : list regVal :=
  decoded (readAnswers id (sortMapSet ms) st).

(** Two distinct records, both different from the caller's [c]. *)
Definition twoDistinctForeign (c : regVal) (vals : list regVal) : Prop :=
  ∃ x y, x ∈ vals ∧ y ∈ vals ∧ x ≠ c ∧ y ≠ c ∧ x ≠ y.

(** After the first record [w] that differs from the caller's [c], some
    record differs from [w]. *)
Definition laterMismatch (c : regVal) (vals : list regVal) : Prop :=
  ∃ pre w post x,
    vals = (pre ++ w :: post)%list ∧ Forall (λ y, y = c) pre ∧ w ≠ c ∧
    x ∈ post ∧ x ≠ w.

(** The record the reads of [storeOrGet] settle on for the records [vals]
    read in order: the caller's [c] when every record is [c]; otherwise the
    first record [w] that differs from [c], provided every record read
    after it is [w]. *)
Definition settles (c : regVal) (vals : list regVal) (w : regVal) : Prop :=
  (w = c ∧ Forall (λ y, y = c) vals) ∨
  (w ≠ c ∧ ∃ pre post, vals = (pre ++ w :: post)%list ∧
     Forall (λ y, y = c) pre ∧ Forall (λ y, y = w) post).

End RegisterySpec.

(** ** The mapper *)

Definition detachedRcvrId : N := 0.

(** [uint32] arithmetic of the receiver counter. *)
Definition u32 (n : Z) : N := Z.to_N (n mod 2 ^ 32).
Definition incr32 (n : N) : N := u32 (Z.of_N n + 1).
Definition decr32 (n : N) : N := u32 (Z.of_N n - 1).

(** A message as the mapper sees it.  The declaration of [msg] is not part
    of the file: [isUnicast] and [To] are its two accessors used here. *)
Record msg := mkMsg {
  isUnicast : bool;
  To : ReceiverId;
  Data : N
}.

(** A handler, with its [Map] method (the mapper's context is fixed during a
    call, so [Map] is a function of the message). *)
Record handler := mkHandler {
  Map : msg → MapSet
}.

(** [msgAndHandler]; [mh_handler] is [None] for a nil handler. *)
Record msgAndHandler := mkMsgAndHandler {
  mh_msg : msg;
  mh_handler : option handler
}.

Inductive mapperError :=
| ErrCannotMigrateDetached (id : ReceiverId)
| ErrReceiverNotFound
| ErrLocalId (id : ReceiverId)
| ErrRcvrExists
| ErrStop
| ErrDial
| ErrEncode
| ErrDecode.

(** [asyncResult{data, err}]: the data of a result is a receiver ID here. *)
Record asyncResult := mkAsyncResult {
  res_data : option ReceiverId;
  res_err : option mapperError
}.

(** The three receiver types behind the [receiver] interface. *)
Inductive rcvrKind := LocalRcvr | ProxyRcvr | DetachedRcvr.

Global Instance rcvrKind_eq_dec : EqDecision rcvrKind.
Proof. solve_decision. Defined.

(** A receiver object: the [localRcvr] struct ([asyncRoutine] with its two
    channels, and [rId]), possibly embedded in a proxy or detached
    receiver.  Channels are references, numbered as they are made. *)
Record rcvrObj := mkRcvrObj {
  kind : rcvrKind;
  rId : ReceiverId;
  dataCh : nat;
  ctrlCh : nat
}.

(** A [receiver] value is a pointer to a receiver object: its index in the
    mapper's [heap].  [==] on receivers compares pointers. *)
Abbreviation rcvrRef := nat (only parsing).

Inductive routineCmdType := stopCmd | findRcvrCmd | newRcvrCmd | migrateRcvrCmd.

(** What the mapper does to its surroundings, in order. *)
Inductive effect :=
| EnqueMsg (r : rcvrRef) (mh : msgAndHandler)
| EnqueCmd (r : rcvrRef) (c : routineCmdType)
| StartRcvr (r : rcvrRef)
| SendRes (res : asyncResult)
| DialStage (to : StageId)
| EncodeHandshake
| EncodeCommand (c : routineCmdType) (id : ReceiverId)
| CloseConn.

(** [mapper], with the parts of its context it reads: the stage's ID, its
    isolation flag and its registry, and the actor's name. *)
Record mapper := mkMapper {
  stageId : StageId;
  actorName : string;
  isIsol : bool;
  reg : registery;
  lastRId : N;
  idToRcvrs : gmap ReceiverId rcvrRef;
  keyToRcvrs : gmap DictionaryKey rcvrRef;
  heap : list rcvrObj;
  chans : nat;
  effects : list effect
}.

Definition setReg (g : registery) (m : mapper) : mapper :=
  mkMapper (stageId m) (actorName m) (isIsol m) g (lastRId m) (idToRcvrs m)
    (keyToRcvrs m) (heap m) (chans m) (effects m).
Definition setLastRId (n : N) (m : mapper) : mapper :=
  mkMapper (stageId m) (actorName m) (isIsol m) (reg m) n (idToRcvrs m)
    (keyToRcvrs m) (heap m) (chans m) (effects m).
Definition setIdToRcvrs (i : gmap ReceiverId rcvrRef) (m : mapper) : mapper :=
  mkMapper (stageId m) (actorName m) (isIsol m) (reg m) (lastRId m) i
    (keyToRcvrs m) (heap m) (chans m) (effects m).
Definition setKeyToRcvrs (k : gmap DictionaryKey rcvrRef) (m : mapper) : mapper :=
  mkMapper (stageId m) (actorName m) (isIsol m) (reg m) (lastRId m)
    (idToRcvrs m) k (heap m) (chans m) (effects m).
Definition setHeap (h : list rcvrObj) (c : nat) (m : mapper) : mapper :=
  mkMapper (stageId m) (actorName m) (isIsol m) (reg m) (lastRId m)
    (idToRcvrs m) (keyToRcvrs m) h c (effects m).
Definition addEffect (e : effect) (m : mapper) : mapper :=
  mkMapper (stageId m) (actorName m) (isIsol m) (reg m) (lastRId m)
    (idToRcvrs m) (keyToRcvrs m) (heap m) (chans m) (effects m ++ [e]).

Definition emit (e : effect) : M mapper unit := modify (addEffect e).

(** A registry call made through [mapr.ctx.stage.registery]. *)
Definition onRegistery {A} (c : M registery A) : M mapper A :=
  λ m, match c (reg m) with
       | Done a g => Done a (setReg g m)
       | Fatal why g => Fatal why (setReg g m)
       | Blocked g => Blocked (setReg g m)
       | Panicked g => Panicked (setReg g m)
       end.

(** [rcvr.id()]; a dangling pointer cannot occur in Go and panics here. *)
Definition idOf (r : rcvrRef) : M mapper ReceiverId :=
  λ m, match heap m !! r with
       | Some o => Done (rId o) m
       | None => Panicked m
       end.

(** [rcvr.enqueMsg(mh)] and [rcvr.enqueCmd(cmd)]: the methods are not part
    of the file; the send on the receiver's channel is recorded. *)
Definition enqueMsg (r : rcvrRef) (mh : msgAndHandler) : M mapper unit :=
  emit (EnqueMsg r mh).

(** [ReceiverId.isDetachedId]: the method is not part of the file; the
    detached receiver is the one with [RcvrId = detachedRcvrId]. *)
Definition isDetachedId (id : ReceiverId) : bool :=
  bool_decide (id_RcvrId id = detachedRcvrId).

Section Mapper.
Context `{RegValCodec}.

Definition receiverByKey (dk : DictionaryKey) : M mapper (option rcvrRef) :=
  λ m, Done (keyToRcvrs m !! dk) m.

Definition receiverById (id : ReceiverId) : M mapper (option rcvrRef) :=
  λ m, Done (idToRcvrs m !! id) m.

Definition setReceiver (dk : DictionaryKey) (rcvr : rcvrRef) : M mapper unit :=
  modify (λ m, setKeyToRcvrs (<[dk := rcvr]> (keyToRcvrs m)) m).

Definition lockKey (dk : DictionaryKey) (rcvr : rcvrRef) : M mapper bool :=
  setReceiver dk rcvr ;;
  do m <- get;
  if isIsol m then ret true
  else
    do id <- idOf rcvr;
    onRegistery (storeOrGet id [dk]) ;;
    ret true.

Definition syncReceivers (ms : MapSet) (rcvr : rcvrRef) : M mapper unit :=
  forRange ms (λ dictKey,
    do dkRecvr <- receiverByKey dictKey;
    match dkRecvr with
    | None => lockKey dictKey rcvr ;; ret tt
    | Some r =>
        if decide (r = rcvr) then ret tt
        else fatalf FatalInconsistentShards
    end).

(** [anyReceiver]; [None] is the nil receiver. *)
Fixpoint anyReceiver (ms : MapSet) : M mapper (option rcvrRef) :=
  match ms with
  | [] => ret None
  | dictKey :: rest =>
      do rcvr <- receiverByKey dictKey;
      match rcvr with
      | Some r => ret (Some r)
      | None => anyReceiver rest
      end
  end.

Definition nextRcvrId : M mapper ReceiverId :=
  modify (λ m, setLastRId (incr32 (lastRId m)) m) ;;
  do m <- get;
  ret (mkReceiverId (stageId m) (actorName m) (lastRId m)).

(** [lock]: a new receiver ID if the map set can be locked, otherwise the
    ID of the owner of the map set. *)
Definition lock (mapSet : MapSet) (force : bool) : M mapper ReceiverId :=
  do id <- nextRcvrId;
  do m <- get;
  if isIsol m then ret id
  else
    do v <- onRegistery (if force then set id mapSet else storeOrGet id mapSet);
    if bool_decide (rv_StageId v = id_StageId id) &&
       bool_decide (rv_RcvrId v = id_RcvrId id)
    then ret id
    else
      modify (λ m, setLastRId (decr32 (lastRId m)) m) ;;
      ret (mkReceiverId (rv_StageId v) (id_ActorName id) (rv_RcvrId v)).

Definition isLocalRcvr (id : ReceiverId) : M mapper bool :=
  λ m, Done (bool_decide (stageId m = id_StageId id)) m.

(** Allocation of a receiver object: the pointer to it. *)
Definition newRcvr (o : rcvrObj) : M mapper rcvrRef :=
  λ m, Done (length (heap m)) (setHeap (heap m ++ [o]) (chans m) m).

(** [defaultLocalRcvr]: a [localRcvr] value with two fresh channels. *)
Definition defaultLocalRcvr (k : rcvrKind) (id : ReceiverId) : M mapper rcvrObj :=
  λ m, Done (mkRcvrObj k id (chans m) (S (chans m)))
            (setHeap (heap m) (S (S (chans m))) m).

Definition proxyFromLocal (id : ReceiverId) (lRcvr : rcvrRef)
    : M mapper (mapperError + rcvrRef) :=
  do loc <- isLocalRcvr id;
  if loc : bool then ret (inl (ErrLocalId id))
  else
    do known <- receiverById id;
    match known with
    | Some _ => ret (inl ErrRcvrExists)
    | None =>
        do m <- get;
        match heap m !! lRcvr with
        | None => panic
        | Some l =>
            do r <- newRcvr (mkRcvrObj ProxyRcvr id (dataCh l) (ctrlCh l));
            modify (λ m, setIdToRcvrs (<[id := r]> (idToRcvrs m)) m) ;;
            modify (λ m, setIdToRcvrs (<[rId l := r]> (idToRcvrs m)) m) ;;
            ret (inr r)
        end
    end.

Definition findOrCreateReceiver (id : ReceiverId) : M mapper rcvrRef :=
  do known <- receiverById id;
  match known with
  | Some r => ret r
  | None =>
      do loc <- isLocalRcvr id;
      do l <- defaultLocalRcvr (if loc : bool then LocalRcvr else ProxyRcvr) id;
      do rcvr <- newRcvr l;
      modify (λ m, setIdToRcvrs (<[id := rcvr]> (idToRcvrs m)) m) ;;
      emit (StartRcvr rcvr) ;;
      ret rcvr
  end.

Definition newLocalReceiver : M mapper rcvrRef :=
  do id <- nextRcvrId;
  findOrCreateReceiver id.

Definition newReceiverForMapSet (mapSet : MapSet) : M mapper rcvrRef :=
  do rcvrId <- lock mapSet false;
  do rcvr <- findOrCreateReceiver rcvrId;
  forRange mapSet (λ dictKey, setReceiver dictKey rcvr) ;;
  ret rcvr.

(** [mapSetOfRcvr]: the keys bound to a receiver whose ID is [id], in the
    order the map is walked. *)
Definition mapSetOfRcvr (id : ReceiverId) : M mapper MapSet :=
  λ m, Done (omap (λ kr, match heap m !! kr.2 with
                         | Some o => if decide (rId o = id) then Some kr.1 else None
                         | None => None
                         end)
                  (map_to_list (keyToRcvrs m))) m.

Definition handleMsg (mh : msgAndHandler) : M mapper unit :=
  if isUnicast (mh_msg mh) then
    do found <- receiverById (To (mh_msg mh));
    do rcvr <-
      match found with
      | Some r => ret r
      | None =>
          do loc <- isLocalRcvr (To (mh_msg mh));
          if loc : bool then fatalf FatalNoLocalReceiver
          else findOrCreateReceiver (To (mh_msg mh))
      end;
    if bool_decide (mh_handler mh = None :> option _)
         && negb (bool_decide (id_RcvrId (To (mh_msg mh)) = detachedRcvrId))
    then fatalf FatalNilHandler
    else enqueMsg rcvr mh
  else
    match mh_handler mh with
    | None => panic
    | Some h =>
        let mapSet := Map h (mh_msg mh) in
        do any <- anyReceiver mapSet;
        do rcvr <-
          match any with
          | None => newReceiverForMapSet mapSet
          | Some r => syncReceivers mapSet r ;; ret r
          end;
        enqueMsg rcvr mh
    end.

(** What the other side answers during a migration: the reply of the old
    receiver to the stop command, and the results of dialing the target
    stage, of the two encodes and of the decode of the new receiver ID. *)
Record migrateEnv := mkMigrateEnv {
  stopReply : option mapperError;
  dialReply : option mapperError;
  handshakeReply : option mapperError;
  commandReply : option mapperError;
  decodeReply : mapperError + ReceiverId
}.

Definition sendErr (err : mapperError) : M mapper unit :=
  emit (SendRes (mkAsyncResult None (Some err))).

(** [migrate].  [resCh <- x] is recorded as [SendRes x]; the deferred
    [conn.Close()] runs on every way out once the dial has succeeded. *)
Definition migrate (rcvrId : ReceiverId) (to : StageId) (env : migrateEnv)
    : M mapper unit :=
  if isDetachedId rcvrId then sendErr (ErrCannotMigrateDetached rcvrId)
  else
    do found <- receiverById rcvrId;
    match found with
    | None => sendErr ErrReceiverNotFound
    | Some oldRcvr =>
        emit (EnqueCmd oldRcvr stopCmd) ;;
        match stopReply env with
        | Some err => sendErr err
        | None =>
            emit (DialStage to) ;;
            match dialReply env with
            | Some err => sendErr err
            | None =>
                emit EncodeHandshake ;;
                match handshakeReply env with
                | Some err => sendErr err ;; emit CloseConn
                | None =>
                    let id := mkReceiverId to (id_ActorName rcvrId) 0 in
                    emit (EncodeCommand newRcvrCmd id) ;;
                    match commandReply env with
                    | Some err => sendErr err ;; emit CloseConn
                    | None =>
                        match decodeReply env with
                        | inl err => sendErr err ;; emit CloseConn
                        | inr id =>
                            do m <- get;
                            match kind <$> heap m !! oldRcvr with
                            | Some LocalRcvr =>
                                do res <- proxyFromLocal id oldRcvr;
                                match res with
                                | inl err => sendErr err ;; emit CloseConn
                                | inr newRcvr =>
                                    do oldId <- idOf oldRcvr;
                                    do mapSet <- mapSetOfRcvr oldId;
                                    do newId <- idOf newRcvr;
                                    onRegistery (set newId mapSet) ;;
                                    forRange mapSet
                                      (λ dictKey, setReceiver dictKey newRcvr) ;;
                                    emit (StartRcvr newRcvr) ;;
                                    emit CloseConn
                                end
                            | _ => emit CloseConn ;; panic
                            end
                        end
                    end
                end
            end
        end
    end.

End Mapper.

(** *** The detached receiver and the conversion of a proxy *)

(** [mapper.detachedRcvrId] *)
Definition detachedIdOf (m : mapper) : ReceiverId :=
  mkReceiverId (stageId m) (actorName m) detachedRcvrId.

Inductive detachedError := ErrAlreadyDetached.

Inductive localError :=
| ErrProxyId (id : ReceiverId)
| ErrLocalExists.

(** [detached]: the receiver under the detached ID; the type assertion to
    a detached receiver panics when it is of another type. *)
Definition detached : M mapper (option nat) :=
  λ m, match idToRcvrs m !! detachedIdOf m with
       | None => Done None m
       | Some d =>
           match kind <$> heap m !! d with
           | Some DetachedRcvr => Done (Some d) m
           | _ => Panicked m
           end
       end.

Definition setDetached (d : nat) : M mapper (option detachedError) :=
  do cur <- detached;
  match cur with
  | Some _ => ret (Some ErrAlreadyDetached)
  | None =>
      modify (λ m, setIdToRcvrs (<[detachedIdOf m := d]> (idToRcvrs m)) m) ;;
      ret None
  end.

(** [newDetachedRcvr]; the handler of the detached receiver is not kept in
    the model. *)
Definition newDetachedRcvr : M mapper nat :=
  do m <- get;
  do l <- defaultLocalRcvr DetachedRcvr (detachedIdOf m);
  newRcvr l.

(** [registerDetached]: the receiver is made before [setDetached] looks for
    an existing one. *)
Definition registerDetached : M mapper (option detachedError) :=
  do d <- newDetachedRcvr;
  setDetached d.

Definition localFromProxy (id : ReceiverId) (pRcvr : nat)
    : M mapper (localError + nat) :=
  do loc <- isLocalRcvr id;
  if negb loc then ret (inl (ErrProxyId id))
  else
    do known <- receiverById id;
    match known with
    | Some _ => ret (inl ErrLocalExists)
    | None =>
        do m <- get;
        match heap m !! pRcvr with
        | None => panic
        | Some p =>
            do r <- newRcvr (mkRcvrObj LocalRcvr id (dataCh p) (ctrlCh p));
            modify (λ m, setIdToRcvrs (<[id := r]> (idToRcvrs m)) m) ;;
            modify (λ m, setIdToRcvrs (<[rId p := r]> (idToRcvrs m)) m) ;;
            ret (inr r)
        end
    end.

(** ** The RPC client pool *)

(** Times are nanoseconds since the zero [time.Time]; durations are
    nanoseconds ([int64]). *)
Definition millisecond : Z := 1000000.
Definition second : Z := 1000 * millisecond.
Definition maxWait : Z := 8 * second.
Definition minWait : Z := 50 * millisecond.

(** [int64] and [uint64] arithmetic. *)
Definition int64 (n : Z) : Z := (n + 2 ^ 63) mod 2 ^ 64 - 2 ^ 63.
Definition uint64 (n : Z) : N := Z.to_N (n mod 2 ^ 64).

(** The errors the pool meets: [rpc.ErrShutdown], a [net.Error] with its two
    flags, the pool's own [rpcBackoffError], an unknown hive in the local
    registry, and any other error of a call. *)
Inductive rpcError :=
| ErrShutdown
| ErrNet (temporary timeout : bool)
| ErrBackoff (Until : Z)
| ErrNoSuchHive
| ErrOther.

Global Instance rpcError_eq_dec : EqDecision rpcError.
Proof. solve_decision. Defined.

(** [rpcBackoffError] has the methods of [net.Error]. *)
Definition isNetError (e : rpcError) : bool :=
  match e with ErrNet _ _ | ErrBackoff _ => true | _ => false end.
Definition Temporary (e : rpcError) : bool :=
  match e with ErrNet t _ => t | ErrBackoff _ => true | _ => false end.
Definition Timeout (e : rpcError) : bool :=
  match e with ErrNet _ t => t | ErrBackoff _ => true | _ => false end.

Definition isBackoffError (e : rpcError) : bool :=
  match e with ErrBackoff _ => true | _ => false end.

Record dialTry := mkDialTry {
  next : Z;
  wait : Z;
  tries : N
}.

(** The four streams of a client are connections, numbered as they are
    opened. *)
Record rpcClient := mkRpcClient {
  addr : string;
  cmdConn : nat;
  msgConn : nat;
  raftConn : nat;
  prioConn : nat
}.

Global Instance rpcClient_eq_dec : EqDecision rpcClient.
Proof. solve_decision. Defined.

Inductive raftPriority := High | Normal.

Global Instance raftPriority_eq_dec : EqDecision raftPriority.
Proof. solve_decision. Defined.

(** What the pool does on the network. *)
Inductive poolEvent :=
| Dialed (a : string) (ok : bool)
| Called (conn : nat) (method : string).

(** [rpcClientPool]: a client is a pointer, its index in [clients]. *)
Record rpcClientPool := mkPool {
  clients : list rpcClient;
  hiveClients : gmap N nat;
  retries : gmap N dialTry;
  conns : nat;
  net : list poolEvent
}.

Definition setHiveClients (h : gmap N nat) (p : rpcClientPool) : rpcClientPool :=
  mkPool (clients p) h (retries p) (conns p) (net p).
Definition setRetries (r : gmap N dialTry) (p : rpcClientPool) : rpcClientPool :=
  mkPool (clients p) (hiveClients p) r (conns p) (net p).

(** What a call to [newClient] finds around it: the clock, the address of
    the hive in the local registry (if any), and which of the four dials of
    [newRPCClient] connect. *)
Record dialEnv := mkDialEnv {
  now : Z;
  hiveAddr : option string;
  cmdDial : option rpcError;
  raftDial : bool;
  prioDial : bool;
  msgDial : bool
}.

Definition shouldReset (err : option rpcError) : bool :=
  match err with
  | None => false
  | Some ErrShutdown => true
  | Some e => isNetError e && negb (Temporary e)
  end.

Definition lookupHive (hive : N) (p : rpcClientPool) : option nat :=
  hiveClients p !! hive.

Definition setHive (hive : N) (client : nat) (p : rpcClientPool) : rpcClientPool :=
  setHiveClients (<[hive := client]> (hiveClients p)) p.

Definition deleteHive (hive : N) (p : rpcClientPool) : rpcClientPool :=
  setHiveClients (delete hive (hiveClients p)) p.

Definition lookupRetry (hive : N) (p : rpcClientPool) : dialTry * rpcClientPool :=
  match retries p !! hive with
  | Some t => (t, p)
  | None =>
      let t := mkDialTry 0 minWait 0 in
      (t, setRetries (<[hive := t]> (retries p)) p)
  end.

Definition setRetry (hive : N) (t : dialTry) (p : rpcClientPool) : rpcClientPool :=
  setRetries (<[hive := t]> (retries p)) p.

(** One [net.DialTimeout]: the connection opened, if any. *)
Definition dialTimeout (a : string) (ok : bool) (p : rpcClientPool)
    : option nat * rpcClientPool :=
  let p1 := mkPool (clients p) (hiveClients p) (retries p) (conns p)
              (net p ++ [Dialed a ok]) in
  if ok then
    (Some (conns p),
     mkPool (clients p1) (hiveClients p1) (retries p1) (S (conns p1)) (net p1))
  else (None, p1).

(** [newRPCClient]: the first dial decides; each later stream falls back on
    an open one (raft on cmd, prio on raft, msg on cmd). *)
Definition newRPCClient (a : string) (env : dialEnv) (p : rpcClientPool)
    : (rpcError + nat) * rpcClientPool :=
  match cmdDial env with
  | Some err => (inl err, (dialTimeout a false p).2)
  | None =>
      let '(c, p1) := dialTimeout a true p in
      let cmd := default 0%nat c in
      let '(r, p2) := dialTimeout a (raftDial env) p1 in
      let raft := default cmd r in
      let '(pr, p3) := dialTimeout a (prioDial env) p2 in
      let prio := default raft pr in
      let '(ms, p4) := dialTimeout a (msgDial env) p3 in
      let msg := default cmd ms in
      (inr (length (clients p4)),
       mkPool (clients p4 ++ [mkRpcClient a cmd msg raft prio])
         (hiveClients p4) (retries p4) (conns p4) (net p4))
  end.

(** [newClient].  The entry of [retries] is the [*dialTry] the function
    updates in place. *)
Definition newClient (hive : N) (env : dialEnv) (p : rpcClientPool)
    : (rpcError + nat) * rpcClientPool :=
  let '(t, p) := lookupRetry hive p in
  match lookupHive hive p with
  | Some client => (inr client, p)
  | None =>
      if negb (next t <? now env)%Z then (inl (ErrBackoff (next t)), p)
      else
        match hiveAddr env with
        | None => (inl ErrNoSuchHive, p)
        | Some a =>
            match newRPCClient a env p with
            | (inl err, p) =>
                let w := int64 (wait t * 2) in
                let w := if (maxWait <? w)%Z then maxWait else w in
                let t := mkDialTry (now env + w) w
                           (uint64 (Z.of_N (tries t) + 1)) in
                (inl err, setRetry hive t p)
            | (inr client, p) =>
                let t := mkDialTry (now env) (1 * second) (tries t) in
                (inr client, setHive hive client (setRetry hive t p))
            end
        end
  end.

Definition resetHiveClient (hive : N) (prev : option nat) (env : dialEnv)
    (p : rpcClientPool) : (rpcError + nat) * rpcClientPool :=
  match lookupHive hive p with
  | Some client =>
      if negb (bool_decide (Some client = prev)) then (inr client, p)
      else
        match newClient hive env (deleteHive hive p) with
        | (inl err, p) => (inl err, p)
        | (inr client, p) => (inr client, setHive hive client p)
        end
  | None =>
      match newClient hive env (deleteHive hive p) with
      | (inl err, p) => (inl err, p)
      | (inr client, p) => (inr client, setHive hive client p)
      end
  end.

Definition hiveClient (hive : N) (env : dialEnv) (p : rpcClientPool)
    : (rpcError + nat) * rpcClientPool :=
  match lookupHive hive p with
  | Some c => (inr c, p)
  | None => resetHiveClient hive None env p
  end.

(** *** Raft batches and the reporter *)

(** A raft message, as far as the transport looks at it: the index of its
    snapshot's metadata ([IsEmptySnap] is [Index == 0]). *)
Record raftMsg := mkRaftMsg {
  snapshotIndex : N
}.

Definition IsEmptySnap (msg : raftMsg) : bool :=
  bool_decide (snapshotIndex msg = 0%N).

Record Batch := mkBatch {
  batchFrom : N;
  batchTo : N;
  Priority : raftPriority;
  Messages : gmap N (list raftMsg)
}.

Inductive SnapshotStatus := SnapshotFinish | SnapshotFailure.

Global Instance SnapshotStatus_eq_dec : EqDecision SnapshotStatus.
Proof. solve_decision. Defined.

(** The calls made on the [raft.Reporter]. *)
Inductive reportCall :=
| ReportUnreachable (id group : N)
| ReportSnapshot (id group : N) (status : SnapshotStatus).

Global Instance reportCall_eq_dec : EqDecision reportCall.
Proof. solve_decision. Defined.

Definition snapStatus (err : option rpcError) : SnapshotStatus :=
  match err with Some _ => SnapshotFailure | None => SnapshotFinish end.

Definition unreachable (err : option rpcError) : bool :=
  match err with Some _ => true | None => false end.

(** The body of the loop of [report] for one group. *)
Definition reportGroup (err : option rpcError) (to : N)
    (gm : N * list raftMsg) : list reportCall :=
  (if unreachable err then [ReportUnreachable to gm.1] else []) ++
  omap (λ msg, if negb (IsEmptySnap msg)
               then Some (ReportSnapshot to gm.1 (snapStatus err))
               else None) gm.2.

(** [report]: the groups of the batch are walked in the order of the map. *)
Definition report (err : option rpcError) (batch : Batch) : list reportCall :=
  mbind (reportGroup err (batchTo batch)) (map_to_list (Messages batch)).

(** [rpcClient.sendRaft], with the result of the RPC given. *)
Definition clientSendRaft (client : nat) (batch : Batch)
    (callErr : option rpcError) (p : rpcClientPool)
    : option rpcError * list reportCall * rpcClientPool :=
  let conn :=
    match clients p !! client with
    | Some c => if decide (Priority batch = High) then prioConn c else raftConn c
    | None => 0%nat
    end in
  let p := mkPool (clients p) (hiveClients p) (retries p) (conns p)
             (net p ++ [Called conn "rpcServer.ProcessRaft"]) in
  (callErr, report callErr batch, p).

(** [rpcClientPool.sendRaft]: [env] is what [hiveClient] finds, [callErr] the
    result of the RPC if it is made, [env'] what a reset finds. *)
Definition sendRaft (batch : Batch) (env : dialEnv)
    (callErr : option rpcError) (env' : dialEnv) (p : rpcClientPool)
    : option rpcError * list reportCall * rpcClientPool :=
  match hiveClient (batchTo batch) env p with
  | (inl err, p) => (Some err, report (Some err) batch, p)
  | (inr client, p) =>
      let '(err, reps, p) := clientSendRaft client batch callErr p in
      if shouldReset err
      then (err, reps, (resetHiveClient (batchTo batch) (Some client) env' p).2)
      else (err, reps, p)
  end.

(** ** The RPC server *)

Definition Nil : N := 0.

Record cmd := mkCmd {
  cmdHive : N;
  cmdApp : string;
  cmdBee : N;
  cmdData : N
}.

Inductive serverError :=
| ErrWrongHive (h : N)
| ErrNoApp (a : string)
| ErrNoBee (b : N)
| ErrCmd (code : N).

Record cmdResult := mkCmdResult {
  resData : option N;
  resErr : option serverError
}.

(** Where a command is handed to. *)
Inductive ctrlTarget :=
| HiveCtrl
| AppCtrl (a : string)
| BeeCtrl (a : string) (b : N).

(** The hive behind the server: its ID, the bees of its apps, and for each
    control channel what its reader puts on the result channel of a
    command ([None]: it never does). *)
Record rpcServer := mkRpcServer {
  hiveID : N;
  apps : gmap string (gset N);
  answer : ctrlTarget → cmd → option cmdResult
}.

(** The first loop of [ProcessCmd] for one command: what ends up on the
    command's result channel. *)
Definition dispatch (s : rpcServer) (c : cmd) : option cmdResult :=
  if negb (bool_decide (cmdHive c = Nil)) &&
     negb (bool_decide (cmdHive c = hiveID s))
  then Some (mkCmdResult None (Some (ErrWrongHive (cmdHive c))))
  else if bool_decide (cmdApp c = "")
  then answer s HiveCtrl c
  else
    match apps s !! cmdApp c with
    | None => Some (mkCmdResult None (Some (ErrNoApp (cmdApp c))))
    | Some bees =>
        if bool_decide (cmdBee c = Nil) then answer s (AppCtrl (cmdApp c)) c
        else if bool_decide (cmdBee c ∈ bees)
        then answer s (BeeCtrl (cmdApp c) (cmdBee c)) c
        else Some (mkCmdResult None (Some (ErrNoBee (cmdBee c))))
    end.

(** [for i, x := range l { body }] where the body may [return]: [inl] is
    the value returned from the function, [inr] the state after the loop. *)
Fixpoint forRangeReturn {X R St} (i : nat) (l : list X)
    (body : nat → X → St → R + St) (st : St) : R + St :=
  match l with
  | [] => inr st
  | x :: rest =>
      match body i x st with
      | inl r => inl r
      | inr st' => forRangeReturn (S i) rest body st'
      end
  end.

(** The body of the second loop of [ProcessCmd] for the channel at index
    [i]: the inner loop waits for the result (forever when none comes: the
    function does not return, [None]); with the result it stores it at [i]
    and executes [return nil]. *)
Definition collect (i : nat) (ch : option cmdResult) (res : list cmdResult)
    : option (list cmdResult) + list cmdResult :=
  match ch with
  | Some r => inl (Some (<[i := r]> res))
  | None => inl None
  end.

(** [ProcessCmd]: the result slice when it returns nil, [None] when it waits
    forever. *)
Definition ProcessCmd (s : rpcServer) (cmds : list cmd) (res : list cmdResult)
    : option (list cmdResult) :=
  match cmds with
  | [] => Some res
  | _ =>
      let res := replicate (length cmds) (mkCmdResult None None) in
      let chs := dispatch s <$> cmds in
      match forRangeReturn 0 chs collect res with
      | inl returned => returned
      | inr res => Some res
      end
  end.

(** ** Specification functions for the pool and the server *)

(** A call to [newClient] that reaches the dial and whose dial fails: no
    client is cached, the backoff window is over, the hive has an address
    and the first connection is refused. *)
Definition dialFails (hive : N) (env : dialEnv) (p : rpcClientPool) : Prop :=
  hiveClients p !! hive = None ∧
  (next (lookupRetry hive p).1 < now env)%Z ∧
  is_Some (hiveAddr env) ∧ is_Some (cmdDial env).

(** A call to [newClient] made inside the backoff window. *)
Definition inBackoff (hive : N) (env : dialEnv) (p : rpcClientPool) : Prop :=
  hiveClients p !! hive = None ∧
  (now env ≤ next (lookupRetry hive p).1)%Z.

(** [failedDials hive k t p p']: from [p], calls to [newClient] for [hive]
    lead to [p'] with [k] dials, all failed, the last one at time [t];
    calls refused by the backoff may come in between. *)
Inductive failedDials (hive : N) : nat → Z → rpcClientPool → rpcClientPool → Prop :=
| failed_first p env :
    dialFails hive env p →
    failedDials hive 1 (now env) p (newClient hive env p).2
| failed_next k t p p1 env :
    failedDials hive k t p p1 →
    dialFails hive env p1 →
    failedDials hive (S k) (now env) p (newClient hive env p1).2
| failed_refused k t p p1 env :
    failedDials hive k t p p1 →
    inBackoff hive env p1 →
    failedDials hive k t p (newClient hive env p1).2.

(** How often the reporter was called with [c]. *)
Definition countCall (c : reportCall) (l : list reportCall) : nat :=
  length (filter (λ x, x = c) l).

(** The messages of group [g] that carry a snapshot. *)
Definition snapshotsOf (batch : Batch) (g : N) : list raftMsg :=
  filter (λ msg, IsEmptySnap msg = false) (default [] (Messages batch !! g)).

(** The RPCs made so far. *)
Definition isCalled (e : poolEvent) : bool :=
  match e with Called _ _ => true | Dialed _ _ => false end.
Definition callsOf (p : rpcClientPool) : list poolEvent :=
  filter (λ e, isCalled e = true) (net p).

(** Every retry entry waits between [minWait] and [maxWait], and every
    cached client is a client of the pool. *)
Definition poolOk (p : rpcClientPool) : Prop :=
  (∀ h t, retries p !! h = Some t → (minWait ≤ wait t ≤ maxWait)%Z) ∧
  (∀ h c, hiveClients p !! h = Some c → c < length (clients p)).

(** ** Specification functions for the mapper *)

(** The parts of the mapper a registry call leaves alone. *)
Definition sameButReg (m m' : mapper) : Prop :=
  stageId m' = stageId m ∧ actorName m' = actorName m ∧
  isIsol m' = isIsol m ∧ lastRId m' = lastRId m ∧
  idToRcvrs m' = idToRcvrs m ∧ keyToRcvrs m' = keyToRcvrs m ∧
  heap m' = heap m ∧ chans m' = chans m ∧ effects m' = effects m.


(** The state of a migration once the new receiver ID has been decoded. *)
Definition migrateDecoded (rcvrId : ReceiverId) (to : StageId) (old : nat)
    (m : mapper) : mapper :=
  addEffect (EncodeCommand newRcvrCmd (mkReceiverId to (id_ActorName rcvrId) 0))
    (addEffect EncodeHandshake
       (addEffect (DialStage to) (addEffect (EnqueCmd old stopCmd) m))).



(** ** Sample registries *)

Module Sample.

Definition id0 : ReceiverId := mkReceiverId 1%N "x" 5%N.
Definition keyA : DictionaryKey := mkDictionaryKey "d" "a".
Definition keyB : DictionaryKey := mkDictionaryKey "d" "b".
Definition ms0 : MapSet := [keyB; keyA].
Definition caller0 : regVal := callerRegVal id0.
Definition foreign0 : regVal := mkRegVal 2%N 7%N.

Definition registeryOf (st : gmap string string) (ws : list watchResult)
    : registery :=
  mkRegistery "/theatre" 60%N st ws [].

(** Nothing stored. *)
Definition gEmpty : registery := registeryOf ∅ [].

(** Key a is owned by a foreign receiver, key b is free. *)
Definition gF : registery :=
  registeryOf {[ regKey id0 keyA := Json.printRegVal foreign0 ]} [].

(** Key a is owned by a foreign receiver, key b holds the caller's record. *)
Definition gFC : registery :=
  registeryOf (<[ regKey id0 keyA := Json.printRegVal foreign0 ]>
                 {[ regKey id0 keyB := Json.printRegVal caller0 ]}) [].

(** The actor lock is held by another receiver and the watch on it fails. *)
Definition gLocked : registery :=
  registeryOf {[ "/theatre/x/__lock__" := Json.printRegVal foreign0 ]}
    [WatchErr].

(** Key a holds the caller's record, key b a foreign one. *)
Definition gCF : registery :=
  registeryOf (<[ regKey id0 keyA := Json.printRegVal caller0 ]>
                 {[ regKey id0 keyB := Json.printRegVal foreign0 ]}) [].
(** Key a holds a text that is no registry record. *)
Definition gJunk : registery :=
  registeryOf {[ regKey id0 keyA := "junk" ]} [].

(** Another receiver of the same actor, on stage 2. *)
Definition id1 : ReceiverId := mkReceiverId 2%N "x" 7%N.

End Sample.

(** ** Sample mappers *)

Module SampleMapper.
Import Sample.

Definition mapperOf (isol : bool) (g : registery) (last : N)
    (ids : gmap ReceiverId nat) (keys : gmap DictionaryKey nat)
    (h : list rcvrObj) : mapper :=
  mkMapper 1%N "x" isol g last ids keys h (2 * length h) [].

(** An isolated mapper with no receiver yet. *)
Definition mIsol : mapper := mapperOf true gEmpty 0 ∅ ∅ [].

(** A mapper whose registry has key a owned by the foreign receiver. *)
Definition mForeign : mapper := mapperOf false gF 4 ∅ ∅ [].

(** A keyed message whose handler maps it to the two sample keys. *)
Definition h0 : handler := mkHandler (λ _, ms0).
Definition mh0 : msgAndHandler :=
  mkMsgAndHandler (mkMsg false (mkReceiverId 0%N "" 0%N) 0%N) (Some h0).

(** Two local receivers, one per sample key. *)
Definition rcvr1 : ReceiverId := mkReceiverId 1%N "x" 1%N.
Definition rcvr2 : ReceiverId := mkReceiverId 1%N "x" 2%N.
Definition mSplit : mapper :=
  mapperOf true gEmpty 2 {[ rcvr1 := 0; rcvr2 := 1 ]}
    {[ keyA := 0; keyB := 1 ]}
    [mkRcvrObj LocalRcvr rcvr1 0 1; mkRcvrObj LocalRcvr rcvr2 2 3].

(** One local receiver owning both sample keys, and a migration of it to
    stage 2 where every step succeeds. *)
Definition mOwner : mapper :=
  mapperOf true gEmpty 1 {[ rcvr1 := 0 ]} {[ keyA := 0; keyB := 0 ]}
    [mkRcvrObj LocalRcvr rcvr1 0 1].
Definition remote9 : ReceiverId := mkReceiverId 2%N "x" 9%N.
Definition envOk : migrateEnv := mkMigrateEnv None None None None (inr remote9).

(** A unicast message to the remote receiver. *)
Definition mhU : msgAndHandler :=
  mkMsgAndHandler (mkMsg true remote9 0%N) (Some h0).

(** A mapper that knows the remote receiver through a proxy. *)
Definition mProxy : mapper :=
  mapperOf true gEmpty 0 {[ remote9 := 0 ]} ∅
    [mkRcvrObj ProxyRcvr remote9 0 1].

End SampleMapper.

(** ** Sample pools, batches and servers *)

Module SamplePool.

Definition pool0 : rpcClientPool := mkPool [] ∅ ∅ 0 [].

(** The peer is known at an address that refuses connections. *)
Definition refused (t : Z) : dialEnv :=
  mkDialEnv t (Some "10.0.0.2:7767") (Some (ErrNet false false)) true true true.

(** The peer accepts all four connections. *)
Definition accepted (t : Z) : dialEnv :=
  mkDialEnv t (Some "10.0.0.2:7767") None true true true.

(** Two groups: group 1 with a snapshot and a plain message, group 2 with a
    plain message. *)
Definition batch0 : Batch :=
  mkBatch 1 2 Normal
    {[ 1%N := [mkRaftMsg 7; mkRaftMsg 0]; 2%N := [mkRaftMsg 0] ]}.

(** The pool after one failed dial to hive 2 at time 1000. *)
Definition poolFailed : rpcClientPool := (newClient 2 (refused 1000) pool0).2.

(** A hive with ID 1 and no app; every control channel answers a command
    with its own data. *)
Definition server0 : rpcServer :=
  mkRpcServer 1 ∅ (λ _ c, Some (mkCmdResult (Some (cmdData c)) None)).

(** Two commands addressed to other hives. *)
Definition cmdTo (h : N) : cmd := mkCmd h "" 0 0.

(** The pool after a successful dial to hive 2 at time 1000. *)
Definition poolConnected : rpcClientPool :=
  (hiveClient 2 (accepted 1000) pool0).2.

End SamplePool.


(** * Properties *)

(** ** The order of a sorted map set *)

Global Instance dkLe_total : Total dkLe.
Proof.
  intros a b. unfold dkLe, dkLess.
  rewrite (String.compare_antisym (Dict a) (Dict b)).
  rewrite (String.compare_antisym (Key a) (Key b)).
  destruct (String.compare (Dict b) (Dict a)); simpl; auto.
  destruct (String.compare (Key b) (Key a)); simpl; auto.
Qed.

Lemma sortMapSet_Sorted ms : Sorted dkLe (sortMapSet ms).
Proof. apply Sorted_merge_sort, _. Qed.

Lemma sortMapSet_Permutation ms : sortMapSet ms ≡ₚ ms.
Proof. apply merge_sort_Permutation. Qed.

Lemma elem_of_sortMapSet dk ms : dk ∈ sortMapSet ms ↔ dk ∈ ms.
Proof. by rewrite sortMapSet_Permutation. Qed.

(** ** Equality of registry records *)

Lemma regValEq_true a b : regValEq a b = true ↔ a = b.
Proof.
  unfold regValEq. rewrite andb_true_iff, !bool_decide_eq_true.
  destruct a, b; simpl; split; [intros [-> ->]|intros [= -> ->]]; done.
Qed.

Lemma regValEq_false a b : regValEq a b = false ↔ a ≠ b.
Proof.
  rewrite <- regValEq_true. destruct (regValEq a b); split; congruence.
Qed.

(** ** The JSON codec decodes what it encodes *)

Section JsonFacts.
Import Json.

Lemma dropPrefix_app p s : dropPrefix p (p +:+ s) = Some s.
Proof.
  induction p as [|a p IH]; simpl; [by destruct s|].
  by rewrite Ascii.eqb_refl.
Qed.

Lemma spanDigits_uint d r :
  spanDigits r = ("", r) →
  spanDigits (NilEmpty.string_of_uint d +:+ r) = (NilEmpty.string_of_uint d, r).
Proof.
  intros Hr. induction d; simpl; [done|..]; by rewrite IHd.
Qed.

Lemma string_of_uint_nonempty d :
  d ≠ Decimal.Nil → NilEmpty.string_of_uint d ≠ "".
Proof. by destruct d. Qed.

Lemma to_uint_nonnil n : N.to_uint n ≠ Decimal.Nil.
Proof. destruct n; simpl; [done|apply DecimalPos.Unsigned.to_uint_nonnil]. Qed.

Lemma parseNum_decimal n r :
  spanDigits r = ("", r) → parseNum (decimal n +:+ r) = Some (n, r).
Proof.
  intros Hr. unfold parseNum, decimal. rewrite spanDigits_uint by done.
  pose proof (string_of_uint_nonempty _ (to_uint_nonnil n)) as Hne.
  destruct (NilEmpty.string_of_uint (N.to_uint n)) eqn:E; [done|].
  rewrite <- E, NilEmpty.usu. simpl. by rewrite DecimalN.Unsigned.of_to.
Qed.

Lemma parse_print v : parseRegVal (printRegVal v) = Some v.
Proof.
  unfold parseRegVal, printRegVal.
  rewrite (dropPrefix_app stageField). cbn [mbind option_bind].
  rewrite parseNum_decimal by done. cbn [mbind option_bind].
  rewrite (dropPrefix_app rcvrField). cbn [mbind option_bind].
  rewrite parseNum_decimal by done. cbn [mbind option_bind].
  rewrite decide_True by done. by destruct v.
Qed.

End JsonFacts.

Global Instance Json_codec : RegValCodec :=
  {| marshallRegVal := Json.printRegVal;
     unmarshallRegVal := Json.parseRegVal;
     unmarshall_marshall := parse_print |}.


(** ** Facts about the registry client *)

Lemma after_after st1 b1 st2 b2 g :
  after st2 b2 (after st1 b1 g) = after st2 (b1 ++ b2) g.
Proof. unfold after; simpl. by rewrite app_assoc. Qed.

Lemma after_id g : after (store g) [] g = g.
Proof. destruct g. unfold after; simpl. by rewrite app_nil_r. Qed.

Section RegisteryFacts.
Context `{RegValCodec}.

Lemma onKeysOf_cons id dk ms op : onKeysOf id ms op → onKeysOf id (dk :: ms) op.
Proof. intros (dk' & ? & ?). exists dk'. split; [by right|done]. Qed.

Lemma readLoop_scan id ms v mv validate g :
  ∃ body, Forall (onKeysOf id ms) body ∧
    readLoop id ms v mv validate g =
      match scan v mv validate (readAnswers id ms (store g)) with
      | inr r => Done r (after (store g) body g)
      | inl why => Fatal why (after (store g) body g)
      end.
Proof.
  revert v mv validate g.
  induction ms as [|dk ms IH]; intros v mv validate g; simpl.
  { exists []. split; [constructor|]. unfold ret. by rewrite after_id. }
  set (k := regKey id dk).
  set (g1 := logOp (OpGet k (store g !! k)) g).
  assert (Hg1 : g1 = after (store g) [OpGet k (store g !! k)] g) by done.
  assert (Hop : onKeysOf id (dk :: ms) (OpGet k (store g !! k))).
  { exists dk. split; [by left|done]. }
  unfold bind at 1, etcdGet.
  destruct (store g !! k) as [d|] eqn:Hk; fold g1.
  - unfold unmarshallRegValOrFail, bind at 1.
    destruct (unmarshallRegVal d) as [resV|] eqn:Hd; simpl.
    + destruct (regValEq resV v).
      * destruct (IH v mv validate g1) as (body & Hb & ->).
        exists (OpGet k (Some d) :: body). split.
        { constructor; [done|]. eapply Forall_impl; [done|]. apply onKeysOf_cons. }
        rewrite Hg1, after_after. done.
      * destruct validate.
        { exists [OpGet k (Some d)]. split; [by constructor|]. by rewrite Hg1. }
        destruct (IH resV d true g1) as (body & Hb & ->).
        exists (OpGet k (Some d) :: body). split.
        { constructor; [done|]. eapply Forall_impl; [done|]. apply onKeysOf_cons. }
        rewrite Hg1, after_after. done.
    + exists [OpGet k (Some d)]. split; [by constructor|]. by rewrite Hg1.
  - destruct (IH v mv validate g1) as (body & Hb & ->).
    exists (OpGet k None :: body). split.
    { constructor; [done|]. eapply Forall_impl; [done|]. apply onKeysOf_cons. }
    rewrite Hg1, after_after. done.
Qed.

Lemma createLoop_created id ms mv g :
  ∃ body, Forall (onKeysOf id ms) body ∧
    createLoop id ms mv g = Done tt (after (created id ms mv (store g)) body g).
Proof.
  revert g. induction ms as [|dk ms IH]; intros g; simpl.
  { exists []. split; [constructor|]. unfold createLoop, ret; simpl.
    by rewrite after_id. }
  unfold createLoop; simpl. unfold bind at 1. unfold bind at 1.
  unfold etcdCreate at 1.
  set (k := regKey id dk).
  assert (Hop : ∀ ok, onKeysOf id (dk :: ms) (OpCreate k mv ok)).
  { intros ok. exists dk. split; [by left|done]. }
  destruct (store g !! k) as [d|] eqn:Hk; unfold ret at 1.
  - destruct (IH (logOp (OpCreate k mv false) g)) as (body & Hb & Hc).
    unfold createLoop in Hc. rewrite Hc.
    exists (OpCreate k mv false :: body). split.
    { constructor; [done|]. eapply Forall_impl; [done|]. apply onKeysOf_cons. }
    change (logOp (OpCreate k mv false) g)
      with (after (store g) [OpCreate k mv false] g).
    by rewrite after_after.
  - destruct (IH (logOp (OpCreate k mv true) (setStore <[k:=mv]> g)))
      as (body & Hb & Hc).
    unfold createLoop in Hc. rewrite Hc.
    exists (OpCreate k mv true :: body). split.
    { constructor; [done|]. eapply Forall_impl; [done|]. apply onKeysOf_cons. }
    change (logOp (OpCreate k mv true) (setStore <[k:=mv]> g))
      with (after (<[k:=mv]> (store g)) [OpCreate k mv true] g).
    by rewrite after_after.
Qed.

Lemma created_lookup id ms mv st k :
  created id ms mv st !! k =
    match st !! k with
    | Some d => Some d
    | None => if decide (k ∈ regKey id <$> ms) then Some mv else None
    end.
Proof.
  revert st. induction ms as [|dk ms IH]; intros st.
  { cbn [created]. destruct (st !! k); [done|]. case_decide; [set_solver|done]. }
  cbn [created]. rewrite IH. destruct (decide (k = regKey id dk)) as [->|Hne].
  - destruct (st !! regKey id dk) as [d|] eqn:Hk; [by rewrite Hk|].
    rewrite lookup_insert_eq. rewrite decide_True; [done|].
    rewrite fmap_cons. by left.
  - assert (Hst : (match st !! regKey id dk with
                   | Some _ => st
                   | None => <[regKey id dk:=mv]> st
                   end) !! k = st !! k).
    { destruct (st !! regKey id dk); [done|]. by rewrite lookup_insert_ne. }
    rewrite Hst. destruct (st !! k); [done|].
    destruct (decide (k ∈ regKey id <$> ms)).
    + rewrite decide_True; [done|]. rewrite fmap_cons. by right.
    + rewrite decide_False; [done|]. rewrite fmap_cons.
      intros [?|?]%elem_of_cons; done.
Qed.

(** [lockActor] only touches the lock key; when it reports no error the key
    holds the caller's record and the last request was its creation. *)
Lemma lockActorLoop_spec k mv ws g :
  ∃ st body ws',
    Forall (λ op, opKey op = k) body ∧
    (∀ k', k' ≠ k → st !! k' = store g !! k') ∧
    match lockActorLoop k mv ws g with
    | Done r g' =>
        g' = setWatches ws' (after st body g) ∧
        (r = None → st !! k = Some mv ∧ last body = Some (OpCreate k mv true))
    | Blocked g' => g' = setWatches ws' (after st body g)
    | _ => False
    end.
Proof.
  revert g. induction ws as [|w ws IH]; intros g; simpl.
  - destruct (store g !! k) eqn:Hk.
    + exists (store g), [OpCreate k mv false], [].
      split; [by repeat constructor|]. by split.
    + exists (<[k:=mv]> (store g)), [OpCreate k mv true], [].
      split; [by repeat constructor|]. split.
      { intros k' ?. by rewrite lookup_insert_ne. }
      split; [done|]. intros _. by rewrite lookup_insert_eq.
  - destruct (store g !! k) eqn:Hk.
    + destruct w as [|nv].
      * exists (store g), [OpCreate k mv false; OpWatch k WatchErr], ws.
        split; [by repeat constructor|]. split; [done|]. split; [|done].
        unfold after, logOp, setWatches; simpl. by rewrite <- app_assoc.
      * set (g1 := logOp _ _).
        destruct (IH g1) as (st & body & ws' & Hb & Hst & Hres).
        exists st, (OpCreate k mv false :: OpWatch k (WatchChange nv) :: body), ws'.
        split; [repeat constructor; done|]. split.
        { intros k' Hne. rewrite Hst by done. subst g1; simpl.
          destruct nv; simpl; [by rewrite lookup_insert_ne|by rewrite lookup_delete_ne]. }
        assert (Hafter : ∀ st0, after st0 body g1 =
          after st0 (OpCreate k mv false :: OpWatch k (WatchChange nv) :: body) g).
        { intros st0. subst g1. unfold after, logOp, setStore; simpl.
          by rewrite <- !app_assoc. }
        destruct (lockActorLoop k mv ws g1) as [r g'| | |]; try done.
        -- destruct Hres as [-> Hr]. rewrite Hafter. split; [done|].
           intros Hn. destruct (Hr Hn) as [? Hl]. split; [done|].
           destruct body; [done|]. done.
        -- rewrite Hres, Hafter. done.
    + exists (<[k:=mv]> (store g)), [OpCreate k mv true], (w :: ws).
      split; [by repeat constructor|]. split.
      { intros k' ?. by rewrite lookup_insert_ne. }
      split; [done|]. intros _. by rewrite lookup_insert_eq.
Qed.

(** The deferred [unlockActor] when the caller holds the lock. *)
Lemma unlockActor_held id g :
  store g !! lockPath g id = Some (marshallRegVal (callerRegVal id)) →
  unlockActor id g =
    Done None (after (delete (lockPath g id) (store g))
                 [OpGet (lockPath g id) (Some (marshallRegVal (callerRegVal id)));
                  OpDelete (lockPath g id) true] g).
Proof.
  intros Hk. unfold unlockActor, bind at 1, get.
  unfold bind at 1, etcdGet. rewrite Hk.
  unfold unmarshallRegValOrFail. rewrite unmarshall_marshall.
  unfold bind at 1, ret at 1.
  assert (Heq : regValEq (callerRegVal id) (callerRegVal id) = true)
    by by apply regValEq_true.
  rewrite Heq. simpl. unfold bind, etcdDelete; simpl. rewrite Hk.
  unfold ret, after, logOp, setStore; simpl. by rewrite <- app_assoc.
Qed.

Lemma lockActor_acquired id g g1 :
  lockActor id g = Done None g1 →
  prefix g1 = prefix g ∧
  store g1 !! lockPath g id = Some (marshallRegVal (callerRegVal id)) ∧
  (∀ k, k ≠ lockPath g id → store g1 !! k = store g !! k) ∧
  ∃ body, ops g1 = (ops g ++ body)%list ∧
    Forall (λ op, opKey op = lockPath g id) body ∧
    last body = Some (OpCreate (lockPath g id)
                        (marshallRegVal (callerRegVal id)) true).
Proof.
  unfold lockActor. intros Hl.
  destruct (lockActorLoop_spec (lockPath g id)
              (marshallRegVal (callerRegVal id)) (watches g) g)
    as (st & body & ws' & Hb & Hst & Hres).
  rewrite Hl in Hres. destruct Hres as [-> Hr].
  destruct (Hr eq_refl) as [Hk Hlast].
  split; [done|]. split; [done|]. split; [done|]. by exists body.
Qed.

Lemma readAnswers_agree id ms st st' :
  (∀ dk, dk ∈ ms → st' !! regKey id dk = st !! regKey id dk) →
  readAnswers id ms st' = readAnswers id ms st.
Proof.
  intros Hag. unfold readAnswers. apply list_fmap_ext.
  intros i dk Hi. apply Hag. by eapply list_elem_of_lookup_2.
Qed.

(** [storeOrGet] when [lockActor] acquires the lock and no key of the set is
    stored under the lock's own path: the requests after the lock are on the
    keys of the set; a fatal exit leaves the store as it was after locking,
    a return leaves the created keys and deletes the lock key. *)
Lemma storeOrGet_acquired id ms g g1 :
  lockActor id g = Done None g1 →
  (∀ dk, dk ∈ ms → regKey id dk ≠ lockPath g id) →
  ∃ body, Forall (onKeysOf id ms) body ∧
    storeOrGet id ms g =
      match scan (callerRegVal id) (marshallRegVal (callerRegVal id)) false
              (readAnswers id (sortMapSet ms) (store g)) with
      | inl why => Fatal why (after (store g1) body g1)
      | inr (v, mv) =>
          Done v (after (delete (lockPath g id)
                           (created id (sortMapSet ms) mv (store g1)))
                    (body ++ [OpGet (lockPath g id)
                                (Some (marshallRegVal (callerRegVal id)));
                              OpDelete (lockPath g id) true])%list g1)
      end.
Proof.
  intros Hl Hcol.
  destruct (lockActor_acquired _ _ _ Hl) as (Hp & Hk & Hoff & _).
  assert (Hsort : ∀ op, onKeysOf id (sortMapSet ms) op → onKeysOf id ms op).
  { intros op (dk & Hin & ?). exists dk. by rewrite <- elem_of_sortMapSet. }
  unfold storeOrGet, bind at 1. rewrite Hl.
  destruct (readLoop_scan id (sortMapSet ms) (callerRegVal id)
              (marshallRegVal (callerRegVal id)) false g1)
    as (b1 & Hb1 & Hread).
  rewrite (readAnswers_agree _ _ (store g) (store g1)) in Hread.
  2:{ intros dk Hin. apply Hoff, Hcol. by rewrite <- elem_of_sortMapSet. }
  unfold bind at 1. rewrite Hread.
  destruct (scan _ _ _ _) as [why|[v mv]].
  { exists b1. split; [|done]. eapply Forall_impl; [done|]. apply Hsort. }
  destruct (createLoop_created id (sortMapSet ms) mv (after (store g1) b1 g1))
    as (b2 & Hb2 & Hcreate).
  unfold bind at 1. rewrite Hcreate.
  set (g3 := after _ b2 _).
  assert (Hlk : lockPath g3 id = lockPath g id).
  { unfold lockPath, path. subst g3; simpl. by rewrite Hp. }
  assert (Hheld : store g3 !! lockPath g3 id
                  = Some (marshallRegVal (callerRegVal id))).
  { rewrite Hlk. subst g3; simpl. rewrite created_lookup. by rewrite Hk. }
  unfold bind at 1. rewrite (unlockActor_held _ _ Hheld), Hlk.
  exists (b1 ++ b2)%list. split.
  { apply Forall_app. split; (eapply Forall_impl; [done|]; apply Hsort). }
  unfold ret. subst g3. rewrite !after_after. simpl.
  by rewrite <- app_assoc.
Qed.

(** *** The decision of the first loop *)

Lemma scan_all_equal v mv b rs :
  (∀ d, Some d ∈ rs → unmarshallRegVal d = Some v) →
  scan v mv b rs = inr (v, mv).
Proof.
  induction rs as [|[d|] rs IH]; intros Hall; simpl; [done|..].
  - rewrite (Hall d) by by left.
    assert (Heq : regValEq v v = true) by by apply regValEq_true.
    rewrite Heq. apply IH. intros d' ?. apply Hall. by right.
  - apply IH. intros d' ?. apply Hall. by right.
Qed.

Lemma scan_true_inr v mv rs v' mv' :
  scan v mv true rs = inr (v', mv') →
  v' = v ∧ mv' = mv ∧ ∀ d, Some d ∈ rs → unmarshallRegVal d = Some v.
Proof.
  induction rs as [|[d|] rs IH]; simpl.
  - intros [= <- <-]. split; [done|]. split; [done|].
    intros d Hin. by apply elem_of_nil in Hin.
  - destruct (unmarshallRegVal d) as [resV|] eqn:Hd; [|done].
    destruct (regValEq resV v) eqn:He; [|done].
    apply regValEq_true in He as ->.
    intros (-> & -> & Hall)%IH. split; [done|]. split; [done|].
    intros d' [[= ->]|Hin]%elem_of_cons; [done|by apply Hall].
  - intros (-> & -> & Hall)%IH. split; [done|]. split; [done|].
    intros d' [[=]|Hin]%elem_of_cons. by apply Hall.
Qed.

Lemma scan_false_inr v mv rs v' mv' :
  scan v mv false rs = inr (v', mv') →
  unmarshallRegVal mv = Some v →
  unmarshallRegVal mv' = Some v' ∧
  ∀ d w, Some d ∈ rs → unmarshallRegVal d = Some w → w ≠ v → w = v'.
Proof.
  induction rs as [|[d|] rs IH]; simpl.
  - intros [= <- <-] Hmv. split; [done|].
    intros d w Hin. by apply elem_of_nil in Hin.
  - destruct (unmarshallRegVal d) as [resV|] eqn:Hd; [|done].
    destruct (regValEq resV v) eqn:He.
    + apply regValEq_true in He as ->. intros Hs Hmv.
      destruct (IH Hs Hmv) as [? Hall]. split; [done|].
      intros d' w [[= ->]|Hin]%elem_of_cons Hd' Hne; [congruence|].
      by eapply Hall.
    + intros (-> & -> & Hall)%scan_true_inr _. split; [done|].
      intros d' w [[= ->]|Hin]%elem_of_cons Hd' Hne; [congruence|].
      rewrite (Hall d' Hin) in Hd'. congruence.
  - intros Hs Hmv. destruct (IH Hs Hmv) as [? Hall]. split; [done|].
    intros d' w [[=]|Hin]%elem_of_cons. by apply Hall.
Qed.

Lemma decoded_cons_None rs : decoded (None :: rs) = decoded rs.
Proof. done. Qed.

Lemma decoded_cons_Some d v rs :
  unmarshallRegVal d = Some v → decoded (Some d :: rs) = v :: decoded rs.
Proof. intros Hd. unfold decoded. cbn. by rewrite Hd. Qed.

Lemma scan_true_fatal v mv rs :
  (∀ d, Some d ∈ rs → is_Some (unmarshallRegVal d)) →
  scan v mv true rs = inl FatalInconsistencies ↔
  ∃ x, x ∈ decoded rs ∧ x ≠ v.
Proof.
  induction rs as [|[d|] rs IH]; intros Hdec; cbn [scan].
  - split; [done|]. intros (x & Hin & _). by apply elem_of_nil in Hin.
  - destruct (Hdec d) as [resV Hd]; [by left|].
    rewrite Hd, (decoded_cons_Some _ _ _ Hd).
    assert (Hdec' : ∀ d', Some d' ∈ rs → is_Some (unmarshallRegVal d')).
    { intros d' ?. apply Hdec. by right. }
    destruct (regValEq resV v) eqn:He.
    + apply regValEq_true in He as ->. rewrite (IH Hdec'). split.
      * intros (x & Hin & Hne). exists x. split; [by right|done].
      * intros (x & [->|Hin]%elem_of_cons & Hne); [done|by exists x].
    + apply regValEq_false in He. split; [|done].
      intros _. exists resV. split; [by left|done].
  - rewrite decoded_cons_None. apply IH. intros d' ?. apply Hdec. by right.
Qed.

Lemma scan_false_fatal v mv rs :
  (∀ d, Some d ∈ rs → is_Some (unmarshallRegVal d)) →
  scan v mv false rs = inl FatalInconsistencies ↔
  laterMismatch v (decoded rs).
Proof.
  unfold laterMismatch.
  induction rs as [|[d|] rs IH]; intros Hdec; cbn [scan].
  - split; [done|]. intros (pre & w & post & x & Hv & _). by destruct pre.
  - destruct (Hdec d) as [resV Hd]; [by left|].
    rewrite Hd, (decoded_cons_Some _ _ _ Hd).
    assert (Hdec' : ∀ d', Some d' ∈ rs → is_Some (unmarshallRegVal d')).
    { intros d' ?. apply Hdec. by right. }
    destruct (regValEq resV v) eqn:He.
    + apply regValEq_true in He as ->. rewrite (IH Hdec'). split.
      * intros (pre & w & post & x & -> & Hpre & Hw & Hx & Hxw).
        exists (v :: pre), w, post, x. repeat split; try done.
        by constructor.
      * intros (pre & w & post & x & Hv & Hpre & Hw & Hx & Hxw).
        destruct pre as [|p pre]; simpl in Hv.
        { injection Hv as -> _. done. }
        injection Hv as -> Hv. apply Forall_cons in Hpre as [_ Hpre].
        by exists pre, w, post, x.
    + apply regValEq_false in He. rewrite (scan_true_fatal _ _ _ Hdec').
      split.
      * intros (x & Hin & Hne). exists [], resV, (decoded rs), x. by repeat split.
      * intros (pre & w & post & x & Hv & Hpre & Hw & Hx & Hxw).
        destruct pre as [|p pre]; simpl in Hv.
        { injection Hv as -> ->. by exists x. }
        injection Hv as -> Hv. apply Forall_cons in Hpre as [? _]. done.
  - rewrite decoded_cons_None. apply IH. intros d' ?. apply Hdec. by right.
Qed.

Lemma twoDistinctForeign_laterMismatch c vals :
  twoDistinctForeign c vals → laterMismatch c vals.
Proof.
  intros (x & y & Hx & Hy & Hxc & Hyc & Hxy).
  induction vals as [|a vals IH]; [by apply elem_of_nil in Hx|].
  destruct (decide (a = c)) as [->|Hac].
  - apply elem_of_cons in Hx as [->|Hx]; [done|].
    apply elem_of_cons in Hy as [->|Hy]; [done|].
    destruct (IH Hx Hy) as (pre & w & post & z & -> & Hpre & ? & ? & ?).
    exists (c :: pre), w, post, z. repeat split; try done. by constructor.
  - exists [], a, vals.
    destruct (decide (x = a)) as [->|Hxa].
    + exists y. repeat split; try done.
      apply elem_of_cons in Hy as [->|Hy]; done.
    + exists x. repeat split; try done.
      apply elem_of_cons in Hx as [->|Hx]; done.
Qed.

Lemma elem_of_readAnswers id ms st d :
  Some d ∈ readAnswers id ms st ↔ ∃ dk, dk ∈ ms ∧ st !! regKey id dk = Some d.
Proof.
  unfold readAnswers. rewrite list_elem_of_fmap. split.
  - intros (dk & ? & ?). by exists dk.
  - intros (dk & ? & ?). by exists dk.
Qed.

Lemma elem_of_readAnswers_sorted id ms st d :
  Some d ∈ readAnswers id (sortMapSet ms) st ↔
  ∃ dk, dk ∈ ms ∧ st !! regKey id dk = Some d.
Proof.
  rewrite elem_of_readAnswers. split; intros (dk & Hin & ?); exists dk.
  - by rewrite <- elem_of_sortMapSet.
  - by rewrite elem_of_sortMapSet.
Qed.

(** *** The result of [storeOrGet] *)

Lemma decoded_Forall v rs :
  (∀ d, Some d ∈ rs → is_Some (unmarshallRegVal d)) →
  Forall (λ y, y = v) (decoded rs) ↔
  ∀ d, Some d ∈ rs → unmarshallRegVal d = Some v.
Proof.
  induction rs as [|[d|] rs IH]; intros Hdec.
  - split; [|by constructor]. intros _ d Hin. by apply elem_of_nil in Hin.
  - destruct (Hdec d) as [x Hd]; [by left|].
    rewrite (decoded_cons_Some _ _ _ Hd), Forall_cons, IH
      by (intros d' ?; apply Hdec; by right).
    split.
    + intros [-> Hall] d' [[= ->]|Hin]%elem_of_cons; [done|by apply Hall].
    + intros Hall. split.
      * specialize (Hall d (list_elem_of_here _ _)). congruence.
      * intros d' ?. apply Hall. by right.
  - rewrite decoded_cons_None, IH by (intros d' ?; apply Hdec; by right).
    split.
    + intros Hall d' [[=]|Hin]%elem_of_cons. by apply Hall.
    + intros Hall d' ?. apply Hall. by right.
Qed.

Lemma scan_true_result v mv rs w :
  (∀ d, Some d ∈ rs → is_Some (unmarshallRegVal d)) →
  (∃ mv', scan v mv true rs = inr (w, mv')) ↔
  w = v ∧ Forall (λ y, y = v) (decoded rs).
Proof.
  intros Hdec. rewrite (decoded_Forall v rs Hdec). split.
  - intros (mv' & (-> & _ & Hall)%scan_true_inr). done.
  - intros [-> Hall]. exists mv. by apply scan_all_equal.
Qed.

Lemma settles_cons_caller c vals w :
  settles c (c :: vals) w ↔ settles c vals w.
Proof.
  unfold settles. split.
  - intros [[-> Hall]|(Hne & pre & post & Hv & Hpre & Hpost)].
    + left. split; [done|]. by apply Forall_cons in Hall as [_ ?].
    + right. split; [done|]. destruct pre as [|p pre]; simpl in Hv.
      { injection Hv as -> _. done. }
      injection Hv as <- ->. apply Forall_cons in Hpre as [_ Hpre].
      by exists pre, post.
  - intros [[-> Hall]|(Hne & pre & post & -> & Hpre & Hpost)].
    + left. split; [done|]. by constructor.
    + right. split; [done|]. exists (c :: pre), post.
      split; [done|]. split; [by constructor|done].
Qed.

Lemma settles_cons_foreign c x vals w :
  x ≠ c →
  settles c (x :: vals) w ↔ w = x ∧ Forall (λ y, y = x) vals.
Proof.
  intros Hx. unfold settles. split.
  - intros [[-> Hall]|(Hne & pre & post & Hv & Hpre & Hpost)].
    + by apply Forall_cons in Hall as [? _].
    + destruct pre as [|p pre]; simpl in Hv.
      * by injection Hv as -> ->.
      * injection Hv as <- _. by apply Forall_cons in Hpre as [? _].
  - intros [-> Hall]. right. split; [done|]. by exists [], vals.
Qed.

Lemma scan_false_result c mv rs w :
  (∀ d, Some d ∈ rs → is_Some (unmarshallRegVal d)) →
  (∃ mv', scan c mv false rs = inr (w, mv')) ↔ settles c (decoded rs) w.
Proof.
  induction rs as [|[d|] rs IH]; intros Hdec; cbn [scan].
  - unfold settles. split.
    + intros (mv' & [= <- _]). left. split; [done|constructor].
    + intros [[-> _]|(_ & pre & post & Hv & _)]; [by exists mv|].
      by destruct pre.
  - destruct (Hdec d) as [resV Hd]; [by left|].
    rewrite Hd, (decoded_cons_Some _ _ _ Hd).
    assert (Hdec' : ∀ d', Some d' ∈ rs → is_Some (unmarshallRegVal d')).
    { intros d' ?. apply Hdec. by right. }
    destruct (regValEq resV c) eqn:He.
    + apply regValEq_true in He as ->.
      by rewrite settles_cons_caller, (IH Hdec').
    + apply regValEq_false in He.
      by rewrite (settles_cons_foreign _ _ _ _ He), (scan_true_result _ _ _ _ Hdec').
  - rewrite decoded_cons_None. apply IH. intros d' ?. apply Hdec. by right.
Qed.

(** C1 (amended).  When the actor lock is acquired (and no key of the set
    is stored under the lock's own path): if no key of [ms] holds a value
    different from the caller's record, [storeOrGet] returns the caller's
    record; it returns a record [w] exactly when the existing keys, read in
    sorted order, settle on [w]: every record is the caller's and [w] is the
    caller's, or the first record that differs from the caller's is [w] and
    every record read after it is [w] again; and whenever it returns [v],
    every foreign record held by a key of [ms] is [v], every key of [ms]
    that was absent holds [v] afterwards, and every key of [ms] that
    existed keeps its value. *)
Theorem storeOrGet_result id ms g g1 :
  lockActor id g = Done None g1 →
  (∀ dk, dk ∈ ms → regKey id dk ≠ lockPath g id) →
  let c := callerRegVal id in
  ((∀ dk d, dk ∈ ms → store g !! regKey id dk = Some d →
            unmarshallRegVal d = Some c) →
   ∃ g', storeOrGet id ms g = Done c g') ∧
  ((∀ dk d, dk ∈ ms → store g !! regKey id dk = Some d →
            is_Some (unmarshallRegVal d)) →
   ∀ w, (∃ g', storeOrGet id ms g = Done w g') ↔
        settles c (existingVals id ms (store g)) w) ∧
  (∀ v g', storeOrGet id ms g = Done v g' →
     (∀ dk w, dk ∈ ms → holds (store g) id dk w → w ≠ c → v = w) ∧
     (∀ dk, dk ∈ ms → store g !! regKey id dk = None →
            holds (store g') id dk v) ∧
     (∀ dk d, dk ∈ ms → store g !! regKey id dk = Some d →
              store g' !! regKey id dk = Some d)).
Proof.
  intros Hl Hcol c.
  destruct (storeOrGet_acquired _ _ _ _ Hl Hcol) as (body & _ & Hsg).
  destruct (lockActor_acquired _ _ _ Hl) as (_ & _ & Hoff & _).
  split; [|split].
  - intros Hall. rewrite Hsg, scan_all_equal; [by eexists|].
    intros d (dk & Hin & Hd)%elem_of_readAnswers_sorted. by eapply Hall.
  - intros Hdec w. unfold existingVals.
    rewrite <- (scan_false_result c (marshallRegVal c)).
    2:{ intros d (dk & Hin & Hd)%elem_of_readAnswers_sorted. by eapply Hdec. }
    rewrite Hsg. fold c. destruct (scan _ _ _ _) as [why|[v mv]]; split.
    + by intros [g' ?].
    + by intros [mv' ?].
    + intros [g' [= -> _]]. by exists mv.
    + intros [mv' [= -> _]]. by eexists.
  - intros v g' Hdone. rewrite Hsg in Hdone.
    destruct (scan _ _ _ _) as [why|[v' mv']] eqn:Hscan; [done|].
    injection Hdone as -> <-.
    destruct (scan_false_inr _ _ _ _ _ Hscan (unmarshall_marshall _))
      as [Hmv Hfor].
    split; [|split].
    + intros dk w Hin (d & Hd & Hw) Hne. symmetry.
      eapply Hfor; [|done..]. apply elem_of_readAnswers_sorted. by exists dk.
    + intros dk Hin Hnone. exists mv'. split; [|done]. simpl.
      rewrite lookup_delete_ne by (intros Heq; by eapply Hcol).
      rewrite created_lookup, Hoff, Hnone by by apply Hcol.
      rewrite decide_True; [done|].
      apply list_elem_of_fmap. exists dk. by rewrite elem_of_sortMapSet.
    + intros dk d Hin Hd. simpl.
      rewrite lookup_delete_ne by (intros Heq; by eapply Hcol).
      rewrite created_lookup, Hoff, Hd by by apply Hcol. done.
Qed.

(** C2 (as the code has it).  With the lock acquired and every stored
    value of [ms] decodable, [storeOrGet] takes the inconsistency exit
    exactly when, in the order the keys are read, some existing key after
    the first one holding a record [w] different from the caller's holds a
    record different from [w] (the caller's own included); two distinct
    foreign records always take it. *)
Theorem storeOrGet_fatal_iff id ms g g1 :
  lockActor id g = Done None g1 →
  (∀ dk, dk ∈ ms → regKey id dk ≠ lockPath g id) →
  (∀ dk d, dk ∈ ms → store g !! regKey id dk = Some d →
           is_Some (unmarshallRegVal d)) →
  (isFatalWith FatalInconsistencies (storeOrGet id ms g) ↔
   laterMismatch (callerRegVal id) (existingVals id ms (store g))) ∧
  (twoDistinctForeign (callerRegVal id) (existingVals id ms (store g)) →
   isFatalWith FatalInconsistencies (storeOrGet id ms g)).
Proof.
  intros Hl Hcol Hdec.
  destruct (storeOrGet_acquired _ _ _ _ Hl Hcol) as (body & _ & Hsg).
  assert (Hdec' : ∀ d, Some d ∈ readAnswers id (sortMapSet ms) (store g) →
                       is_Some (unmarshallRegVal d)).
  { intros d (dk & Hin & Hd)%elem_of_readAnswers_sorted. by eapply Hdec. }
  assert (Hiff : isFatalWith FatalInconsistencies (storeOrGet id ms g) ↔
                 laterMismatch (callerRegVal id) (existingVals id ms (store g))).
  { unfold existingVals.
    rewrite <- (scan_false_fatal _ (marshallRegVal (callerRegVal id)) _ Hdec').
    rewrite Hsg. unfold isFatalWith.
    destruct (scan _ _ _ _) as [why|[v mv]]; split.
    - intros [s [= -> _]]. done.
    - intros [= ->]. by eexists.
    - intros [s ?]. done.
    - done. }
  split; [done|]. intros Htwo. apply Hiff.
  by apply twoDistinctForeign_laterMismatch.
Qed.

(** C6 (as the code has it).  [storeOrGet] runs [lockActor] before any
    other request.  When the lock is acquired, the requests that follow are
    on the keys of [ms] only, so the lock key holds the caller's record
    while they are read and created; on return the deferred [unlockActor]
    has deleted the lock key; on a fatal exit the process ends with the
    lock key still holding the caller's record. *)
Theorem storeOrGet_lock_discipline id ms g g1 :
  lockActor id g = Done None g1 →
  (∀ dk, dk ∈ ms → regKey id dk ≠ lockPath g id) →
  let lk := lockPath g id in
  let mvc := marshallRegVal (callerRegVal id) in
  (∃ lockOps, ops g1 = (ops g ++ lockOps)%list ∧
              Forall (λ op, opKey op = lk) lockOps ∧
              last lockOps = Some (OpCreate lk mvc true)) ∧
  store g1 !! lk = Some mvc ∧
  ∃ body, Forall (λ op, onKeysOf id ms op ∧ opKey op ≠ lk) body ∧
    match storeOrGet id ms g with
    | Done v g' =>
        ops g' = (ops g1 ++ body ++ [OpGet lk (Some mvc); OpDelete lk true])%list ∧
        store g' !! lk = None
    | Fatal why g' =>
        ops g' = (ops g1 ++ body)%list ∧ store g' !! lk = Some mvc
    | _ => False
    end.
Proof.
  intros Hl Hcol lk mvc.
  destruct (storeOrGet_acquired _ _ _ _ Hl Hcol) as (body & Hbody & Hsg).
  destruct (lockActor_acquired _ _ _ Hl) as (_ & Hk & _ & Hops).
  split; [done|]. split; [done|]. exists body. split.
  { eapply Forall_impl; [done|]. intros op Hop. split; [done|].
    destruct Hop as (dk & Hin & ->). by apply Hcol. }
  rewrite Hsg. destruct (scan _ _ _ _) as [why|[v mv]]; simpl.
  - done.
  - split; [done|]. by rewrite lookup_delete_eq.
Qed.

End RegisteryFacts.

(** *** The claims on the sample registries *)

Section RegisterySamples.
Import Sample.

Lemma ms0_no_collision g :
  prefix g = "/theatre" →
  ∀ dk, dk ∈ ms0 → regKey id0 dk ≠ lockPath g id0.
Proof.
  intros Hp dk Hin. unfold lockPath, path. rewrite Hp.
  unfold ms0 in Hin.
  apply elem_of_cons in Hin as [->|Hin]; [by vm_compute|].
  apply elem_of_cons in Hin as [->|Hin]; [by vm_compute|].
  by apply elem_of_nil in Hin.
Qed.

Lemma gCF_decodable dk d :
  dk ∈ ms0 → store gCF !! regKey id0 dk = Some d →
  is_Some (unmarshallRegVal d).
Proof.
  intros Hin. unfold ms0 in Hin.
  apply elem_of_cons in Hin as [->|Hin].
  { vm_compute. intros [= <-]. by eexists. }
  apply elem_of_cons in Hin as [->|Hin].
  { vm_compute. intros [= <-]. by eexists. }
  by apply elem_of_nil in Hin.
Qed.

Lemma storeOrGet_result_witness :
  ∃ g', storeOrGet id0 ms0 gCF = Done foreign0 g'.
Proof.
  refine (proj2 (proj1 (proj2 (storeOrGet_result id0 ms0 gCF
            (finalState (lockActor id0 gCF)) _ _)) _ foreign0) _).
  - by vm_compute.
  - by apply ms0_no_collision.
  - apply gCF_decodable.
  - right. split; [done|]. exists [caller0], [].
    split; [by vm_compute|]. split; [by repeat constructor|constructor].
Defined.

(** C1, counterexample.  Key a holds a foreign record and key b the
    caller's: a key of the set holds a foreign record, and yet the call does
    not return it; it takes the inconsistency exit. *)
Lemma storeOrGet_foreign_not_returned :
  lockActor id0 gFC = Done None (finalState (lockActor id0 gFC)) ∧
  keyA ∈ ms0 ∧ holds (store gFC) id0 keyA foreign0 ∧ foreign0 ≠ caller0 ∧
  isDone (storeOrGet id0 ms0 gFC) = false ∧
  isFatalWith FatalInconsistencies (storeOrGet id0 ms0 gFC).
Proof.
  split; [by vm_compute|]. split; [by right; left|]. split.
  { exists (Json.printRegVal foreign0). split; by vm_compute. }
  split; [done|]. split; [by vm_compute|]. eexists. by vm_compute.
Qed.

Lemma gFC_decodable dk d :
  dk ∈ ms0 → store gFC !! regKey id0 dk = Some d →
  is_Some (unmarshallRegVal d).
Proof.
  intros Hin. unfold ms0 in Hin.
  apply elem_of_cons in Hin as [->|Hin].
  { vm_compute. intros [= <-]. by eexists. }
  apply elem_of_cons in Hin as [->|Hin].
  { vm_compute. intros [= <-]. by eexists. }
  by apply elem_of_nil in Hin.
Qed.

Lemma storeOrGet_fatal_iff_witness :
  isFatalWith FatalInconsistencies (storeOrGet id0 ms0 gFC) ↔
  laterMismatch caller0 (existingVals id0 ms0 (store gFC)).
Proof.
  refine (proj1 (storeOrGet_fatal_iff id0 ms0 gFC
            (finalState (lockActor id0 gFC)) _ _ _)).
  - by vm_compute.
  - by apply ms0_no_collision.
  - apply gFC_decodable.
Defined.

(** C2, counterexample.  Key a holds one foreign record and key b the
    caller's own: the existing keys hold the caller's record or one single
    foreign record, there are no two distinct foreign records, and the call
    takes the inconsistency exit. *)
Lemma storeOrGet_fatal_single_foreign :
  existingVals id0 ms0 (store gFC) = [foreign0; caller0] ∧
  ¬ twoDistinctForeign caller0 (existingVals id0 ms0 (store gFC)) ∧
  isFatalWith FatalInconsistencies (storeOrGet id0 ms0 gFC).
Proof.
  assert (Hv : existingVals id0 ms0 (store gFC) = [foreign0; caller0])
    by by vm_compute.
  split; [done|]. split.
  - rewrite Hv. intros (x & y & Hx & Hy & Hxc & Hyc & Hxy).
    apply elem_of_cons in Hx as [->|Hx].
    + apply elem_of_cons in Hy as [->|Hy]; [done|].
      apply elem_of_cons in Hy as [->|Hy]; [done|].
      by apply elem_of_nil in Hy.
    + apply elem_of_cons in Hx as [->|Hx]; [done|].
      by apply elem_of_nil in Hx.
  - eexists. by vm_compute.
Qed.

Lemma storeOrGet_lock_discipline_witness :
  match storeOrGet id0 ms0 gF with
  | Done v g' => store g' !! lockPath gF id0 = None
  | _ => False
  end.
Proof.
  destruct (storeOrGet_lock_discipline id0 ms0 gF
              (finalState (lockActor id0 gF)))
    as (_ & _ & body & _ & Hres).
  - by vm_compute.
  - by apply ms0_no_collision.
  - destruct (storeOrGet id0 ms0 gF) eqn:E; try done.
    + by destruct Hres.
Defined.

(** C6, counterexample.  On the inconsistency exit the deferred
    [unlockActor] has not run: no request deletes the lock key and the
    store still holds the caller's lock. *)
Lemma storeOrGet_fatal_keeps_lock :
  match storeOrGet id0 ms0 gFC with
  | Fatal why g' =>
      why = FatalInconsistencies ∧
      store g' !! lockPath gFC id0 = Some (marshallRegVal caller0) ∧
      OpDelete (lockPath gFC id0) true ∉ ops g'
  | _ => False
  end.
Proof.
  vm_compute. split; [done|]. split; [done|].
  intros Hin. repeat (apply elem_of_cons in Hin as [[=]|Hin]).
  by apply elem_of_nil in Hin.
Qed.

(** When [lockActor] reports an error, [storeOrGet] goes on without the
    lock: it reads and creates the keys while the lock is held by another
    receiver. *)
Example storeOrGet_lock_error_goes_on :
  lockActor id0 gLocked =
    Done (Some ErrWatchFailed) (finalState (lockActor id0 gLocked)) ∧
  match storeOrGet id0 ms0 gLocked with
  | Done v g' =>
      v = caller0 ∧
      store g' !! lockPath gLocked id0 = Some (Json.printRegVal foreign0) ∧
      store g' !! regKey id0 keyA = Some (Json.printRegVal caller0)
  | _ => False
  end.
Proof. by vm_compute. Qed.

End RegisterySamples.

(** ** Facts about the mapper *)

Section MapperFacts.
Context `{RegValCodec}.

Lemma storeOrGet_not_panicked id ms g :
  match storeOrGet id ms g with Panicked _ => False | _ => True end.
Proof.
  unfold storeOrGet, bind at 1, lockActor.
  destruct (lockActorLoop_spec (lockPath g id)
              (marshallRegVal (callerRegVal id)) (watches g) g)
    as (st & body & ws' & _ & _ & Hres).
  destruct (lockActorLoop _ _ _ _) as [r g1|why g1|g1|g1]; try done.
  clear Hres.
  destruct (readLoop_scan id (sortMapSet ms) (callerRegVal id)
              (marshallRegVal (callerRegVal id)) false g1)
    as (b1 & _ & Hread).
  unfold bind at 1. rewrite Hread.
  destruct (scan _ _ _ _) as [why|[v mv]]; [done|].
  destruct (createLoop_created id (sortMapSet ms) mv (after (store g1) b1 g1))
    as (b2 & _ & Hcreate).
  unfold bind at 1. rewrite Hcreate.
  unfold bind at 1, unlockActor, bind at 1, get, bind at 1, etcdGet.
  destruct (store _ !! _) as [d|]; [|done].
  unfold unmarshallRegValOrFail.
  destruct (unmarshallRegVal d) as [tempV|]; [|done].
  unfold bind at 1, ret at 1.
  destruct (negb _); [done|].
  unfold bind at 1, etcdDelete. by destruct (store _ !! _).
Qed.

Lemma onRegistery_frame {A} (c : M registery A) m :
  sameButReg m (finalState (onRegistery c m)).
Proof. unfold onRegistery. by destruct (c (reg m)). Qed.

Lemma lockKey_eq dk r m :
  lockKey dk r m =
    let m1 := setKeyToRcvrs (<[dk := r]> (keyToRcvrs m)) m in
    if isIsol m then Done true m1
    else match heap m !! r with
         | None => Panicked m1
         | Some ob =>
             match storeOrGet (rId ob) [dk] (reg m) with
             | Done _ g => Done true (setReg g m1)
             | Fatal why g => Fatal why (setReg g m1)
             | Blocked g => Blocked (setReg g m1)
             | Panicked g => Panicked (setReg g m1)
             end
         end.
Proof.
  unfold lockKey, bind, setReceiver, modify, get, idOf, onRegistery, ret; simpl.
  destruct (isIsol m); [reflexivity|]. simpl.
  destruct (heap m !! r) as [ob|]; [|reflexivity]. simpl.
  destruct (storeOrGet (rId ob) [dk] (reg m)); reflexivity.
Qed.

Lemma lockKey_spec dk r m :
  let o := lockKey dk r m in
  keyToRcvrs (finalState o) = <[dk := r]> (keyToRcvrs m) ∧
  heap (finalState o) = heap m ∧ effects (finalState o) = effects m ∧
  isIsol (finalState o) = isIsol m ∧ idToRcvrs (finalState o) = idToRcvrs m ∧
  lastRId (finalState o) = lastRId m ∧
  (isIsol m = true → isDone o = true) ∧
  match o with
  | Panicked _ => isIsol m = false ∧ heap m !! r = None
  | Blocked _ => isIsol m = false
  | _ => True
  end.
Proof.
  rewrite lockKey_eq. cbv zeta.
  destruct (isIsol m) eqn:Hi; [done|].
  destruct (heap m !! r) as [ob|] eqn:Hr; [|done].
  pose proof (storeOrGet_not_panicked (rId ob) [dk] (reg m)) as Hnp.
  by destruct (storeOrGet (rId ob) [dk] (reg m)).
Qed.

Lemma syncReceivers_cons dk ms r m :
  syncReceivers (dk :: ms) r m =
    match keyToRcvrs m !! dk with
    | None =>
        match lockKey dk r m with
        | Done _ m1 => syncReceivers ms r m1
        | Fatal why s => Fatal why s
        | Blocked s => Blocked s
        | Panicked s => Panicked s
        end
    | Some r' =>
        if decide (r' = r) then syncReceivers ms r m
        else Fatal FatalInconsistentShards m
    end.
Proof.
  unfold syncReceivers at 1. cbn [forRange].
  unfold bind at 1, bind at 1, receiverByKey.
  destruct (keyToRcvrs m !! dk) as [r'|].
  - by destruct (decide (r' = r)).
  - unfold bind at 1. by destruct (lockKey dk r m).
Qed.

(** [syncReceivers]: when it returns, every key of the set is bound to
    [rcvr] and every key of the set was unbound or bound to [rcvr] before;
    the bindings there were and the effects are as before. *)
Lemma syncReceivers_spec ms r m :
  match syncReceivers ms r m with
  | Done _ m' =>
      (∀ k, k ∈ ms → keyToRcvrs m' !! k = Some r) ∧
      (∀ k, k ∈ ms → keyToRcvrs m !! k = None ∨ keyToRcvrs m !! k = Some r) ∧
      (∀ k r', keyToRcvrs m !! k = Some r' → keyToRcvrs m' !! k = Some r') ∧
      effects m' = effects m
  | Fatal why _ => isIsol m = true → why = FatalInconsistentShards
  | Blocked _ => isIsol m = false
  | Panicked _ => isIsol m = false ∧ heap m !! r = None
  end.
Proof.
  revert m. induction ms as [|dk ms IH]; intros m.
  { simpl. split; [|split; [|done]]; intros k Hk; by apply elem_of_nil in Hk. }
  rewrite syncReceivers_cons.
  destruct (keyToRcvrs m !! dk) as [r'|] eqn:Hdk.
  - destruct (decide (r' = r)) as [->|Hne]; [|done].
    specialize (IH m). destruct (syncReceivers ms r m); try done.
    destruct IH as (Hall & Hbefore & Hkeep & Heff).
    split; [|split; [|done]].
    + intros k [->|Hk]%elem_of_cons; [by apply Hkeep|by apply Hall].
    + intros k [->|Hk]%elem_of_cons; [by right|by apply Hbefore].
  - pose proof (lockKey_spec dk r m) as (Hk1 & Hh1 & He1 & Hi1 & _ & _ & Hd & Hout).
    cbv zeta in *. destruct (lockKey dk r m) as [b m1|why m1|m1|m1];
      simpl in *; try done.
    2:{ intros Hi. by specialize (Hd Hi). }
    specialize (IH m1). destruct (syncReceivers ms r m1); try done.
    + destruct IH as (Hall & Hbefore & Hkeep & Heff).
      assert (Hdk1 : keyToRcvrs m1 !! dk = Some r)
        by by rewrite Hk1, lookup_insert_eq.
      split; [|split; [|split]].
      * intros k [->|Hk]%elem_of_cons; [by apply Hkeep|by apply Hall].
      * intros k [->|Hk]%elem_of_cons; [by left|].
        destruct (decide (k = dk)) as [->|Hne]; [by left|].
        specialize (Hbefore k Hk). by rewrite Hk1, lookup_insert_ne in Hbefore.
      * intros k r' Hk. apply Hkeep. rewrite Hk1.
        rewrite lookup_insert_ne; [done|]. intros ->. congruence.
      * congruence.
    + intros Hi. apply IH. congruence.
    + congruence.
    + destruct IH as [? ?]. split; congruence.
Qed.

(** In isolated mode [syncReceivers] returns when no key of the set is
    bound to another receiver. *)
Lemma syncReceivers_isol ms r m :
  isIsol m = true →
  (∀ k, k ∈ ms → keyToRcvrs m !! k = None ∨ keyToRcvrs m !! k = Some r) →
  isDone (syncReceivers ms r m) = true.
Proof.
  revert m. induction ms as [|dk ms IH]; intros m Hi Hfree; [done|].
  rewrite syncReceivers_cons.
  destruct (Hfree dk) as [Hdk|Hdk]; [by left|..]; rewrite Hdk.
  - pose proof (lockKey_spec dk r m) as (Hk1 & _ & _ & Hi1 & _ & _ & Hd & _).
    cbv zeta in *. specialize (Hd Hi).
    destruct (lockKey dk r m) as [b m1|why m1|m1|m1]; simpl in *; try done.
    apply IH; [congruence|].
    intros k Hk. rewrite Hk1.
    destruct (decide (k = dk)) as [->|Hne].
    + right. by rewrite lookup_insert_eq.
    + rewrite lookup_insert_ne by done. apply Hfree. by right.
  - rewrite decide_True by done. apply IH; [done|].
    intros k Hk. apply Hfree. by right.
Qed.

Lemma anyReceiver_spec ms m :
  ∃ o, anyReceiver ms m = Done o m ∧
    match o with
    | Some r => ∃ k, k ∈ ms ∧ keyToRcvrs m !! k = Some r
    | None => ∀ k, k ∈ ms → keyToRcvrs m !! k = None
    end.
Proof.
  induction ms as [|dk ms (o & Ho & Hspec)]; simpl.
  { exists None. split; [done|]. intros k Hk. by apply elem_of_nil in Hk. }
  unfold bind, receiverByKey.
  destruct (keyToRcvrs m !! dk) as [r|] eqn:Hdk.
  - exists (Some r). split; [done|]. exists dk. split; [by left|done].
  - exists o. split; [done|]. destruct o as [r|].
    + destruct Hspec as (k & Hk & ?). exists k. split; [by right|done].
    + intros k [->|Hk]%elem_of_cons; [done|by apply Hspec].
Qed.

(** The last loop of [newReceiverForMapSet] and of [migrate]. *)
Lemma bindAll_spec ms r m :
  ∃ kr, forRange ms (λ dictKey, setReceiver dictKey r) m
          = Done tt (setKeyToRcvrs kr m) ∧
    (∀ k, k ∈ ms → kr !! k = Some r) ∧
    (∀ k, k ∉ ms → kr !! k = keyToRcvrs m !! k).
Proof.
  revert m. induction ms as [|dk ms IH]; intros m.
  { exists (keyToRcvrs m). split; [by destruct m|].
    split; [|done]. intros k Hk. by apply elem_of_nil in Hk. }
  cbn [forRange]. unfold bind at 1, setReceiver at 1, modify.
  destruct (IH (setKeyToRcvrs (<[dk:=r]> (keyToRcvrs m)) m))
    as (kr & -> & Hin & Hout).
  exists kr. split; [done|]. split.
  - intros k [->|Hk]%elem_of_cons; [|by apply Hin].
    destruct (decide (dk ∈ ms)) as [?|Hn]; [by apply Hin|].
    rewrite (Hout dk Hn). simpl. by rewrite lookup_insert_eq.
  - intros k Hk. apply not_elem_of_cons in Hk as [Hne Hk].
    rewrite (Hout k Hk). simpl. by rewrite lookup_insert_ne.
Qed.

Lemma lock_eq ms force m :
  lock ms force m =
    let m1 := setLastRId (incr32 (lastRId m)) m in
    let id := mkReceiverId (stageId m) (actorName m) (incr32 (lastRId m)) in
    if isIsol m then Done id m1
    else
      match (if force then set id ms else storeOrGet id ms) (reg m) with
      | Done v g =>
          if bool_decide (rv_StageId v = stageId m) &&
             bool_decide (rv_RcvrId v = incr32 (lastRId m))
          then Done id (setReg g m1)
          else Done (mkReceiverId (rv_StageId v) (actorName m) (rv_RcvrId v))
                    (setLastRId (decr32 (incr32 (lastRId m))) (setReg g m1))
      | Fatal why g => Fatal why (setReg g m1)
      | Blocked g => Blocked (setReg g m1)
      | Panicked g => Panicked (setReg g m1)
      end.
Proof.
  unfold lock, nextRcvrId, bind, modify, get, ret, onRegistery; simpl.
  destruct (isIsol m); [reflexivity|]. simpl.
  set (id := mkReceiverId (stageId m) (actorName m) (incr32 (lastRId m))).
  destruct force.
  - destruct (set id ms (reg m)) as [v g|why g|g|g]; try reflexivity.
    simpl. by destruct (_ && _).
  - destruct (storeOrGet id ms (reg m)) as [v g|why g|g|g]; try reflexivity.
    simpl. by destruct (_ && _).
Qed.

Lemma decr32_incr32 n : (n < 2 ^ 32)%N → decr32 (incr32 n) = n.
Proof.
  intros Hn. unfold decr32, incr32, u32.
  assert (Hz : (0 ≤ Z.of_N n < 2 ^ 32)%Z) by lia.
  rewrite Z2N.id by (apply Z.mod_pos_bound; lia).
  destruct (decide (Z.of_N n + 1 = 2 ^ 32)%Z) as [He|Hne].
  - rewrite He, Z.mod_same by lia. simpl.
    replace n with (Z.to_N (2 ^ 32 - 1)) by lia. done.
  - rewrite (Z.mod_small (Z.of_N n + 1)) by lia.
    rewrite Z.mod_small by lia. lia.
Qed.

Lemma incr32_small n : (n + 1 < 2 ^ 32)%N → incr32 n = (n + 1)%N.
Proof.
  intros Hn. unfold incr32, u32. rewrite Z.mod_small by lia. lia.
Qed.

(** C4.  Below the end of the [uint32] range, [lock] in isolated mode
    returns the fresh local ID and leaves [lastRId] one larger; with a
    registry that returns the tentative ID it does the same; with a registry
    that returns another record it returns an ID carrying that record's
    StageId and RcvrId and leaves [lastRId] (and all but the registry) as
    before the call. *)
Theorem lock_spec (ms : MapSet) (force : bool) (m : mapper) :
  (lastRId m + 1 < 2 ^ 32)%N →
  let fresh := mkReceiverId (stageId m) (actorName m) (lastRId m + 1) in
  let call := if force then set fresh ms else storeOrGet fresh ms in
  (isIsol m = true →
   lock ms force m = Done fresh (setLastRId (lastRId m + 1) m)) ∧
  (∀ v g, isIsol m = false → call (reg m) = Done v g →
     if decide (v = callerRegVal fresh)
     then lock ms force m
          = Done fresh (setReg g (setLastRId (lastRId m + 1) m))
     else lock ms force m
          = Done (mkReceiverId (rv_StageId v) (actorName m) (rv_RcvrId v))
                 (setReg g m)).
Proof.
  intros Hn fresh call. rewrite lock_eq. cbv zeta.
  rewrite (incr32_small _ Hn). fold fresh. split.
  - by intros ->.
  - intros v g -> Hcall. subst call. rewrite Hcall.
    destruct (decide (v = callerRegVal fresh)) as [->|Hne].
    + simpl. by rewrite !bool_decide_eq_true_2.
    + assert (Hb : bool_decide (rv_StageId v = stageId m) &&
                   bool_decide (rv_RcvrId v = (lastRId m + 1)%N) = false).
      { apply not_true_is_false. intros [?%bool_decide_eq_true
          ?%bool_decide_eq_true]%andb_true_iff.
        apply Hne. destruct v; simpl in *. by subst. }
      rewrite Hb. rewrite <- (incr32_small _ Hn), decr32_incr32 by lia.
      by destruct m.
Qed.



Lemma newReceiverForMapSet_eq ms m :
  newReceiverForMapSet ms m =
    match lock ms false m with
    | Done id m1 =>
        match findOrCreateReceiver id m1 with
        | Done r m2 =>
            match forRange ms (λ dictKey, setReceiver dictKey r) m2 with
            | Done _ m3 => Done r m3
            | Fatal why s => Fatal why s
            | Blocked s => Blocked s
            | Panicked s => Panicked s
            end
        | Fatal why s => Fatal why s
        | Blocked s => Blocked s
        | Panicked s => Panicked s
        end
    | Fatal why s => Fatal why s
    | Blocked s => Blocked s
    | Panicked s => Panicked s
    end.
Proof. reflexivity. Qed.


Lemma handleMsg_keyed_eq mh h m :
  isUnicast (mh_msg mh) = false →
  mh_handler mh = Some h →
  handleMsg mh m =
    match anyReceiver (Map h (mh_msg mh)) m with
    | Done any m0 =>
        match
          match any with
          | None => newReceiverForMapSet (Map h (mh_msg mh)) m0
          | Some r =>
              match syncReceivers (Map h (mh_msg mh)) r m0 with
              | Done _ m1 => Done r m1
              | Fatal why s => Fatal why s
              | Blocked s => Blocked s
              | Panicked s => Panicked s
              end
          end
        with
        | Done rcvr m2 => Done tt (addEffect (EnqueMsg rcvr mh) m2)
        | Fatal why s => Fatal why s
        | Blocked s => Blocked s
        | Panicked s => Panicked s
        end
    | Fatal why s => Fatal why s
    | Blocked s => Blocked s
    | Panicked s => Panicked s
    end.
Proof.
  intros Hu Hh. unfold handleMsg. rewrite Hu, Hh.
  unfold bind at 1. destruct (anyReceiver _ m) as [[r|] m0| | |]; reflexivity.
Qed.


Lemma set_Done id ms g :
  ∃ g', set id ms g = Done (callerRegVal id) g'.
Proof.
  unfold set. generalize (marshallRegVal (callerRegVal id)). intros mv.
  unfold bind at 1.
  assert (Hloop : ∃ g', forRange ms (λ dk, etcdSet (regKey id dk) mv) g
                        = Done tt g').
  { revert g. induction ms as [|dk ms IH]; intros g; [by eexists|].
    cbn [forRange]. unfold bind at 1, etcdSet at 1. apply IH. }
  destruct Hloop as (g' & ->). by eexists.
Qed.

Lemma elem_of_mapSetOfRcvr id m k :
  k ∈ match mapSetOfRcvr id m with Done ms _ => ms | _ => [] end ↔
  ∃ r ob, keyToRcvrs m !! k = Some r ∧ heap m !! r = Some ob ∧ rId ob = id.
Proof.
  unfold mapSetOfRcvr. rewrite list_elem_of_omap. split.
  - intros ([k' r] & Hin%elem_of_map_to_list & Hsome). simpl in *.
    destruct (heap m !! r) as [ob|] eqn:Hr; [|done].
    destruct (decide (rId ob = id)); [|done].
    injection Hsome as ->. by exists r, ob.
  - intros (r & ob & Hk & Hr & Hid). exists (k, r). split.
    + by apply elem_of_map_to_list.
    + simpl. rewrite Hr. by rewrite decide_True.
Qed.

(** The end of a migration, once the proxy [p] stands for the old receiver
    [old] (the registry is forced, the keys are rebound, the proxy is
    started and the connection closed). *)
Lemma migrate_finish old p oldOb pOb m :
  heap m !! old = Some oldOb → heap m !! p = Some pOb →
  ∃ m' kr ms,
    (do oldId <- idOf old;
     do mapSet <- mapSetOfRcvr oldId;
     do newId <- idOf p;
     onRegistery (set newId mapSet) ;;
     forRange mapSet (λ dictKey, setReceiver dictKey p) ;;
     emit (StartRcvr p) ;;
     emit CloseConn) m = Done tt m' ∧
    mapSetOfRcvr (rId oldOb) m = Done ms m ∧
    keyToRcvrs m' = kr ∧
    (∀ k, k ∈ ms → kr !! k = Some p) ∧
    (∀ k, k ∉ ms → kr !! k = keyToRcvrs m !! k) ∧
    idToRcvrs m' = idToRcvrs m ∧ heap m' = heap m ∧
    effects m' = (effects m ++ [StartRcvr p; CloseConn])%list.
Proof.
  intros Hold Hp.
  unfold bind at 1, idOf at 1. rewrite Hold.
  unfold bind at 1.
  destruct (mapSetOfRcvr (rId oldOb) m) as [ms m0| | |] eqn:Hms; try done.
  assert (m0 = m) as -> by (by injection Hms).
  unfold bind at 1, idOf at 1. rewrite Hp.
  destruct (set_Done (rId pOb) ms (reg m)) as (g' & Hset).
  unfold bind at 1, onRegistery. rewrite Hset.
  destruct (bindAll_spec ms p (setReg g' m)) as (kr & Hb & Hin & Hout).
  unfold bind at 1. rewrite Hb.
  eexists _, kr, ms. split; [reflexivity|]. simpl.
  repeat split; try done. by rewrite <- app_assoc.
Qed.

Lemma proxyFromLocal_eq id old m :
  proxyFromLocal id old m =
    if bool_decide (stageId m = id_StageId id) then Done (inl (ErrLocalId id)) m
    else match idToRcvrs m !! id with
         | Some _ => Done (inl ErrRcvrExists) m
         | None =>
             match heap m !! old with
             | None => Panicked m
             | Some l =>
                 let p := length (heap m) in
                 Done (inr p)
                   (setIdToRcvrs (<[rId l := p]> (<[id := p]> (idToRcvrs m)))
                      (setHeap (heap m ++ [mkRcvrObj ProxyRcvr id (dataCh l) (ctrlCh l)])
                         (chans m) m))
             end
         end.
Proof.
  unfold proxyFromLocal, bind, isLocalRcvr, receiverById, get, newRcvr,
    modify, ret, panic.
  destruct (bool_decide _); [done|].
  destruct (idToRcvrs m !! id); [done|].
  by destruct (heap m !! old).
Qed.

Lemma migrate_decoded rcvrId to env m old newId :
  isDetachedId rcvrId = false →
  idToRcvrs m !! rcvrId = Some old →
  stopReply env = None → dialReply env = None →
  handshakeReply env = None → commandReply env = None →
  decodeReply env = inr newId →
  migrate rcvrId to env m =
    match kind <$> heap m !! old with
    | Some LocalRcvr =>
        (do res <- proxyFromLocal newId old;
         match res with
         | inl err => sendErr err ;; emit CloseConn
         | inr newRcvr =>
             do oldId <- idOf old;
             do mapSet <- mapSetOfRcvr oldId;
             do newId <- idOf newRcvr;
             onRegistery (set newId mapSet) ;;
             forRange mapSet (λ dictKey, setReceiver dictKey newRcvr) ;;
             emit (StartRcvr newRcvr) ;;
             emit CloseConn
         end) (migrateDecoded rcvrId to old m)
    | _ => Panicked (addEffect CloseConn (migrateDecoded rcvrId to old m))
    end.
Proof.
  intros Hdet Hold Hstop Hdial Hhs Hcmd Hdec.
  unfold migrate. rewrite Hdet.
  unfold bind at 1, receiverById. rewrite Hold, Hstop, Hdial, Hhs, Hcmd, Hdec.
  unfold bind at 1, emit at 1, modify at 1.
  unfold bind at 1, emit at 1, modify at 1.
  unfold bind at 1, emit at 1, modify at 1.
  unfold bind at 1, emit at 1, modify at 1.
  unfold bind at 1, get.
  fold (migrateDecoded rcvrId to old m).
  change (heap (migrateDecoded rcvrId to old m)) with (heap m).
  destruct (heap m !! old) as [[[] ? ? ?]|]; reflexivity.
Qed.

Lemma migrate_detached rcvrId to env m :
  isDetachedId rcvrId = true →
  migrate rcvrId to env m =
    Done tt (addEffect (SendRes (mkAsyncResult None
               (Some (ErrCannotMigrateDetached rcvrId)))) m).
Proof. intros Hdet. unfold migrate. by rewrite Hdet. Qed.

(** C5.  [migrate] of the detached ID sends the error and does nothing
    else.  A migration of a local receiver whose steps all succeed returns
    with the receiver's own ID and the newly assigned ID both in
    [idToRcvrs], bound to one new proxy object (which shares the channels
    of the old receiver), and with every key that was bound to the old
    receiver bound to that proxy. *)
Theorem migrate_spec rcvrId to env m :
  (isDetachedId rcvrId = true →
   migrate rcvrId to env m =
     Done tt (addEffect (SendRes (mkAsyncResult None
                (Some (ErrCannotMigrateDetached rcvrId)))) m)) ∧
  (∀ old l newId,
     isDetachedId rcvrId = false →
     idToRcvrs m !! rcvrId = Some old →
     heap m !! old = Some l → kind l = LocalRcvr →
     stopReply env = None → dialReply env = None →
     handshakeReply env = None → commandReply env = None →
     decodeReply env = inr newId →
     stageId m ≠ id_StageId newId →
     idToRcvrs m !! newId = None →
     ∃ m', migrate rcvrId to env m = Done tt m' ∧
       let p := length (heap m) in
       idToRcvrs m' !! rId l = Some p ∧
       idToRcvrs m' !! newId = Some p ∧
       heap m' !! p = Some (mkRcvrObj ProxyRcvr newId (dataCh l) (ctrlCh l)) ∧
       heap m !! p = None ∧
       (∀ k, keyToRcvrs m !! k = Some old → keyToRcvrs m' !! k = Some p)).
Proof.
  split; [apply migrate_detached|].
  intros old l newId Hdet Hold Hl Hkind Hstop Hdial Hhs Hcmd Hdec Hremote Hnew.
  rewrite (migrate_decoded _ _ _ _ _ _ Hdet Hold Hstop Hdial Hhs Hcmd Hdec).
  rewrite Hl. simpl. rewrite Hkind.
  unfold bind at 1. rewrite proxyFromLocal_eq.
  change (stageId (migrateDecoded rcvrId to old m)) with (stageId m).
  change (idToRcvrs (migrateDecoded rcvrId to old m)) with (idToRcvrs m).
  change (heap (migrateDecoded rcvrId to old m)) with (heap m).
  rewrite bool_decide_eq_false_2 by done. rewrite Hnew, Hl. cbv zeta.
  set (p := length (heap m)).
  set (pOb := mkRcvrObj ProxyRcvr newId (dataCh l) (ctrlCh l)).
  set (m1 := setIdToRcvrs _ _).
  assert (Hold1 : heap m1 !! old = Some l).
  { subst m1; simpl. by rewrite lookup_app_l by by eapply lookup_lt_Some. }
  assert (Hp1 : heap m1 !! p = Some pOb).
  { subst m1 p; simpl. by rewrite list_lookup_middle. }
  destruct (migrate_finish old p l pOb m1 Hold1 Hp1)
    as (m' & kr & ms & -> & Hms & Hkr & Hin & _ & Hid & Hheap & _).
  exists m'. split; [done|]. cbv zeta. fold p.
  split; [|split; [|split; [|split]]].
  - rewrite Hid. subst m1; simpl. by rewrite lookup_insert_eq.
  - rewrite Hid. subst m1; simpl.
    destruct (decide (rId l = newId)) as [->|Hne];
      [by rewrite lookup_insert_eq|].
    by rewrite lookup_insert_ne, lookup_insert_eq.
  - by rewrite Hheap.
  - apply lookup_ge_None. subst p. lia.
  - intros k Hk. rewrite Hkr. apply Hin.
    pose proof (elem_of_mapSetOfRcvr (rId l) m1 k) as Hel.
    rewrite Hms in Hel. apply Hel. by exists old, l.
Qed.





End MapperFacts.

(** *** The claims on the sample mappers *)

Section MapperSamples.
Import Sample SampleMapper.


(** A map set split across two local receivers is fatal. *)
Example handleMsg_split_fatal :
  handleMsg mh0 mSplit = Fatal FatalInconsistentShards mSplit.
Proof. by vm_compute. Qed.

Lemma lock_spec_witness :
  lock ms0 false mForeign =
    Done (mkReceiverId 2%N "x" 7%N)
         (setReg (finalState (storeOrGet id0 ms0 gF)) mForeign).
Proof.
  assert (Hn : (lastRId mForeign + 1 < 2 ^ 32)%N) by by vm_compute.
  exact (proj2 (lock_spec ms0 false mForeign Hn) foreign0
           (finalState (storeOrGet id0 ms0 gF)) eq_refl
           ltac:(by vm_compute)).
Defined.

(** At the end of the [uint32] range the counter wraps to the detached
    ID. *)
Example lock_wraps :
  lock ms0 false (mapperOf true gEmpty (2 ^ 32 - 1) ∅ ∅ []) =
    Done (mkReceiverId 1%N "x" 0%N) (mapperOf true gEmpty 0 ∅ ∅ []).
Proof. by vm_compute. Qed.

Lemma migrate_spec_witness :
  ∃ m', migrate rcvr1 2%N envOk mOwner = Done tt m' ∧
    idToRcvrs m' !! rcvr1 = Some 1 ∧
    idToRcvrs m' !! remote9 = Some 1 ∧
    heap m' !! 1 = Some (mkRcvrObj ProxyRcvr remote9 0 1) ∧
    heap mOwner !! 1 = None ∧
    (∀ k, keyToRcvrs mOwner !! k = Some 0 → keyToRcvrs m' !! k = Some 1).
Proof.
  refine (proj2 (migrate_spec rcvr1 2%N envOk mOwner) 0
            (mkRcvrObj LocalRcvr rcvr1 0 1) remote9 _ _ _ _ _ _ _ _ _ _ _);
    by vm_compute.
Defined.

End MapperSamples.

(** ** Facts about the RPC client pool *)

Section PoolFacts.

Lemma newRPCClient_frame a env p :
  retries (newRPCClient a env p).2 = retries p ∧
  hiveClients (newRPCClient a env p).2 = hiveClients p ∧
  (is_Some (cmdDial env) → ∃ e, (newRPCClient a env p).1 = inl e) ∧
  (cmdDial env = None → ∃ c, (newRPCClient a env p).1 = inr c).
Proof.
  unfold newRPCClient. destruct (cmdDial env) as [e|].
  - simpl. repeat split; [by eexists|done].
  - unfold dialTimeout; simpl.
    destruct (raftDial env), (prioDial env), (msgDial env); simpl;
      (repeat split; [by intros [? ?]|by eexists]).
Qed.

Lemma lookupRetry_frame hive p :
  hiveClients (lookupRetry hive p).2 = hiveClients p ∧
  net (lookupRetry hive p).2 = net p ∧
  retries (lookupRetry hive p).2 !! hive = Some (lookupRetry hive p).1 ∧
  (∀ t, retries p !! hive = Some t → lookupRetry hive p = (t, p)) ∧
  (retries p !! hive = None → (lookupRetry hive p).1 = mkDialTry 0 minWait 0).
Proof.
  unfold lookupRetry. destruct (retries p !! hive) as [t|] eqn:Ht; simpl.
  - repeat split; try done. by intros ? [= ->].
  - rewrite lookup_insert_eq. by repeat split.
Qed.

(** A failed dial doubles the wait, up to [maxWait], and sets [next]. *)
Lemma newClient_dialFails hive env p :
  dialFails hive env p →
  let t := (lookupRetry hive p).1 in
  let w := int64 (wait t * 2) in
  let w' := if (maxWait <? w)%Z then maxWait else w in
  ∃ e, (newClient hive env p).1 = inl e ∧
    hiveClients (newClient hive env p).2 !! hive = None ∧
    retries (newClient hive env p).2 !! hive
      = Some (mkDialTry (now env + w') w' (uint64 (Z.of_N (tries t) + 1))).
Proof.
  intros (Hc & Hnext & [a Ha] & Hdial). cbv zeta.
  destruct (lookupRetry_frame hive p) as (Hhc & _ & _ & _ & _).
  unfold newClient.
  destruct (lookupRetry hive p) as [t p1] eqn:Hlr. simpl in *.
  unfold lookupHive. rewrite Hhc, Hc.
  apply Z.ltb_lt in Hnext. rewrite Hnext, Ha. simpl.
  destruct (newRPCClient_frame a env p1) as (Hr & Hh & Hfail & _).
  destruct (Hfail Hdial) as [e He].
  destruct (newRPCClient a env p1) as [[e'|c] p2]; simpl in *; [|done].
  exists e'. split; [done|]. split; [congruence|].
  by rewrite lookup_insert_eq.
Qed.

(** Inside the backoff window [newClient] answers with the backoff error
    and leaves the network alone. *)
Lemma newClient_inBackoff hive env p :
  inBackoff hive env p →
  newClient hive env p
    = (inl (ErrBackoff (next (lookupRetry hive p).1)), (lookupRetry hive p).2).
Proof.
  intros (Hc & Hnext).
  destruct (lookupRetry_frame hive p) as (Hhc & _ & _ & _ & _).
  unfold newClient.
  destruct (lookupRetry hive p) as [t p1] eqn:Hlr. simpl in *.
  unfold lookupHive. rewrite Hhc, Hc.
  assert (Hn : (next t <? now env)%Z = false) by (apply Z.ltb_ge; lia).
  by rewrite Hn.
Qed.

Lemma wait_doubles k w :
  w = Z.min maxWait (2 ^ Z.of_nat k * minWait) →
  (let w2 := int64 (w * 2) in if (maxWait <? w2)%Z then maxWait else w2)
  = Z.min maxWait (2 ^ Z.of_nat (S k) * minWait).
Proof.
  intros ->. cbv zeta.
  assert (Hpow : (0 < 2 ^ Z.of_nat k)%Z) by (apply Z.pow_pos_nonneg; lia).
  rewrite Nat2Z.inj_succ, Z.pow_succ_r by lia.
  set (x := (2 ^ Z.of_nat k)%Z) in *.
  assert (Hm : (0 < Z.min maxWait (x * minWait) ≤ maxWait)%Z).
  { unfold maxWait, minWait, second, millisecond. lia. }
  assert (Hi : int64 (Z.min maxWait (x * minWait) * 2)
               = (Z.min maxWait (x * minWait) * 2)%Z).
  { unfold int64. rewrite Z.mod_small; [lia|].
    unfold maxWait, second, millisecond in *. lia. }
  rewrite Hi. unfold maxWait, minWait, second, millisecond in *.
  destruct (Z.ltb_spec (8 * (1000 * 1000000))
              (Z.min (8 * (1000 * 1000000)) (x * (50 * 1000000)) * 2)); lia.
Qed.

Lemma failedDials_spec hive k t p p' :
  retries p !! hive = None →
  failedDials hive k t p p' →
  hiveClients p' !! hive = None ∧
  ∃ d, retries p' !! hive = Some d ∧
       wait d = Z.min maxWait (2 ^ Z.of_nat k * minWait) ∧
       next d = (t + wait d)%Z.
Proof.
  intros Hfresh Hf. induction Hf as [p env Hd|k t p p1 env Hf IH Hd|k t p p1 env Hf IH Hb].
  - destruct (newClient_dialFails hive env p Hd) as (e & _ & Hc & Hr).
    cbv zeta in Hr. split; [done|]. eexists. split; [exact Hr|].
    destruct (lookupRetry_frame hive p) as (_ & _ & _ & _ & Hnew).
    rewrite (Hnew Hfresh). simpl. by vm_compute.
  - destruct (IH Hfresh) as (Hc1 & d & Hd1 & Hw & Hn).
    destruct (newClient_dialFails hive env p1 Hd) as (e & _ & Hc & Hr).
    cbv zeta in Hr. split; [done|]. eexists. split; [exact Hr|].
    destruct (lookupRetry_frame hive p1) as (_ & _ & _ & Hold & _).
    rewrite (Hold d Hd1). simpl.
    pose proof (wait_doubles k (wait d) Hw) as Hdbl. cbv zeta in Hdbl.
    by rewrite Hdbl.
  - destruct (IH Hfresh) as (Hc1 & d & Hd1 & Hw & Hn).
    rewrite (newClient_inBackoff hive env p1 Hb). simpl.
    destruct (lookupRetry_frame hive p1) as (_ & _ & _ & Hold & _).
    rewrite (Hold d Hd1). simpl. split; [done|]. by exists d.
Qed.

(** C7.  For every peer [hive] with no retry state yet (the first call
    creates it with [wait = minWait]): after [k] failed dials, the last at
    time [t], [next] is [t] plus the smaller of [maxWait] and
    [2^k * minWait]; a call to [newClient] not after [next] returns the
    backoff error, which is temporary and a timeout, and leaves retry state
    and network untouched; a successful dial sets [wait] to one second and
    [next] to the time of the call. *)
Theorem backoff_spec (hive : N) :
  (∀ k t p p',
     retries p !! hive = None → failedDials hive k t p p' →
     ∃ d, retries p' !! hive = Some d ∧
          wait d = Z.min maxWait (2 ^ Z.of_nat k * minWait) ∧
          (t + Z.min maxWait (2 ^ Z.of_nat k * minWait) ≤ next d)%Z) ∧
  (∀ env p d,
     hiveClients p !! hive = None → retries p !! hive = Some d →
     (now env ≤ next d)%Z →
     newClient hive env p = (inl (ErrBackoff (next d)), p) ∧
     isBackoffError (ErrBackoff (next d)) = true ∧
     Temporary (ErrBackoff (next d)) = true ∧
     Timeout (ErrBackoff (next d)) = true) ∧
  (∀ env p a,
     hiveClients p !! hive = None →
     (next (lookupRetry hive p).1 < now env)%Z →
     hiveAddr env = Some a → cmdDial env = None →
     ∃ c d, (newClient hive env p).1 = inr c ∧
            hiveClients (newClient hive env p).2 !! hive = Some c ∧
            retries (newClient hive env p).2 !! hive = Some d ∧
            wait d = (1 * second)%Z ∧ next d = now env).
Proof.
  split; [|split].
  - intros k t p p' Hfresh Hf.
    destruct (failedDials_spec hive k t p p' Hfresh Hf) as (_ & d & Hd & Hw & Hn).
    exists d. split; [done|]. split; [done|]. lia.
  - intros env p d Hc Hd Hnow.
    destruct (lookupRetry_frame hive p) as (_ & _ & _ & Hold & _).
    assert (Hb : inBackoff hive env p).
    { split; [done|]. by rewrite (Hold d Hd). }
    rewrite (newClient_inBackoff hive env p Hb), (Hold d Hd). done.
  - intros env p a Hc Hnext Ha Hdial.
    destruct (lookupRetry_frame hive p) as (Hhc & _ & _ & _ & _).
    unfold newClient.
    destruct (lookupRetry hive p) as [t p1] eqn:Hlr. simpl in *.
    unfold lookupHive. rewrite Hhc, Hc.
    apply Z.ltb_lt in Hnext. rewrite Hnext, Ha. simpl.
    destruct (newRPCClient_frame a env p1) as (Hr & Hh & _ & Hok).
    destruct (Hok Hdial) as [c Hc'].
    destruct (newRPCClient a env p1) as [[e'|c'] p2]; simpl in *; [done|].
    injection Hc' as ->. eexists c, _. split; [done|].
    rewrite !lookup_insert_eq. done.
Qed.

End PoolFacts.

(** ** Facts about the reporter *)

Section ReportFacts.

Lemma countCall_app c l1 l2 :
  countCall c (l1 ++ l2) = countCall c l1 + countCall c l2.
Proof. unfold countCall. by rewrite filter_app, length_app. Qed.

Lemma countCall_snapshots c err to g msgs :
  countCall c
    (omap (λ msg, if negb (IsEmptySnap msg)
                  then Some (ReportSnapshot to g (snapStatus err))
                  else None) msgs)
  = if decide (c = ReportSnapshot to g (snapStatus err))
    then length (filter (λ msg, IsEmptySnap msg = false) msgs)
    else 0.
Proof.
  unfold countCall. induction msgs as [|msg msgs IH].
  { simpl. by destruct (decide _). }
  cbn [omap list_omap]. destruct (IsEmptySnap msg) eqn:He; cbn [negb].
  - rewrite (filter_cons_False (λ msg, IsEmptySnap msg = false))
      by (by rewrite He).
    exact IH.
  - rewrite (filter_cons_True (λ msg, IsEmptySnap msg = false)) by done.
    destruct (decide (c = _)) as [->|Hne].
    + rewrite filter_cons_True by done. simpl. f_equal. exact IH.
    + rewrite filter_cons_False by congruence. exact IH.
Qed.

Lemma countCall_reportGroup c err to g msgs :
  countCall c (reportGroup err to (g, msgs)) =
    (if decide (c = ReportUnreachable to g)
     then (if unreachable err then 1 else 0) else 0) +
    (if decide (c = ReportSnapshot to g (snapStatus err))
     then length (filter (λ msg, IsEmptySnap msg = false) msgs) else 0).
Proof.
  unfold reportGroup. rewrite countCall_app, countCall_snapshots. f_equal.
  simpl. unfold countCall. destruct (unreachable err); simpl.
  - rewrite filter_cons, filter_nil. destruct (decide (c = _)) as [->|Hne].
    + by rewrite decide_True.
    + by rewrite decide_False.
  - by destruct (decide _).
Qed.

(** Over the groups of a map, each group is reported once. *)
Lemma countCall_groups err to (l : list (N * list raftMsg)) :
  NoDup l.*1 →
  (∀ g, countCall (ReportUnreachable to g) (l ≫= reportGroup err to)
        = if unreachable err && bool_decide (g ∈ l.*1) then 1 else 0) ∧
  (∀ g, countCall (ReportSnapshot to g (snapStatus err))
          (l ≫= reportGroup err to)
        = length (filter (λ msg, IsEmptySnap msg = false)
                    (default [] ((list_to_map l : gmap N (list raftMsg)) !! g)))) ∧
  (∀ c, (∀ g, c ≠ ReportUnreachable to g) →
        (∀ g, c ≠ ReportSnapshot to g (snapStatus err)) →
        countCall c (l ≫= reportGroup err to) = 0).
Proof.
  induction l as [|[g' msgs] l IH]; intros Hnd.
  { split; [|split]; try done. intros g. simpl. by rewrite andb_false_r. }
  apply NoDup_cons in Hnd as [Hnin Hnd]. destruct (IH Hnd) as (IH1 & IH2 & IH3).
  split; [|split].
  - intros g. cbn [mbind list_bind]. rewrite countCall_app, countCall_reportGroup, IH1.
    rewrite (decide_False (P := _ = ReportSnapshot _ _ _)) by done.
    simpl. destruct (decide (g = g')) as [->|Hne].
    + rewrite decide_True by done.
      rewrite (bool_decide_eq_false_2 (g' ∈ l.*1)) by done.
      rewrite bool_decide_eq_true_2 by by left.
      destruct (unreachable err); simpl; lia.
    + rewrite decide_False by congruence.
      destruct (unreachable err); simpl; [|done].
      destruct (decide (g ∈ l.*1)) as [Hin|Hn].
      * rewrite !bool_decide_eq_true_2; [done|by right|done].
      * rewrite !bool_decide_eq_false_2; [done| |done].
        intros [?|?]%elem_of_cons; done.
  - intros g. cbn [mbind list_bind]. rewrite countCall_app, countCall_reportGroup, IH2.
    rewrite (decide_False (P := _ = ReportUnreachable _ _)) by done.
    simpl. destruct (decide (g = g')) as [->|Hne].
    + rewrite decide_True by done. rewrite lookup_insert_eq. simpl.
      apply (not_elem_of_list_to_map_1 (M := gmap N)) in Hnin.
      simpl in Hnin. rewrite Hnin. simpl. lia.
    + rewrite decide_False by congruence.
      by rewrite lookup_insert_ne.
  - intros c Hu Hs. cbn [mbind list_bind].
    rewrite countCall_app, countCall_reportGroup, IH3 by done.
    rewrite !decide_False; done.
Qed.

Lemma count_report err batch :
  (∀ g, countCall (ReportUnreachable (batchTo batch) g) (report err batch)
        = if unreachable err && bool_decide (is_Some (Messages batch !! g))
          then 1 else 0) ∧
  (∀ g, countCall (ReportSnapshot (batchTo batch) g (snapStatus err))
          (report err batch)
        = length (snapshotsOf batch g)) ∧
  (∀ c, (∀ g, c ≠ ReportUnreachable (batchTo batch) g) →
        (∀ g, c ≠ ReportSnapshot (batchTo batch) g (snapStatus err)) →
        countCall c (report err batch) = 0).
Proof.
  unfold report, snapshotsOf.
  destruct (countCall_groups err (batchTo batch)
              (map_to_list (Messages batch))
              (NoDup_fst_map_to_list _)) as (H1 & H2 & H3).
  split; [|split]; [|by rewrite list_to_map_to_list in H2|done].
  intros g. rewrite H1.
  assert (Hb : bool_decide (g ∈ (map_to_list (Messages batch)).*1)
               = bool_decide (is_Some (Messages batch !! g))).
  { apply bool_decide_ext. rewrite <- elem_of_dom.
    by rewrite dom_alt, elem_of_list_to_set. }
  by rewrite Hb.
Qed.

End ReportFacts.

(** ** [sendRaft] and the reporter *)

Section SendRaftFacts.

Lemma callsOf_dialTimeout a ok p :
  callsOf (dialTimeout a ok p).2 = callsOf p.
Proof.
  unfold callsOf, dialTimeout. destruct ok; simpl;
    by rewrite filter_app, filter_cons_False, filter_nil, app_nil_r.
Qed.

Lemma callsOf_newRPCClient a env p :
  callsOf (newRPCClient a env p).2 = callsOf p.
Proof.
  unfold newRPCClient. destruct (cmdDial env) as [e|].
  { apply callsOf_dialTimeout. }
  destruct (dialTimeout a true p) as [c p1] eqn:H1.
  destruct (dialTimeout a (raftDial env) p1) as [r p2] eqn:H2.
  destruct (dialTimeout a (prioDial env) p2) as [pr p3] eqn:H3.
  destruct (dialTimeout a (msgDial env) p3) as [ms p4] eqn:H4.
  pose proof (callsOf_dialTimeout a true p) as E1.
  pose proof (callsOf_dialTimeout a (raftDial env) p1) as E2.
  pose proof (callsOf_dialTimeout a (prioDial env) p2) as E3.
  pose proof (callsOf_dialTimeout a (msgDial env) p3) as E4.
  rewrite H1 in E1. rewrite H2 in E2. rewrite H3 in E3. rewrite H4 in E4.
  simpl in *. unfold callsOf in *. simpl. congruence.
Qed.

Lemma callsOf_newClient hive env p :
  callsOf (newClient hive env p).2 = callsOf p.
Proof.
  unfold newClient.
  assert (Hlr : callsOf (lookupRetry hive p).2 = callsOf p).
  { unfold lookupRetry. by destruct (retries p !! hive). }
  destruct (lookupRetry hive p) as [t p1]. simpl in Hlr.
  destruct (lookupHive hive p1); [done|].
  destruct (negb _); [done|].
  destruct (hiveAddr env) as [a|]; [|done].
  pose proof (callsOf_newRPCClient a env p1) as Hn.
  destruct (newRPCClient a env p1) as [[e|c] p2]; simpl in *;
    unfold callsOf in *; simpl; congruence.
Qed.

Lemma callsOf_resetHiveClient hive prev env p :
  callsOf (resetHiveClient hive prev env p).2 = callsOf p.
Proof.
  unfold resetHiveClient.
  pose proof (callsOf_newClient hive env (deleteHive hive p)) as Hn.
  destruct (lookupHive hive p) as [c|]; [destruct (negb _); [done|]|];
    destruct (newClient hive env (deleteHive hive p)) as [[e|c'] p2];
    simpl in *; unfold callsOf in *; simpl in *; congruence.
Qed.

Lemma callsOf_hiveClient hive env p :
  callsOf (hiveClient hive env p).2 = callsOf p.
Proof.
  unfold hiveClient. destruct (lookupHive hive p); [done|].
  apply callsOf_resetHiveClient.
Qed.

(** C8.  [sendRaft] of the pool calls the reporter exactly as [report]
    does for the error it returns, whether the RPC was made or the client
    could not be obtained (then no RPC is made): with an error,
    [ReportUnreachable] once for each group of the batch, without one not at
    all; [ReportSnapshot] once for each message of a group that carries a
    snapshot, with status failure if there is an error and finish if not;
    and nothing else. *)
Theorem sendRaft_reports batch env callErr env' p :
  let err := (sendRaft batch env callErr env' p).1.1 in
  let reps := (sendRaft batch env callErr env' p).1.2 in
  let p' := (sendRaft batch env callErr env' p).2 in
  let to := batchTo batch in
  reps = report err batch ∧
  (∀ e, (hiveClient to env p).1 = inl e →
        err = Some e ∧ callsOf p' = callsOf p) ∧
  (∀ c, (hiveClient to env p).1 = inr c → err = callErr) ∧
  snapStatus err = (if unreachable err then SnapshotFailure else SnapshotFinish) ∧
  (∀ g, countCall (ReportUnreachable to g) reps
        = if unreachable err && bool_decide (is_Some (Messages batch !! g))
          then 1 else 0) ∧
  (∀ g, countCall (ReportSnapshot to g (snapStatus err)) reps
        = length (snapshotsOf batch g)) ∧
  (∀ c, (∀ g, c ≠ ReportUnreachable to g) →
        (∀ g, c ≠ ReportSnapshot to g (snapStatus err)) →
        countCall c reps = 0).
Proof.
  cbv zeta.
  assert (Hrep : (sendRaft batch env callErr env' p).1.2
                 = report (sendRaft batch env callErr env' p).1.1 batch).
  { unfold sendRaft, clientSendRaft.
    destruct (hiveClient (batchTo batch) env p) as [[e|c] p1]; [done|].
    simpl. by destruct (shouldReset callErr). }
  split; [done|]. rewrite Hrep.
  destruct (count_report (sendRaft batch env callErr env' p).1.1 batch)
    as (H1 & H2 & H3).
  repeat split; try done.
  - unfold sendRaft. destruct (hiveClient (batchTo batch) env p) as [[e'|c] p1];
      simpl in *; congruence.
  - pose proof (callsOf_hiveClient (batchTo batch) env p) as Hc.
    unfold sendRaft.
    destruct (hiveClient (batchTo batch) env p) as [[e'|c] p1]; simpl in *; done.
  - intros c Hc. unfold sendRaft, clientSendRaft.
    destruct (hiveClient (batchTo batch) env p) as [[e'|c'] p1];
      simpl in *; [done|]. by destruct (shouldReset callErr).
  - by destruct (sendRaft batch env callErr env' p).1.1.
Qed.

End SendRaftFacts.

(** ** Facts about the RPC server *)

Section ServerFacts.

(** C9 (what the code does).  When [ProcessCmd] returns nil for a
    non-empty batch, the result slice has one entry per command, the entry
    at index 0 is the result of the first command, and every other entry is
    the zero [cmdResult]: the function returns as soon as the first result
    has arrived. *)
Theorem ProcessCmd_first_only s c cmds res res' :
  ProcessCmd s (c :: cmds) res = Some res' →
  length res' = length (c :: cmds) ∧
  (∃ r, dispatch s c = Some r ∧ res' !! 0 = Some r) ∧
  (∀ i, 0 < i < length (c :: cmds) →
        res' !! i = Some (mkCmdResult None None)).
Proof.
  unfold ProcessCmd. cbn [fmap list_fmap forRangeReturn length replicate].
  unfold collect at 1. destruct (dispatch s c) as [r|]; [|done].
  intros [= <-]. split; [|split].
  - simpl. by rewrite length_replicate.
  - by exists r.
  - intros [|i] Hi; [lia|]. simpl in *.
    apply lookup_replicate. split; [done|lia].
Qed.

End ServerFacts.

(** *** The claims on the sample pool and server *)

Section PoolSamples.
Import SamplePool.

Lemma refused_dialFails : dialFails 2 (refused 1000) pool0.
Proof. split; [done|]. split; [by vm_compute|]. split; by eexists. Qed.

Lemma backoff_spec_witness :
  (∃ d, retries poolFailed !! 2%N = Some d ∧
        wait d = Z.min maxWait (2 ^ Z.of_nat 1 * minWait) ∧
        (1000 + Z.min maxWait (2 ^ Z.of_nat 1 * minWait) ≤ next d)%Z) ∧
  newClient 2 (accepted 2000) poolFailed
    = (inl (ErrBackoff (1000 + 100 * millisecond)), poolFailed).
Proof.
  split.
  - refine (proj1 (backoff_spec 2) 1%nat 1000%Z pool0 poolFailed _ _).
    + done.
    + exact (failed_first 2 pool0 (refused 1000) refused_dialFails).
  - refine (proj1 (proj1 (proj2 (backoff_spec 2)) (accepted 2000) poolFailed
              (mkDialTry (1000 + 100 * millisecond) (100 * millisecond) 1)
              _ _ _)); by vm_compute.
Defined.

(** Inside the backoff window no RPC is made and the reporter is told that
    both groups are unreachable and that the snapshot failed. *)
Lemma sendRaft_reports_witness :
  (sendRaft batch0 (accepted 2000) None (accepted 2000) poolFailed).1.1
    = Some (ErrBackoff (1000 + 100 * millisecond)) ∧
  callsOf (sendRaft batch0 (accepted 2000) None (accepted 2000) poolFailed).2
    = callsOf poolFailed.
Proof.
  refine (proj1 (proj2 (sendRaft_reports batch0 (accepted 2000) None
                          (accepted 2000) poolFailed)) _ _).
  by vm_compute.
Defined.

Example sendRaft_in_backoff :
  (sendRaft batch0 (accepted 2000) None (accepted 2000) poolFailed).1.2
    = [ReportUnreachable 2 2; ReportUnreachable 2 1;
       ReportSnapshot 2 1 SnapshotFailure].
Proof. by vm_compute. Qed.

Example sendRaft_sent :
  (sendRaft batch0 (accepted 2000) None (accepted 2000) pool0).1
    = (None, [ReportSnapshot 2 1 SnapshotFinish]).
Proof. by vm_compute. Qed.

Lemma ProcessCmd_first_only_witness :
  length [mkCmdResult None (Some (ErrWrongHive 5)); mkCmdResult None None]
    = length [cmdTo 5; cmdTo 6] ∧
  (∃ r, dispatch server0 (cmdTo 5) = Some r ∧
        [mkCmdResult None (Some (ErrWrongHive 5)); mkCmdResult None None] !! 0
          = Some r) ∧
  (∀ i, 0 < i < length [cmdTo 5; cmdTo 6] →
        [mkCmdResult None (Some (ErrWrongHive 5)); mkCmdResult None None] !! i
          = Some (mkCmdResult None None)).
Proof.
  exact (ProcessCmd_first_only server0 (cmdTo 5) [cmdTo 6] [] _ eq_refl).
Defined.

(** Two commands addressed to other hives: the second command's error is
    produced (it is on its channel) but never reaches the result slice. *)
Example ProcessCmd_second_slot_empty :
  ProcessCmd server0 [cmdTo 5; cmdTo 6] []
    = Some [mkCmdResult None (Some (ErrWrongHive 5)); mkCmdResult None None] ∧
  dispatch server0 (cmdTo 6) = Some (mkCmdResult None (Some (ErrWrongHive 6))).
Proof. by vm_compute. Qed.

End PoolSamples.

(** * Further properties of the registry client *)

Section RegisteryMore.
Context `{RegValCodec}.

Lemma lockActorLoop_outcomes k mv ws g :
  match lockActorLoop k mv ws g with
  | Done None g' =>
      store g' !! k = Some mv ∧ last (ops g') = Some (OpCreate k mv true)
  | Done (Some e) g' =>
      e = ErrWatchFailed ∧ last (ops g') = Some (OpWatch k WatchErr) ∧
      is_Some (store g' !! k)
  | Blocked g' => watches g' = [] ∧ is_Some (store g' !! k)
  | _ => False
  end.
Proof.
  revert g. induction ws as [|w ws IH]; intros g; cbn [lockActorLoop].
  - destruct (store g !! k) eqn:Hk.
    + split; [done|]. cbn. by rewrite Hk.
    + split; [apply lookup_insert_eq|apply last_snoc].
  - destruct (store g !! k) eqn:Hk.
    + destruct w as [|nv].
      * split; [done|]. split; [apply last_snoc|]. cbn. by rewrite Hk.
      * apply IH.
    + split; [apply lookup_insert_eq|apply last_snoc].
Qed.

Lemma lockActor_free id g :
  store g !! lockPath g id = None →
  lockActor id g =
    Done None (logOp (OpCreate (lockPath g id)
                        (marshallRegVal (callerRegVal id)) true)
                 (setStore <[lockPath g id := marshallRegVal (callerRegVal id)]> g)).
Proof.
  intros Hfree. unfold lockActor.
  destruct (watches g) eqn:Hw; cbn [lockActorLoop]; rewrite Hfree;
    destruct g; simpl in *; by rewrite Hw.
Qed.

(** X1.  [lockActor] returns nil only after it has created the lock key
    with the caller's record (its last request); it returns an error only
    when a watch on the held lock failed; otherwise it is still waiting on
    a held lock.  It never changes another key, and on a free lock it
    succeeds at once. *)
Theorem lockActor_outcomes id g :
  let lk := lockPath g id in
  let mvc := marshallRegVal (callerRegVal id) in
  match lockActor id g with
  | Done None g' =>
      store g' !! lk = Some mvc ∧ last (ops g') = Some (OpCreate lk mvc true)
  | Done (Some e) g' =>
      e = ErrWatchFailed ∧ last (ops g') = Some (OpWatch lk WatchErr) ∧
      is_Some (store g' !! lk)
  | Blocked g' => watches g' = [] ∧ is_Some (store g' !! lk)
  | _ => False
  end ∧
  (∀ k, k ≠ lk → store (finalState (lockActor id g)) !! k = store g !! k) ∧
  (store g !! lk = None → ∃ g', lockActor id g = Done None g').
Proof.
  cbv zeta. split; [apply lockActorLoop_outcomes|]. split.
  - intros k Hk. unfold lockActor.
    destruct (lockActorLoop_spec (lockPath g id)
                (marshallRegVal (callerRegVal id)) (watches g) g)
      as (st & body & ws' & _ & Hst & Hres).
    destruct (lockActorLoop _ _ _ _) as [r g'| |g'|]; try done.
    + destruct Hres as [-> _]. simpl. by apply Hst.
    + rewrite Hres. simpl. by apply Hst.
  - intros Hfree. eexists. by apply lockActor_free.
Qed.

Lemma unlockActor_eq id g :
  unlockActor id g =
    let lk := lockPath g id in
    let c := callerRegVal id in
    match store g !! lk with
    | None => Done (Some ErrKeyNotFound) (logOp (OpGet lk None) g)
    | Some d =>
        let g1 := logOp (OpGet lk (Some d)) g in
        match unmarshallRegVal d with
        | None => Fatal (FatalUnmarshall d) g1
        | Some tempV =>
            if regValEq c tempV
            then Done None (logOp (OpDelete lk true) (setStore (delete lk) g1))
            else Done (Some (ErrForeignLock c tempV)) g1
        end
    end.
Proof.
  unfold unlockActor, bind at 1, get. unfold bind at 1, etcdGet. cbv zeta.
  destruct (store g !! lockPath g id) as [d|] eqn:Hk; [|done].
  unfold unmarshallRegValOrFail.
  destruct (unmarshallRegVal d) as [tempV|]; [|done].
  unfold bind at 1, ret at 1.
  destruct (regValEq (callerRegVal id) tempV); simpl; [|done].
  unfold bind, etcdDelete; simpl. by rewrite Hk.
Qed.

(** X2.  [unlockActor] never steals: when the lock key holds another
    receiver's record it returns the foreign-lock error and leaves the
    store as it is; without a lock key it returns the store's error; it
    deletes the key only when the key holds the caller's own record, and
    whatever happens no other key changes. *)
Theorem unlockActor_never_steals id g :
  let lk := lockPath g id in
  let c := callerRegVal id in
  (∀ k, k ≠ lk → store (finalState (unlockActor id g)) !! k = store g !! k) ∧
  (∀ d w, store g !! lk = Some d → unmarshallRegVal d = Some w → w ≠ c →
     ∃ g', unlockActor id g = Done (Some (ErrForeignLock c w)) g' ∧
           store g' = store g ∧ last (ops g') = Some (OpGet lk (Some d))) ∧
  (store g !! lk = None →
     ∃ g', unlockActor id g = Done (Some ErrKeyNotFound) g' ∧ store g' = store g) ∧
  (∀ d, store g !! lk = Some d → unmarshallRegVal d = Some c →
     ∃ g', unlockActor id g = Done None g' ∧ store g' = delete lk (store g)).
Proof.
  cbv zeta. rewrite unlockActor_eq. cbv zeta.
  split; [|split; [|split]].
  - intros k Hk. destruct (store g !! lockPath g id) as [d|]; [|done].
    destruct (unmarshallRegVal d) as [tempV|]; [|done].
    destruct (regValEq _ tempV); [|done]. simpl. by rewrite lookup_delete_ne.
  - intros d w -> -> Hne.
    assert (He : regValEq (callerRegVal id) w = false)
      by (apply regValEq_false; congruence).
    rewrite He. eexists. split; [done|]. split; [done|]. apply last_snoc.
  - intros ->. by eexists.
  - intros d -> ->.
    assert (He : regValEq (callerRegVal id) (callerRegVal id) = true)
      by by apply regValEq_true.
    rewrite He. by eexists.
Qed.

(** X3.  Locking a free actor lock and unlocking it again succeeds and
    leaves the store exactly as it was. *)
Theorem lock_unlock_roundtrip id g :
  store g !! lockPath g id = None →
  ∃ g', (lockActor id ;; unlockActor id) g = Done None g' ∧
        store g' = store g ∧
        ops g' = (ops g ++
          [OpCreate (lockPath g id) (marshallRegVal (callerRegVal id)) true;
           OpGet (lockPath g id) (Some (marshallRegVal (callerRegVal id)));
           OpDelete (lockPath g id) true])%list.
Proof.
  intros Hfree. unfold bind. rewrite (lockActor_free id g Hfree).
  set (g1 := logOp _ _).
  assert (Hlk : lockPath g1 id = lockPath g id) by done.
  assert (Hheld : store g1 !! lockPath g1 id
                  = Some (marshallRegVal (callerRegVal id))).
  { rewrite Hlk. subst g1; simpl. apply lookup_insert_eq. }
  rewrite (unlockActor_held id g1 Hheld), Hlk.
  eexists. split; [done|]. simpl. split.
  - by rewrite delete_insert_id.
  - by rewrite <- app_assoc.
Qed.

Lemma scan_all_hold c mvc w rs :
  (∃ d, Some d ∈ rs) →
  (∀ d, Some d ∈ rs → unmarshallRegVal d = Some w) →
  ∃ mv, scan c mvc false rs = inr (w, mv).
Proof.
  intros Hex Hdec. destruct (decide (w = c)) as [->|Hne].
  { exists mvc. by apply scan_all_equal. }
  induction rs as [|[d|] rs IH]; cbn [scan].
  - destruct Hex as [d Hd]. by apply elem_of_nil in Hd.
  - rewrite (Hdec d) by by left.
    assert (He : regValEq w c = false) by by apply regValEq_false.
    rewrite He. exists d. apply scan_all_equal.
    intros d' ?. apply Hdec. by right.
  - apply IH.
    + destruct Hex as [d [[=]|Hd]%elem_of_cons]. by exists d.
    + intros d' ?. apply Hdec. by right.
Qed.

Lemma created_all_present id ms mv st :
  (∀ dk, dk ∈ ms → is_Some (st !! regKey id dk)) →
  created id ms mv st = st.
Proof.
  intros Hall. apply map_eq. intros k. rewrite created_lookup.
  destruct (st !! k) eqn:Hk; [done|].
  rewrite decide_False; [done|].
  intros (dk & -> & Hin)%list_elem_of_fmap.
  destruct (Hall dk Hin) as [? ?]. congruence.
Qed.

(** X4.  The first claim wins.  When no key of [ms] is in the registry and
    the actor lock is free, [storeOrGet] returns the caller's record; any
    later [storeOrGet] of a receiver of the same actor (the caller again or
    another one) on a non-empty part of [ms] returns that first record and
    leaves the store as the first call left it. *)
Theorem storeOrGet_first_wins id id' ms ms' g :
  store g !! lockPath g id = None →
  id_ActorName id' = id_ActorName id →
  (∀ dk, dk ∈ ms → regKey id dk ≠ lockPath g id) →
  (∀ dk, dk ∈ ms → store g !! regKey id dk = None) →
  ms' ≠ [] → (∀ dk, dk ∈ ms' → dk ∈ ms) →
  ∃ g1 g2,
    storeOrGet id ms g = Done (callerRegVal id) g1 ∧
    storeOrGet id' ms' g1 = Done (callerRegVal id) g2 ∧
    store g2 = store g1 ∧
    (∀ dk, dk ∈ ms → holds (store g1) id dk (callerRegVal id)).
Proof.
  intros Hfree Hactor Hcol Habsent Hne Hsub.
  pose proof (lockActor_free id g Hfree) as Hl.
  destruct (storeOrGet_acquired _ _ _ _ Hl Hcol) as (body & _ & Hsg).
  rewrite scan_all_equal in Hsg.
  2:{ intros d (dk & Hin & Hd)%elem_of_readAnswers_sorted.
      rewrite (Habsent dk Hin) in Hd. done. }
  set (c := callerRegVal id) in *. set (mvc := marshallRegVal c) in *.
  set (lk := lockPath g id) in *.
  match type of Hsg with _ = Done _ ?x => set (g1 := x) in * end.
  assert (Hkeys : ∀ dk, dk ∈ ms → store g1 !! regKey id dk = Some mvc).
  { intros dk Hin. subst g1; simpl.
    rewrite lookup_delete_ne by (intros Heq; by eapply Hcol).
    rewrite created_lookup. simpl.
    rewrite lookup_insert_ne by (intros Heq; by eapply Hcol).
    rewrite (Habsent dk Hin). rewrite decide_True; [done|].
    apply list_elem_of_fmap. exists dk. by rewrite elem_of_sortMapSet. }
  assert (Hfree1 : store g1 !! lockPath g1 id' = None).
  { replace (lockPath g1 id') with lk
      by (unfold lk, lockPath, path; by rewrite Hactor).
    subst g1; simpl. apply lookup_delete_eq. }
  assert (Hkey' : ∀ dk, regKey id' dk = regKey id dk)
    by (intros dk; unfold regKey; by rewrite Hactor).
  assert (Hlk' : lockPath g1 id' = lk)
    by (unfold lk, lockPath, path; by rewrite Hactor).
  pose proof (lockActor_free id' g1 Hfree1) as Hl'.
  assert (Hcol' : ∀ dk, dk ∈ ms' → regKey id' dk ≠ lockPath g1 id').
  { intros dk Hin. rewrite Hkey', Hlk'. by apply Hcol, Hsub. }
  destruct (storeOrGet_acquired _ _ _ _ Hl' Hcol') as (body' & _ & Hsg').
  destruct (scan_all_hold (callerRegVal id') (marshallRegVal (callerRegVal id'))
              c (readAnswers id' (sortMapSet ms') (store g1))) as (mv' & Hscan).
  { destruct ms' as [|dk0 ms']; [done|]. exists mvc.
    apply elem_of_readAnswers_sorted. exists dk0. split; [by left|].
    rewrite Hkey'. apply Hkeys, Hsub. by left. }
  { intros d (dk & Hin & Hd)%elem_of_readAnswers_sorted.
    rewrite Hkey', (Hkeys dk (Hsub dk Hin)) in Hd. injection Hd as <-.
    apply unmarshall_marshall. }
  rewrite Hscan in Hsg'.
  eexists g1, _. split; [exact Hsg|]. split; [exact Hsg'|]. split.
  - simpl. rewrite Hlk'. rewrite created_all_present.
    + rewrite delete_insert_id; [done|]. by rewrite Hlk' in Hfree1.
    + intros dk Hin. apply (proj1 (elem_of_sortMapSet dk ms')) in Hin.
      rewrite Hkey'.
      rewrite lookup_insert_ne
        by (intros Heq; by apply (Hcol dk (Hsub dk Hin))).
      exists mvc. exact (Hkeys dk (Hsub dk Hin)).
  - intros dk Hin. exists mvc. split; [by apply Hkeys|apply unmarshall_marshall].
Qed.

Lemma scan_undecodable v mv b rs d :
  Some d ∈ rs → unmarshallRegVal d = None →
  ∃ why, scan v mv b rs = inl why.
Proof.
  revert v mv b. induction rs as [|[d'|] rs IH]; intros v mv b Hin Hd.
  - by apply elem_of_nil in Hin.
  - cbn [scan]. destruct (unmarshallRegVal d') as [resV|] eqn:Hd'; [|by eexists].
    assert (Hin' : Some d ∈ rs).
    { apply elem_of_cons in Hin as [[= ->]|Hin]; [congruence|done]. }
    destruct (regValEq resV v); [by apply IH|].
    destruct b; [by eexists|by apply IH].
  - cbn [scan]. apply IH; [|done].
    by apply elem_of_cons in Hin as [[=]|Hin].
Qed.

(** X5.  A key of [ms] holding a text that does not decode as a registry
    record makes [storeOrGet] fatal: the call never returns, and nothing
    has been written to the keys of [ms]. *)
Theorem storeOrGet_undecodable_fatal id ms g g1 dk d :
  lockActor id g = Done None g1 →
  (∀ dk, dk ∈ ms → regKey id dk ≠ lockPath g id) →
  dk ∈ ms → store g !! regKey id dk = Some d → unmarshallRegVal d = None →
  ∃ why g', storeOrGet id ms g = Fatal why g' ∧
    ∀ dk', dk' ∈ ms → store g' !! regKey id dk' = store g !! regKey id dk'.
Proof.
  intros Hl Hcol Hin Hd Hun.
  destruct (storeOrGet_acquired _ _ _ _ Hl Hcol) as (body & _ & Hsg).
  destruct (lockActor_acquired _ _ _ Hl) as (_ & _ & Hoff & _).
  destruct (scan_undecodable (callerRegVal id)
              (marshallRegVal (callerRegVal id)) false
              (readAnswers id (sortMapSet ms) (store g)) d) as [why Hscan];
    [apply elem_of_readAnswers_sorted; by exists dk|done|].
  rewrite Hscan in Hsg. eexists why, _. split; [exact Hsg|].
  intros dk' Hin'. simpl. by apply Hoff, Hcol.
Qed.

Lemma storeOrGet_off_lock id ms g k :
  k ≠ lockPath g id →
  store (finalState (storeOrGet id ms g)) !! k = store g !! k ∨
  (store g !! k = None ∧ k ∈ regKey id <$> ms).
Proof.
  intros Hk. unfold storeOrGet, bind at 1, lockActor.
  destruct (lockActorLoop_spec (lockPath g id)
              (marshallRegVal (callerRegVal id)) (watches g) g)
    as (st & body & ws' & _ & Hst & Hres).
  destruct (lockActorLoop _ _ _ _) as [r g1| |g1|]; try done.
  2:{ rewrite Hres. simpl. left. by apply Hst. }
  destruct Hres as [-> _].
  set (g1 := setWatches ws' (after st body g)).
  destruct (readLoop_scan id (sortMapSet ms) (callerRegVal id)
              (marshallRegVal (callerRegVal id)) false g1)
    as (b1 & _ & Hread).
  unfold bind at 1. rewrite Hread.
  destruct (scan _ _ _ _) as [why|[v mv]].
  { simpl. left. by apply Hst. }
  destruct (createLoop_created id (sortMapSet ms) mv (after (store g1) b1 g1))
    as (b2 & _ & Hcreate).
  unfold bind at 1. rewrite Hcreate.
  set (g3 := after _ b2 _).
  assert (Hlk : lockPath g3 id = lockPath g id) by done.
  assert (Hg3 : store g3 !! k = store g !! k ∨
                (store g !! k = None ∧ k ∈ regKey id <$> ms)).
  { subst g3; simpl. rewrite created_lookup, Hst by done.
    destruct (store g !! k) as [d|] eqn:Hd; [by left|].
    destruct (decide (k ∈ regKey id <$> sortMapSet ms)) as [Hin|Hnin];
      [|by left].
    right. split; [done|].
    apply list_elem_of_fmap in Hin as (dk & -> & Hin).
    apply list_elem_of_fmap. exists dk. by rewrite <- elem_of_sortMapSet. }
  unfold bind at 1. rewrite unlockActor_eq. cbv zeta. rewrite Hlk.
  destruct (store g3 !! lockPath g id) as [d|]; [|exact Hg3].
  destruct (unmarshallRegVal d) as [tempV|]; [|exact Hg3].
  destruct (regValEq _ tempV); [|exact Hg3].
  simpl. rewrite lookup_delete_ne by done. exact Hg3.
Qed.

(** X6.  [storeOrGet] writes nowhere else: whatever its outcome, and
    whether or not [lockActor] got the lock, a key that is neither the lock
    key nor the key of a member of [ms] keeps its value, and so does every
    key other than the lock key that existed.  When the call has acquired
    the lock (no key of the set being stored under the lock's own path) and
    returns, the lock key is gone. *)
Theorem storeOrGet_frame id ms g :
  let g' := finalState (storeOrGet id ms g) in
  (∀ k, k ≠ lockPath g id → k ∉ regKey id <$> ms →
        store g' !! k = store g !! k) ∧
  (∀ k d, k ≠ lockPath g id → store g !! k = Some d → store g' !! k = Some d) ∧
  (∀ g1, lockActor id g = Done None g1 →
         (∀ dk, dk ∈ ms → regKey id dk ≠ lockPath g id) →
         isDone (storeOrGet id ms g) = true →
         store g' !! lockPath g id = None).
Proof.
  cbv zeta. split; [|split].
  - intros k Hk Hnin.
    destruct (storeOrGet_off_lock id ms g k Hk) as [?|[_ ?]]; done.
  - intros k d Hk Hd.
    destruct (storeOrGet_off_lock id ms g k Hk) as [->|[? _]]; congruence.
  - intros g1 Hl Hcol.
    destruct (storeOrGet_acquired _ _ _ _ Hl Hcol) as (body & _ & Hsg).
    rewrite Hsg. destruct (scan _ _ _ _) as [why|[v mv]]; simpl; [done|].
    intros _. apply lookup_delete_eq.
Qed.

End RegisteryMore.

(** * Further properties of the mapper *)

Section MapperMore.
Context `{RegValCodec}.

Lemma findOrCreateReceiver_eq id m :
  findOrCreateReceiver id m =
    match idToRcvrs m !! id with
    | Some r => Done r m
    | None =>
        let r := length (heap m) in
        let k := if bool_decide (stageId m = id_StageId id)
                 then LocalRcvr else ProxyRcvr in
        Done r (addEffect (StartRcvr r)
                  (setIdToRcvrs (<[id := r]> (idToRcvrs m))
                     (setHeap (heap m ++ [mkRcvrObj k id (chans m) (S (chans m))])
                        (S (S (chans m))) m)))
    end.
Proof.
  unfold findOrCreateReceiver, bind at 1, receiverById.
  by destruct (idToRcvrs m !! id).
Qed.

(** X7.  [findOrCreateReceiver] always returns a receiver registered under
    the ID; asking again returns the same receiver and changes nothing.  A
    receiver it creates is a new object with that ID, local exactly when
    the ID's stage is this stage and a proxy otherwise, and is started
    once; key bindings and the counter are left alone. *)
Theorem findOrCreateReceiver_idempotent id m :
  ∃ r m',
    findOrCreateReceiver id m = Done r m' ∧
    idToRcvrs m' !! id = Some r ∧
    findOrCreateReceiver id m' = Done r m' ∧
    keyToRcvrs m' = keyToRcvrs m ∧ lastRId m' = lastRId m ∧
    (∀ r0, idToRcvrs m !! id = Some r0 → r = r0 ∧ m' = m) ∧
    (idToRcvrs m !! id = None →
       heap m !! r = None ∧
       heap m' !! r = Some (mkRcvrObj
         (if bool_decide (stageId m = id_StageId id) then LocalRcvr else ProxyRcvr)
         id (chans m) (S (chans m))) ∧
       effects m' = (effects m ++ [StartRcvr r])%list ∧
       (∀ id', id' ≠ id → idToRcvrs m' !! id' = idToRcvrs m !! id')).
Proof.
  rewrite findOrCreateReceiver_eq.
  destruct (idToRcvrs m !! id) as [r0|] eqn:Hid.
  - exists r0, m. rewrite findOrCreateReceiver_eq, Hid.
    repeat split; try done; congruence.
  - eexists _, _. split; [reflexivity|]. cbv zeta.
    rewrite findOrCreateReceiver_eq. simpl. rewrite lookup_insert_eq.
    repeat split; try done.
    + apply lookup_ge_None. lia.
    + by rewrite list_lookup_middle.
    + intros id' Hne. by rewrite lookup_insert_ne.
Qed.

Lemma handleMsg_unicast_eq mh m :
  isUnicast (mh_msg mh) = true →
  handleMsg mh m =
    let to := To (mh_msg mh) in
    let nilBad := bool_decide (mh_handler mh = None :> option _)
                  && negb (bool_decide (id_RcvrId to = detachedRcvrId)) in
    match idToRcvrs m !! to with
    | Some r =>
        if nilBad then Fatal FatalNilHandler m
        else Done tt (addEffect (EnqueMsg r mh) m)
    | None =>
        if bool_decide (stageId m = id_StageId to)
        then Fatal FatalNoLocalReceiver m
        else
          match findOrCreateReceiver to m with
          | Done r m1 =>
              if nilBad then Fatal FatalNilHandler m1
              else Done tt (addEffect (EnqueMsg r mh) m1)
          | Fatal why s => Fatal why s
          | Blocked s => Blocked s
          | Panicked s => Panicked s
          end
    end.
Proof.
  intros Hu. unfold handleMsg. rewrite Hu. cbv zeta.
  unfold bind at 1, receiverById.
  destruct (idToRcvrs m !! To (mh_msg mh)) as [r|].
  - unfold bind at 1, ret at 1. by destruct (_ && _).
  - unfold bind at 1, bind at 1, isLocalRcvr.
    destruct (bool_decide _); [done|].
    destruct (findOrCreateReceiver _ m); try done. by destruct (_ && _).
Qed.

(** X8.  A unicast message: to a known ID it is enqueued on that receiver
    and nothing else changes; to an unknown ID of this stage it is fatal;
    to an unknown ID of another stage a proxy is created, registered and
    started, and the message is enqueued on it.  A nil handler is fatal
    unless the message is for the detached ID, but only after the proxy for
    an unknown remote ID has been made.  Key bindings, counter and registry
    are never touched. *)
Theorem handleMsg_unicast mh m :
  isUnicast (mh_msg mh) = true →
  let to := To (mh_msg mh) in
  let nilBad := bool_decide (mh_handler mh = None :> option _)
                && negb (bool_decide (id_RcvrId to = detachedRcvrId)) in
  (∀ r, idToRcvrs m !! to = Some r → nilBad = false →
        handleMsg mh m = Done tt (addEffect (EnqueMsg r mh) m)) ∧
  (∀ r, idToRcvrs m !! to = Some r → nilBad = true →
        handleMsg mh m = Fatal FatalNilHandler m) ∧
  (idToRcvrs m !! to = None → stageId m = id_StageId to →
        handleMsg mh m = Fatal FatalNoLocalReceiver m) ∧
  (idToRcvrs m !! to = None → stageId m ≠ id_StageId to →
     let r := length (heap m) in
     let s := finalState (handleMsg mh m) in
     heap s !! r = Some (mkRcvrObj ProxyRcvr to (chans m) (S (chans m))) ∧
     idToRcvrs s !! to = Some r ∧
     (if nilBad
      then handleMsg mh m = Fatal FatalNilHandler s ∧
           effects s = (effects m ++ [StartRcvr r])%list
      else handleMsg mh m = Done tt s ∧
           effects s = (effects m ++ [StartRcvr r; EnqueMsg r mh])%list)) ∧
  keyToRcvrs (finalState (handleMsg mh m)) = keyToRcvrs m ∧
  lastRId (finalState (handleMsg mh m)) = lastRId m ∧
  reg (finalState (handleMsg mh m)) = reg m.
Proof.
  intros Hu. cbv zeta. rewrite (handleMsg_unicast_eq mh m Hu). cbv zeta.
  set (nilBad := _ && _).
  split; [|split; [|split; [|split]]].
  - by intros r -> ->.
  - by intros r -> ->.
  - intros -> Hloc. by rewrite bool_decide_eq_true_2.
  - intros Hnone Hrem. rewrite Hnone, bool_decide_eq_false_2 by done.
    rewrite findOrCreateReceiver_eq, Hnone. cbv zeta.
    rewrite bool_decide_eq_false_2 by done.
    destruct nilBad; simpl.
    + split; [by apply list_lookup_middle|].
      split; [by apply lookup_insert_eq|]. split; reflexivity.
    + split; [by apply list_lookup_middle|].
      split; [by apply lookup_insert_eq|]. by rewrite <- app_assoc.
  - destruct (idToRcvrs m !! To (mh_msg mh)) as [r|] eqn:Hid.
    { by destruct nilBad. }
    destruct (bool_decide (stageId m = _)); [done|].
    rewrite findOrCreateReceiver_eq, Hid. cbv zeta. by destruct nilBad.
Qed.

Lemma registerDetached_eq m :
  registerDetached m =
    let d := length (heap m) in
    let m1 := setHeap (heap m ++ [mkRcvrObj DetachedRcvr (detachedIdOf m)
                                   (chans m) (S (chans m))])
                (S (S (chans m))) m in
    match idToRcvrs m !! detachedIdOf m with
    | None =>
        Done None (setIdToRcvrs (<[detachedIdOf m := d]> (idToRcvrs m)) m1)
    | Some cur =>
        match kind <$> heap m1 !! cur with
        | Some DetachedRcvr => Done (Some ErrAlreadyDetached) m1
        | _ => Panicked m1
        end
    end.
Proof.
  unfold registerDetached, newDetachedRcvr, setDetached, detached, bind, get,
    defaultLocalRcvr, newRcvr, modify, ret; simpl.
  change (detachedIdOf (setHeap _ _ (setHeap _ _ m))) with (detachedIdOf m).
  destruct (idToRcvrs m !! detachedIdOf m) as [cur|]; [|reflexivity].
  destruct (kind <$> _) as [[]|]; reflexivity.
Qed.

(** X9.  The detached receiver is unique: on a mapper without one,
    [registerDetached] installs a new detached receiver under the detached
    ID (RcvrId 0 of this stage and actor), which [detached] then finds;
    registering again returns the error and leaves the ID bound to the
    first one. *)
Theorem registerDetached_once m :
  idToRcvrs m !! detachedIdOf m = None →
  ∃ m1 d,
    registerDetached m = Done None m1 ∧
    detached m1 = Done (Some d) m1 ∧
    heap m !! d = None ∧
    heap m1 !! d = Some (mkRcvrObj DetachedRcvr (detachedIdOf m)
                           (chans m) (S (chans m))) ∧
    isDetachedId (detachedIdOf m) = true ∧
    ∃ m2, registerDetached m1 = Done (Some ErrAlreadyDetached) m2 ∧
          idToRcvrs m2 = idToRcvrs m1 ∧
          detached m2 = Done (Some d) m2.
Proof.
  intros Hnone. rewrite registerDetached_eq, Hnone. cbv zeta.
  set (d := length (heap m)).
  set (ob := mkRcvrObj DetachedRcvr (detachedIdOf m) (chans m) (S (chans m))).
  eexists _, d. split; [reflexivity|].
  assert (Hd : (heap m ++ [ob])%list !! d = Some ob)
    by by apply list_lookup_middle.
  split; [|split; [|split; [|split]]].
  - unfold detached; simpl.
    change (detachedIdOf (setIdToRcvrs _ _)) with (detachedIdOf m).
    by rewrite lookup_insert_eq, Hd.
  - apply lookup_ge_None. subst d. lia.
  - done.
  - done.
  - eexists. rewrite registerDetached_eq. cbv zeta. simpl.
    change (detachedIdOf (setIdToRcvrs _ _)) with (detachedIdOf m).
    rewrite lookup_insert_eq.
    rewrite (lookup_app_l _ _ d) by (rewrite length_app; simpl; lia).
    rewrite Hd. simpl. split; [reflexivity|]. split; [done|].
    unfold detached; simpl.
    change (detachedIdOf (setHeap _ _ _)) with (detachedIdOf m).
    rewrite lookup_insert_eq.
    rewrite (lookup_app_l _ _ d) by (rewrite length_app; simpl; lia).
    by rewrite Hd.
Qed.

Lemma localFromProxy_eq id pRcvr m :
  localFromProxy id pRcvr m =
    if negb (bool_decide (stageId m = id_StageId id))
    then Done (inl (ErrProxyId id)) m
    else match idToRcvrs m !! id with
         | Some _ => Done (inl ErrLocalExists) m
         | None =>
             match heap m !! pRcvr with
             | None => Panicked m
             | Some p =>
                 let r := length (heap m) in
                 Done (inr r)
                   (setIdToRcvrs (<[rId p := r]> (<[id := r]> (idToRcvrs m)))
                      (setHeap (heap m ++ [mkRcvrObj LocalRcvr id (dataCh p) (ctrlCh p)])
                         (chans m) m))
             end
         end.
Proof.
  unfold localFromProxy, bind, isLocalRcvr, receiverById, get, newRcvr,
    modify, ret, panic.
  destruct (bool_decide _); simpl; [|done].
  destruct (idToRcvrs m !! id); [done|].
  by destruct (heap m !! pRcvr).
Qed.

(** X10.  [localFromProxy] accepts only an ID of this stage that is not
    registered yet; it then registers the ID and the proxy's own ID for one
    new local receiver object that shares the proxy's channels, and leaves
    the key bindings as they are.  Otherwise it returns an error and
    changes nothing. *)
Theorem localFromProxy_spec id pRcvr p m :
  heap m !! pRcvr = Some p →
  (stageId m ≠ id_StageId id →
   localFromProxy id pRcvr m = Done (inl (ErrProxyId id)) m) ∧
  (stageId m = id_StageId id → is_Some (idToRcvrs m !! id) →
   localFromProxy id pRcvr m = Done (inl ErrLocalExists) m) ∧
  (stageId m = id_StageId id → idToRcvrs m !! id = None →
   ∃ m', localFromProxy id pRcvr m = Done (inr (length (heap m))) m' ∧
     idToRcvrs m' !! id = Some (length (heap m)) ∧
     idToRcvrs m' !! rId p = Some (length (heap m)) ∧
     heap m' !! length (heap m)
       = Some (mkRcvrObj LocalRcvr id (dataCh p) (ctrlCh p)) ∧
     heap m' !! pRcvr = Some p ∧
     keyToRcvrs m' = keyToRcvrs m).
Proof.
  intros Hp. rewrite localFromProxy_eq. split; [|split].
  - intros Hne. by rewrite bool_decide_eq_false_2.
  - intros Heq [r Hr]. by rewrite bool_decide_eq_true_2, Hr.
  - intros Heq Hnone. rewrite bool_decide_eq_true_2 by done.
    rewrite Hnone, Hp. simpl. eexists. split; [reflexivity|]. simpl.
    split; [|split; [|split; [|split]]].
    + destruct (decide (rId p = id)) as [->|Hne];
        [by rewrite lookup_insert_eq|].
      by rewrite lookup_insert_ne, lookup_insert_eq.
    + by rewrite lookup_insert_eq.
    + by apply list_lookup_middle.
    + rewrite lookup_app_l; [done|]. by eapply lookup_lt_Some.
    + done.
Qed.

(** X11.  A receiver that [proxyFromLocal] turned into a proxy cannot be
    turned back: both its old ID and its new ID are registered afterwards,
    so [localFromProxy] rejects either of them and changes nothing. *)
Theorem proxy_not_convertible_back id old l m :
  stageId m ≠ id_StageId id →
  idToRcvrs m !! id = None →
  heap m !! old = Some l →
  ∃ p m',
    proxyFromLocal id old m = Done (inr p) m' ∧
    heap m' !! p = Some (mkRcvrObj ProxyRcvr id (dataCh l) (ctrlCh l)) ∧
    (∃ e, localFromProxy id p m' = Done (inl e) m') ∧
    (∃ e, localFromProxy (rId l) p m' = Done (inl e) m').
Proof.
  intros Hrem Hnone Hl. rewrite proxyFromLocal_eq.
  rewrite bool_decide_eq_false_2 by done. rewrite Hnone, Hl. cbv zeta.
  eexists _, _. split; [reflexivity|]. split.
  { simpl. by apply list_lookup_middle. }
  split.
  - rewrite localFromProxy_eq. simpl.
    rewrite bool_decide_eq_false_2 by done. simpl. eexists. reflexivity.
  - rewrite localFromProxy_eq. simpl.
    destruct (bool_decide (stageId m = id_StageId (rId l))); simpl;
      [|eexists; reflexivity].
    rewrite lookup_insert_eq. eexists. reflexivity.
Qed.

(** X12.  [mapSetOfRcvr] returns exactly the keys bound to a receiver whose
    ID is the given one, each once, and changes nothing; for an ID that
    owns no key it is empty. *)
Theorem mapSetOfRcvr_spec id m :
  ∃ ms, mapSetOfRcvr id m = Done ms m ∧ NoDup ms ∧
    (∀ k, k ∈ ms ↔ ∃ r ob, keyToRcvrs m !! k = Some r ∧
                           heap m !! r = Some ob ∧ rId ob = id) ∧
    ((∀ k r ob, keyToRcvrs m !! k = Some r → heap m !! r = Some ob →
                rId ob ≠ id) → ms = []).
Proof.
  eexists. split; [reflexivity|].
  assert (Hel := elem_of_mapSetOfRcvr id m). unfold mapSetOfRcvr in *.
  split; [|split; [exact Hel|]].
  - clear Hel. pose proof (NoDup_fst_map_to_list (keyToRcvrs m)) as Hnd.
    induction (map_to_list (keyToRcvrs m)) as [|[k r] l IH]; [constructor|].
    apply NoDup_cons in Hnd as [Hnin Hnd]. cbn.
    destruct (heap m !! r) as [ob|]; [|by apply IH].
    destruct (decide (rId ob = id)); [|by apply IH].
    apply NoDup_cons. split; [|by apply IH].
    intros ([k' r'] & Hin & Hsome)%list_elem_of_omap. apply Hnin.
    simpl in Hsome.
    destruct (heap m !! r') as [ob'|]; [|done].
    destruct (decide (rId ob' = id)); [|done].
    injection Hsome as ->. apply list_elem_of_fmap. by exists (k, r').
  - intros Hno.
    destruct (omap _ (map_to_list (keyToRcvrs m))) as [|k l] eqn:Hms; [done|].
    exfalso. destruct (proj1 (Hel k)) as (r & ob & Hk & Hr & Hid).
    { by left. }
    by eapply Hno.
Qed.

Lemma syncReceivers_frame ms r m :
  let s := finalState (syncReceivers ms r m) in
  heap s = heap m ∧ idToRcvrs s = idToRcvrs m ∧ lastRId s = lastRId m ∧
  effects s = effects m ∧
  (∀ k, k ∉ ms → keyToRcvrs s !! k = keyToRcvrs m !! k).
Proof.
  cbv zeta. revert m. induction ms as [|dk ms IH]; intros m.
  { by repeat split. }
  rewrite syncReceivers_cons.
  destruct (keyToRcvrs m !! dk) as [r'|] eqn:Hdk.
  - destruct (decide (r' = r)) as [->|Hne].
    + destruct (IH m) as (H1 & H2 & H3 & H4 & H5).
      repeat split; try done. intros k Hk. apply H5.
      intros Hin. apply Hk. by right.
    + by repeat split.
  - destruct (lockKey_spec dk r m) as (Hk & Hh & He & _ & Hi & Hl & _).
    cbv zeta in *.
    assert (Ho : ∀ k, k ∉ dk :: ms →
              keyToRcvrs (finalState (lockKey dk r m)) !! k = keyToRcvrs m !! k).
    { intros k Hnin. rewrite Hk, lookup_insert_ne; [done|].
      intros ->. apply Hnin. by left. }
    destruct (lockKey dk r m) as [b m1|why m1|m1|m1]; simpl in *;
      try by repeat split.
    destruct (IH m1) as (H1 & H2 & H3 & H4 & H5).
    repeat split; try congruence.
    intros k Hnin. rewrite H5 by (intros Hin; apply Hnin; by right).
    by apply Ho.
Qed.

(** X13.  Placement is sticky in isolated mode.  A keyed message with a
    key bound to a receiver, and every other key unbound or bound to the
    same receiver, is enqueued on that receiver: no receiver is made, the
    counter stays, the unbound keys of the map set are bound to it and all
    other bindings stay as they are. *)
Theorem handleMsg_isol_sticky mh h m r k0 :
  isUnicast (mh_msg mh) = false → mh_handler mh = Some h →
  isIsol m = true →
  let ms := Map h (mh_msg mh) in
  k0 ∈ ms → keyToRcvrs m !! k0 = Some r →
  (∀ k, k ∈ ms → keyToRcvrs m !! k = None ∨ keyToRcvrs m !! k = Some r) →
  ∃ m', handleMsg mh m = Done tt m' ∧
    effects m' = (effects m ++ [EnqueMsg r mh])%list ∧
    heap m' = heap m ∧ idToRcvrs m' = idToRcvrs m ∧ lastRId m' = lastRId m ∧
    (∀ k, k ∈ ms → keyToRcvrs m' !! k = Some r) ∧
    (∀ k, k ∉ ms → keyToRcvrs m' !! k = keyToRcvrs m !! k).
Proof.
  intros Hu Hh Hisol ms Hk0 Hb0 Hfree.
  rewrite (handleMsg_keyed_eq _ _ _ Hu Hh). fold ms.
  destruct (anyReceiver_spec ms m) as (o & -> & Hspec).
  destruct o as [r'|]; [|by rewrite (Hspec k0 Hk0) in Hb0].
  assert (r' = r) as ->.
  { destruct Hspec as (k & Hk & Hb). destruct (Hfree k Hk); congruence. }
  pose proof (syncReceivers_spec ms r m) as Hsync.
  pose proof (syncReceivers_isol ms r m Hisol Hfree) as Hdone.
  pose proof (syncReceivers_frame ms r m) as Hfr. cbv zeta in Hfr.
  destruct (syncReceivers ms r m) as [[] m1| | |]; try done.
  destruct Hsync as (Hall & _ & _ & _).
  destruct Hfr as (Hheap & Hid & Hl & He & Ho). simpl in *.
  eexists. split; [reflexivity|]. simpl. rewrite He.
  by repeat split.
Qed.

(** X14.  In isolated mode a keyed message none of whose keys is bound
    (an empty map set is one) gets a new local receiver: its ID is this
    stage and actor with the next counter value, it is registered and
    started, all keys of the map set are bound to it and the message is
    enqueued on it; other bindings stay. *)
Theorem handleMsg_isol_new mh h m :
  isUnicast (mh_msg mh) = false → mh_handler mh = Some h →
  isIsol m = true →
  let ms := Map h (mh_msg mh) in
  let id := mkReceiverId (stageId m) (actorName m) (incr32 (lastRId m)) in
  let r := length (heap m) in
  (∀ k, k ∈ ms → keyToRcvrs m !! k = None) →
  idToRcvrs m !! id = None →
  ∃ m', handleMsg mh m = Done tt m' ∧
    heap m' = (heap m ++ [mkRcvrObj LocalRcvr id (chans m) (S (chans m))])%list ∧
    idToRcvrs m' = <[id := r]> (idToRcvrs m) ∧
    lastRId m' = incr32 (lastRId m) ∧
    effects m' = (effects m ++ [StartRcvr r; EnqueMsg r mh])%list ∧
    (∀ k, k ∈ ms → keyToRcvrs m' !! k = Some r) ∧
    (∀ k, k ∉ ms → keyToRcvrs m' !! k = keyToRcvrs m !! k).
Proof.
  intros Hu Hh Hisol ms id r Hunbound Hfresh.
  rewrite (handleMsg_keyed_eq _ _ _ Hu Hh). fold ms.
  destruct (anyReceiver_spec ms m) as (o & -> & Hspec).
  destruct o as [r'|].
  { destruct Hspec as (k & Hk & Hb). by rewrite (Hunbound k Hk) in Hb. }
  rewrite newReceiverForMapSet_eq, lock_eq. cbv zeta. rewrite Hisol.
  rewrite findOrCreateReceiver_eq. simpl. fold id. rewrite Hfresh.
  rewrite bool_decide_eq_true_2 by done.
  fold r.
  match goal with |- context [forRange ms _ ?m2] =>
    destruct (bindAll_spec ms r m2) as (kr & Hbind & Hin & Hout) end.
  rewrite Hbind. eexists. split; [reflexivity|]. simpl.
  rewrite <- app_assoc. by repeat split.
Qed.

End MapperMore.

(** * Further properties of the RPC client pool and server *)

Section PoolMore.

Lemma newRPCClient_eq a env p :
  newRPCClient a env p =
    match cmdDial env with
    | Some err =>
        (inl err, mkPool (clients p) (hiveClients p) (retries p) (conns p)
                    (net p ++ [Dialed a false]))
    | None =>
        let cmd := conns p in
        let n1 := S (conns p) in
        let raft := if raftDial env then n1 else cmd in
        let n2 := if raftDial env then S n1 else n1 in
        let prio := if prioDial env then n2 else raft in
        let n3 := if prioDial env then S n2 else n2 in
        let msg := if msgDial env then n3 else cmd in
        let n4 := if msgDial env then S n3 else n3 in
        (inr (length (clients p)),
         mkPool (clients p ++ [mkRpcClient a cmd msg raft prio])
           (hiveClients p) (retries p) n4
           (net p ++ [Dialed a true; Dialed a (raftDial env);
                      Dialed a (prioDial env); Dialed a (msgDial env)]))
    end.
Proof.
  unfold newRPCClient, dialTimeout. destruct (cmdDial env); [done|].
  destruct (raftDial env), (prioDial env), (msgDial env); simpl;
    by rewrite <- !app_assoc.
Qed.

(** X15.  [newRPCClient] gives up only when the first dial fails, after
    that one dial and without a client.  Otherwise it dials four times and
    returns a new client for the address: a stream whose dial succeeded
    has a connection of its own, a stream whose dial failed shares one
    (raft falls back on cmd, prio on raft, msg on cmd). *)
Theorem newRPCClient_streams a env p :
  (∀ err, cmdDial env = Some err →
     (newRPCClient a env p).1 = inl err ∧
     clients (newRPCClient a env p).2 = clients p ∧
     conns (newRPCClient a env p).2 = conns p ∧
     net (newRPCClient a env p).2 = (net p ++ [Dialed a false])%list) ∧
  (cmdDial env = None →
     ∃ c, (newRPCClient a env p).1 = inr (length (clients p)) ∧
       clients (newRPCClient a env p).2 = (clients p ++ [c])%list ∧
       net (newRPCClient a env p).2
         = (net p ++ [Dialed a true; Dialed a (raftDial env);
                      Dialed a (prioDial env); Dialed a (msgDial env)])%list ∧
       addr c = a ∧ cmdConn c = conns p ∧
       (∀ x, x ∈ [cmdConn c; raftConn c; prioConn c; msgConn c] →
             conns p ≤ x < conns (newRPCClient a env p).2) ∧
       (if raftDial env
        then raftConn c ∉ [cmdConn c; msgConn c]
        else raftConn c = cmdConn c) ∧
       (if prioDial env
        then prioConn c ∉ [cmdConn c; raftConn c; msgConn c]
        else prioConn c = raftConn c) ∧
       (if msgDial env
        then msgConn c ∉ [cmdConn c; raftConn c; prioConn c]
        else msgConn c = cmdConn c)).
Proof.
  rewrite newRPCClient_eq. split.
  - by intros err ->.
  - intros ->. cbv zeta. eexists. split; [reflexivity|].
    split; [reflexivity|]. split; [reflexivity|]. simpl.
    split; [done|]. split; [done|]. split.
    + intros x Hx. rewrite !elem_of_cons, elem_of_nil in Hx.
      destruct (raftDial env), (prioDial env), (msgDial env); lia.
    + destruct (raftDial env), (prioDial env), (msgDial env);
        repeat split; try done;
        rewrite ?not_elem_of_cons; repeat split; try lia; apply not_elem_of_nil.
Qed.

Lemma lookupRetry_pool hive p :
  let t := (lookupRetry hive p).1 in
  let p1 := (lookupRetry hive p).2 in
  clients p1 = clients p ∧ hiveClients p1 = hiveClients p ∧
  conns p1 = conns p ∧ net p1 = net p ∧
  retries p1 = <[hive := t]> (retries p) ∧
  (t = mkDialTry 0 minWait 0 ∨ retries p !! hive = Some t).
Proof.
  unfold lookupRetry. destruct (retries p !! hive) as [t|] eqn:Ht; simpl.
  - repeat split; try done; [by rewrite insert_id|by right].
  - repeat split; try done. by left.
Qed.

Lemma newClient_eq hive env p :
  newClient hive env p =
    let t := (lookupRetry hive p).1 in
    let p1 := (lookupRetry hive p).2 in
    match hiveClients p !! hive with
    | Some c => (inr c, p1)
    | None =>
        if (next t <? now env)%Z then
          match hiveAddr env with
          | None => (inl ErrNoSuchHive, p1)
          | Some a =>
              match cmdDial env with
              | Some err =>
                  let w := int64 (wait t * 2) in
                  let w := if (maxWait <? w)%Z then maxWait else w in
                  (inl err,
                   setRetry hive
                     (mkDialTry (now env + w) w (uint64 (Z.of_N (tries t) + 1)))
                     (newRPCClient a env p1).2)
              | None =>
                  (inr (length (clients p)),
                   setHive hive (length (clients p))
                     (setRetry hive (mkDialTry (now env) (1 * second) (tries t))
                        (newRPCClient a env p1).2))
              end
          end
        else (inl (ErrBackoff (next t)), p1)
    end.
Proof.
  destruct (lookupRetry_pool hive p) as (Hcl & Hhc & _).
  unfold newClient. destruct (lookupRetry hive p) as [t p1]. simpl in *.
  unfold lookupHive. rewrite Hhc.
  destruct (hiveClients p !! hive); [done|].
  destruct (next t <? now env)%Z; [|done]. simpl.
  destruct (hiveAddr env) as [a|]; [|done].
  rewrite newRPCClient_eq. destruct (cmdDial env); [done|].
  cbv zeta. by rewrite Hcl.
Qed.

Lemma wait_bounded w :
  (minWait ≤ w ≤ maxWait)%Z →
  (minWait ≤ (let w2 := int64 (w * 2) in
              if (maxWait <? w2)%Z then maxWait else w2) ≤ maxWait)%Z.
Proof.
  intros Hw. cbv zeta.
  assert (Hi : int64 (w * 2) = (w * 2)%Z).
  { unfold int64. rewrite Z.mod_small; [lia|].
    unfold maxWait, minWait, second, millisecond in *. lia. }
  rewrite Hi. unfold maxWait, minWait, second, millisecond in *.
  destruct (Z.ltb_spec (8 * (1000 * 1000000)) (w * 2)); lia.
Qed.

Lemma poolOk_lookupRetry hive p :
  poolOk p →
  poolOk (lookupRetry hive p).2 ∧
  (minWait ≤ wait (lookupRetry hive p).1 ≤ maxWait)%Z.
Proof.
  intros [Hw Hc].
  destruct (lookupRetry_pool hive p) as (Hcl & Hhc & _ & _ & Hr & Ht).
  cbv zeta in *.
  assert (Hwt : (minWait ≤ wait (lookupRetry hive p).1 ≤ maxWait)%Z).
  { destruct Ht as [->|Ht]; [by vm_compute|by eapply Hw]. }
  split; [|done]. split.
  - intros h t. rewrite Hr. destruct (decide (h = hive)) as [->|Hne].
    + rewrite lookup_insert_eq. by intros [= <-].
    + rewrite lookup_insert_ne by done. apply Hw.
  - intros h c. rewrite Hhc, Hcl. apply Hc.
Qed.

Lemma poolOk_setRetry hive t p :
  poolOk p → (minWait ≤ wait t ≤ maxWait)%Z → poolOk (setRetry hive t p).
Proof.
  intros [Hw Hc] Ht. split; [|done]. intros h t'. simpl.
  destruct (decide (h = hive)) as [->|Hne].
  - rewrite lookup_insert_eq. by intros [= <-].
  - rewrite lookup_insert_ne by done. apply Hw.
Qed.

Lemma poolOk_setHive hive c p :
  poolOk p → c < length (clients p) → poolOk (setHive hive c p).
Proof.
  intros [Hw Hc] Hlt. split; [done|]. intros h c'. simpl.
  destruct (decide (h = hive)) as [->|Hne].
  - rewrite lookup_insert_eq. by intros [= <-].
  - rewrite lookup_insert_ne by done. apply Hc.
Qed.

Lemma poolOk_deleteHive hive p : poolOk p → poolOk (deleteHive hive p).
Proof.
  intros [Hw Hc]. split; [done|]. intros h c. simpl.
  intros Hl. apply lookup_delete_Some in Hl as [_ Hl]. by eapply Hc.
Qed.

Lemma poolOk_newRPCClient a env p :
  poolOk p →
  poolOk (newRPCClient a env p).2 ∧
  (length (clients p) ≤ length (clients (newRPCClient a env p).2))%nat ∧
  (cmdDial env = None →
   (length (clients p) < length (clients (newRPCClient a env p).2))%nat).
Proof.
  intros [Hw Hc]. rewrite newRPCClient_eq. destruct (cmdDial env); simpl.
  - split; [by split|]. split; [lia|done].
  - split; [split; [done|]|].
    + intros h c Hh. simpl. rewrite length_app. simpl.
      specialize (Hc h c Hh). lia.
    + rewrite length_app. simpl. split; [lia|]. intros _. lia.
Qed.

Lemma poolOk_newClient hive env p :
  poolOk p → poolOk (newClient hive env p).2.
Proof.
  intros Hok. rewrite newClient_eq. cbv zeta.
  destruct (poolOk_lookupRetry hive p Hok) as [Hok1 Hwt].
  destruct (lookupRetry_pool hive p) as (Hcl & _). cbv zeta in Hcl.
  destruct (hiveClients p !! hive); [done|].
  destruct (next _ <? now env)%Z; [|done].
  destruct (hiveAddr env) as [a|]; [|done].
  destruct (poolOk_newRPCClient a env _ Hok1) as (Hok2 & _ & Hlt).
  destruct (cmdDial env) as [err|] eqn:Hd; simpl.
  - apply poolOk_setRetry; [done|]. by apply wait_bounded.
  - apply poolOk_setHive.
    + apply poolOk_setRetry; [done|]. by vm_compute.
    + simpl. rewrite <- Hcl. by apply Hlt.
Qed.

Lemma newClient_inr hive env p c :
  (newClient hive env p).1 = inr c →
  hiveClients (newClient hive env p).2 !! hive = Some c.
Proof.
  rewrite newClient_eq. cbv zeta.
  destruct (lookupRetry_pool hive p) as (_ & Hhc & _). cbv zeta in Hhc.
  destruct (hiveClients p !! hive) as [c0|] eqn:Hc0; simpl.
  { intros [= <-]. by rewrite Hhc. }
  destruct (next _ <? now env)%Z; [|done].
  destruct (hiveAddr env) as [a|]; [|done].
  destruct (cmdDial env) as [err|]; [done|]. simpl.
  intros [= <-]. by rewrite lookup_insert_eq.
Qed.

Lemma resetHiveClient_eq hive prev env p :
  resetHiveClient hive prev env p =
    match hiveClients p !! hive with
    | Some c =>
        if bool_decide (Some c = prev)
        then newClient hive env (deleteHive hive p)
        else (inr c, p)
    | None => newClient hive env (deleteHive hive p)
    end.
Proof.
  unfold resetHiveClient, lookupHive.
  assert (Hn : match newClient hive env (deleteHive hive p) with
               | (inl err, p0) => (inl err, p0)
               | (inr client, p0) => (inr client, setHive hive client p0)
               end = newClient hive env (deleteHive hive p)).
  { pose proof (newClient_inr hive env (deleteHive hive p)) as Hin.
    destruct (newClient hive env (deleteHive hive p)) as [[e|c] p2]; [done|].
    simpl in Hin. f_equal. destruct p2 as [cl hc rt cn nt]. unfold setHive.
    simpl in *. unfold setHiveClients. simpl. f_equal.
    by rewrite insert_id by by apply Hin. }
  destruct (hiveClients p !! hive) as [c|]; [|done].
  by destruct (bool_decide (Some c = prev)).
Qed.

Lemma poolOk_resetHiveClient hive prev env p :
  poolOk p → poolOk (resetHiveClient hive prev env p).2.
Proof.
  intros Hok. rewrite resetHiveClient_eq.
  pose proof (poolOk_newClient hive env _ (poolOk_deleteHive hive p Hok)).
  destruct (hiveClients p !! hive) as [c|]; [|done].
  by destruct (bool_decide (Some c = prev)).
Qed.

Lemma hiveClient_eq hive env p :
  hiveClient hive env p =
    match hiveClients p !! hive with
    | Some c => (inr c, p)
    | None => newClient hive env p
    end.
Proof.
  unfold hiveClient, lookupHive.
  destruct (hiveClients p !! hive) as [c|] eqn:Hc; [done|].
  rewrite resetHiveClient_eq, Hc. f_equal.
  destruct p as [cl hc rt cn nt]. unfold deleteHive, setHiveClients. simpl in *.
  f_equal. by apply delete_id.
Qed.

(** X16.  The pool keeps its invariants: through [newClient],
    [resetHiveClient], [hiveClient] and [sendRaft], whatever the network
    does, every retry entry waits between [minWait] and [maxWait] (the
    doubling never overflows) and every cached client is a client of the
    pool. *)
Theorem poolOk_preserved hive env p :
  poolOk p →
  poolOk (newClient hive env p).2 ∧
  (∀ prev, poolOk (resetHiveClient hive prev env p).2) ∧
  poolOk (hiveClient hive env p).2 ∧
  (∀ batch callErr env',
     batchTo batch = hive → poolOk (sendRaft batch env callErr env' p).2).
Proof.
  intros Hok. split; [by apply poolOk_newClient|].
  split; [intros prev; by apply poolOk_resetHiveClient|].
  assert (Hh : poolOk (hiveClient hive env p).2).
  { rewrite hiveClient_eq. destruct (hiveClients p !! hive); [done|].
    by apply poolOk_newClient. }
  split; [done|]. intros batch callErr env' <-. unfold sendRaft.
  destruct (hiveClient (batchTo batch) env p) as [[e|c] p1]; [done|].
  unfold clientSendRaft. simpl in Hh.
  set (p2 := mkPool _ _ _ _ _).
  assert (Hok2 : poolOk p2) by (destruct Hh; by split).
  destruct (shouldReset callErr); [|done].
  by apply poolOk_resetHiveClient.
Qed.

(** X17.  A client is cached.  Once [hiveClient] has returned a client for
    a hive, every later [hiveClient] for that hive returns the same client
    and leaves the pool alone (no dial, no retry state), whatever the clock
    and the network; a client that was cached already is returned the same
    way. *)
Theorem hiveClient_cached hive env p c :
  (hiveClient hive env p).1 = inr c →
  hiveClients (hiveClient hive env p).2 !! hive = Some c ∧
  (∀ env', hiveClient hive env' (hiveClient hive env p).2
           = (inr c, (hiveClient hive env p).2)) ∧
  (∀ c0, hiveClients p !! hive = Some c0 →
         hiveClient hive env p = (inr c0, p)).
Proof.
  intros Hc.
  assert (Hcached : hiveClients (hiveClient hive env p).2 !! hive = Some c).
  { revert Hc. rewrite hiveClient_eq.
    destruct (hiveClients p !! hive) as [c0|] eqn:Hc0.
    - by intros [= <-].
    - apply newClient_inr. }
  split; [done|]. split.
  - intros env'. by rewrite (hiveClient_eq hive env' _), Hcached.
  - intros c0 Hc0. by rewrite hiveClient_eq, Hc0.
Qed.

Lemma resetHiveClient_shape hive c env p :
  hiveClients p !! hive = Some c → c < length (clients p) →
  (∀ e, (resetHiveClient hive (Some c) env p).1 = inl e →
        hiveClients (resetHiveClient hive (Some c) env p).2 !! hive = None) ∧
  (∀ c', (resetHiveClient hive (Some c) env p).1 = inr c' →
         c' = length (clients p) ∧ c' ≠ c ∧
         hiveClients (resetHiveClient hive (Some c) env p).2 !! hive = Some c' ∧
         is_Some (clients (resetHiveClient hive (Some c) env p).2 !! c')).
Proof.
  intros Hc Hlt.
  rewrite resetHiveClient_eq, Hc, bool_decide_eq_true_2 by done.
  rewrite newClient_eq. cbv zeta.
  destruct (lookupRetry_pool hive (deleteHive hive p))
    as (Hcl & Hhc & _ & Hnet & _ & Ht).
  cbv zeta in *.
  set (t := (lookupRetry hive (deleteHive hive p)).1) in *.
  set (p1 := (lookupRetry hive (deleteHive hive p)).2) in *.
  assert (Hdel : hiveClients (deleteHive hive p) !! hive = None)
    by apply lookup_delete_eq.
  rewrite Hdel.
  assert (Hp1 : hiveClients p1 !! hive = None) by by rewrite Hhc.
  split.
  - intros e. destruct (next t <? now env)%Z; [|done].
    destruct (hiveAddr env) as [a|]; [|done].
    pose proof (newRPCClient_frame a env p1) as (_ & Hh & _).
    destruct (cmdDial env); [|done]. simpl. by rewrite Hh.
  - intros c'. destruct (next t <? now env)%Z; [|done].
    destruct (hiveAddr env) as [a|]; [|done].
    rewrite newRPCClient_eq.
    destruct (cmdDial env); [done|]. simpl. intros [= <-].
    split; [done|]. split; [lia|]. split; [by rewrite lookup_insert_eq|].
    rewrite Hcl. simpl. rewrite list_lookup_middle by done. by eexists.
Qed.

(** X18.  [resetHiveClient] replaces only the client it was given.  When
    the cached client is not [prev] (someone else has reset it already) it
    is returned and nothing changes.  When it is [prev], the entry is
    dropped first: on an error (for one, inside the backoff window, where
    nothing is dialed) the hive is left without a cached client; on
    success the returned client is a new one and it is the cached one.
    Clients of other hives stay cached. *)
Theorem resetHiveClient_replaces hive c env p :
  hiveClients p !! hive = Some c → c < length (clients p) →
  (∀ prev, prev ≠ Some c → resetHiveClient hive prev env p = (inr c, p)) ∧
  (∀ e, (resetHiveClient hive (Some c) env p).1 = inl e →
        hiveClients (resetHiveClient hive (Some c) env p).2 !! hive = None) ∧
  (∀ c', (resetHiveClient hive (Some c) env p).1 = inr c' →
         c' = length (clients p) ∧ c' ≠ c ∧
         hiveClients (resetHiveClient hive (Some c) env p).2 !! hive = Some c' ∧
         is_Some (clients (resetHiveClient hive (Some c) env p).2 !! c')) ∧
  (∀ t, retries p !! hive = Some t → (now env ≤ next t)%Z →
        (resetHiveClient hive (Some c) env p).1 = inl (ErrBackoff (next t)) ∧
        net (resetHiveClient hive (Some c) env p).2 = net p) ∧
  (∀ h, h ≠ hive →
        hiveClients (resetHiveClient hive (Some c) env p).2 !! h
        = hiveClients p !! h).
Proof.
  intros Hc Hlt. split.
  { intros prev Hne. rewrite resetHiveClient_eq, Hc.
    rewrite bool_decide_eq_false_2; [done|congruence]. }
  destruct (resetHiveClient_shape hive c env p Hc Hlt) as [He Hr].
  split; [exact He|]. split; [exact Hr|].
  rewrite resetHiveClient_eq, Hc, bool_decide_eq_true_2 by done.
  rewrite newClient_eq. cbv zeta.
  destruct (lookupRetry_pool hive (deleteHive hive p))
    as (Hcl & Hhc & _ & Hnet & _ & Ht).
  cbv zeta in *.
  set (t := (lookupRetry hive (deleteHive hive p)).1) in *.
  set (p1 := (lookupRetry hive (deleteHive hive p)).2) in *.
  assert (Hdel : hiveClients (deleteHive hive p) !! hive = None)
    by apply lookup_delete_eq.
  rewrite Hdel.
  assert (Ho : ∀ h, h ≠ hive → hiveClients p1 !! h = hiveClients p !! h).
  { intros h Hne. rewrite Hhc. simpl. by rewrite lookup_delete_ne. }
  split.
  - intros t0 Ht0 Hnow.
    assert (Htt : t = t0).
    { unfold t, lookupRetry. simpl. by rewrite Ht0. }
    assert (Hn : (next t <? now env)%Z = false) by (apply Z.ltb_ge; by subst).
    rewrite Hn. simpl. split; [by subst|]. by rewrite Hnet.
  - intros h Hne. destruct (next t <? now env)%Z; [|by apply Ho].
    destruct (hiveAddr env) as [a|]; [|by apply Ho].
    pose proof (newRPCClient_frame a env p1) as (_ & Hh & _).
    destruct (cmdDial env); simpl.
    + rewrite Hh. by apply Ho.
    + rewrite lookup_insert_ne by done. rewrite Hh. by apply Ho.
Qed.

(** X19.  [sendRaft] with a cached client makes the RPC on the stream of
    the batch's priority and returns its error.  The client stays cached
    after a success, a temporary network error or an error that is no
    network error; it is replaced or dropped after [rpc.ErrShutdown] and
    after a network error that is not temporary. *)
Theorem sendRaft_reset_policy batch env callErr env' p c cl :
  hiveClients p !! batchTo batch = Some c → clients p !! c = Some cl →
  let p' := (sendRaft batch env callErr env' p).2 in
  (sendRaft batch env callErr env' p).1.1 = callErr ∧
  callsOf p' = (callsOf p ++
    [Called (if decide (Priority batch = High) then prioConn cl else raftConn cl)
       "rpcServer.ProcessRaft"])%list ∧
  (callErr = None ∨ callErr = Some ErrOther ∨ callErr = Some ErrNoSuchHive ∨
   (∃ e, callErr = Some e ∧ isNetError e = true ∧ Temporary e = true) →
   hiveClients p' = hiveClients p ∧ clients p' = clients p ∧
   retries p' = retries p) ∧
  (callErr = Some ErrShutdown ∨
   (∃ e, callErr = Some e ∧ isNetError e = true ∧ Temporary e = false) →
   hiveClients p' !! batchTo batch ≠ Some c).
Proof.
  intros Hc Hcl. cbv zeta. unfold sendRaft.
  rewrite hiveClient_eq, Hc. unfold clientSendRaft. rewrite Hcl.
  set (conn := if decide _ then _ else _).
  set (p2 := mkPool _ _ _ _ _).
  assert (Hcalls : callsOf p2 = (callsOf p ++ [Called conn "rpcServer.ProcessRaft"])%list).
  { unfold callsOf, p2. simpl.
    by rewrite filter_app, filter_cons_True, filter_nil. }
  split; [by destruct (shouldReset callErr)|]. split.
  { destruct (shouldReset callErr); [|done]. simpl.
    by rewrite callsOf_resetHiveClient. }
  split.
  - intros Hkeep.
    assert (Hs : shouldReset callErr = false).
    { destruct Hkeep as [->|[->|[->|(e & -> & Hn & Ht)]]]; try done.
      destruct e; simpl in *; try done. by rewrite Ht. }
    by rewrite Hs.
  - intros Hreset.
    assert (Hs : shouldReset callErr = true).
    { destruct Hreset as [->|(e & -> & Hn & Ht)]; [done|].
      destruct e; simpl in *; try done. by rewrite Ht. }
    rewrite Hs. simpl.
    assert (Hc2 : hiveClients p2 !! batchTo batch = Some c) by done.
    assert (Hlt : c < length (clients p2)) by by eapply lookup_lt_Some.
    pose proof (resetHiveClient_shape (batchTo batch) c env' p2 Hc2 Hlt)
      as [He Hr].
    destruct (resetHiveClient (batchTo batch) (Some c) env' p2) as [[e|c'] p3];
      simpl in *.
    + by rewrite (He e eq_refl).
    + destruct (Hr c' eq_refl) as (_ & Hne & -> & _). congruence.
Qed.

End PoolMore.

Section ServerMore.


End ServerMore.

(** * The further properties on the samples *)

Section MoreSamples.
Import Sample SampleMapper SamplePool.

Lemma lock_unlock_roundtrip_witness :
  ∃ g', (lockActor id0 ;; unlockActor id0) gEmpty = Done None g' ∧
        store g' = store gEmpty.
Proof.
  destruct (lock_unlock_roundtrip id0 gEmpty) as (g' & Hrun & Hst & _).
  - by vm_compute.
  - by exists g'.
Defined.

Lemma storeOrGet_first_wins_witness :
  ∃ g1 g2,
    storeOrGet id0 ms0 gEmpty = Done caller0 g1 ∧
    storeOrGet id1 [keyA] g1 = Done caller0 g2 ∧
    store g2 = store g1.
Proof.
  destruct (storeOrGet_first_wins id0 id1 ms0 [keyA] gEmpty)
    as (g1 & g2 & H1 & H2 & H3 & _).
  - by vm_compute.
  - done.
  - by apply ms0_no_collision.
  - intros dk _. apply lookup_empty.
  - done.
  - intros dk ->%list_elem_of_singleton. by right; left.
  - by exists g1, g2.
Defined.

Lemma storeOrGet_undecodable_fatal_witness :
  ∃ why g', storeOrGet id0 ms0 gJunk = Fatal why g'.
Proof.
  destruct (storeOrGet_undecodable_fatal id0 ms0 gJunk
              (finalState (lockActor id0 gJunk)) keyA "junk")
    as (why & g' & Hf & _).
  - by vm_compute.
  - by apply ms0_no_collision.
  - by right; left.
  - by vm_compute.
  - by vm_compute.
  - by exists why, g'.
Defined.

Lemma storeOrGet_frame_witness :
  store (finalState (storeOrGet id0 ms0 gF)) !! lockPath gF id0 = None.
Proof.
  refine (proj2 (proj2 (storeOrGet_frame id0 ms0 gF))
            (finalState (lockActor id0 gF)) _ _ _).
  - by vm_compute.
  - by apply ms0_no_collision.
  - by vm_compute.
Defined.

Lemma handleMsg_unicast_witness :
  handleMsg mhU mIsol = Done tt (finalState (handleMsg mhU mIsol)) ∧
  effects (finalState (handleMsg mhU mIsol)) = [StartRcvr 0; EnqueMsg 0 mhU].
Proof.
  destruct (handleMsg_unicast mhU mIsol eq_refl) as (_ & _ & _ & Hnew & _).
  destruct Hnew as (_ & _ & Hrun); [done|done|]. exact Hrun.
Defined.

Lemma registerDetached_once_witness :
  ∃ m1 m2, registerDetached mIsol = Done None m1 ∧
           registerDetached m1 = Done (Some ErrAlreadyDetached) m2.
Proof.
  destruct (registerDetached_once mIsol)
    as (m1 & d & H1 & _ & _ & _ & _ & m2 & H2 & _).
  - done.
  - by exists m1, m2.
Defined.

Lemma localFromProxy_spec_witness :
  ∃ m', localFromProxy rcvr1 0 mProxy = Done (inr 1) m' ∧
        idToRcvrs m' !! rcvr1 = Some 1 ∧ idToRcvrs m' !! remote9 = Some 1.
Proof.
  destruct (localFromProxy_spec rcvr1 0 (mkRcvrObj ProxyRcvr remote9 0 1)
              mProxy eq_refl) as (_ & _ & Hok).
  destruct Hok as (m' & H1 & H2 & H3 & _); [done|done|].
  by exists m'.
Defined.

Lemma proxy_not_convertible_back_witness :
  ∃ p m', proxyFromLocal remote9 0 mOwner = Done (inr p) m' ∧
    (∃ e, localFromProxy rcvr1 p m' = Done (inl e) m').
Proof.
  destruct (proxy_not_convertible_back remote9 0
              (mkRcvrObj LocalRcvr rcvr1 0 1) mOwner)
    as (p & m' & H1 & _ & _ & H2).
  - done.
  - done.
  - done.
  - by exists p, m'.
Defined.

Lemma handleMsg_isol_sticky_witness :
  ∃ m', handleMsg mh0 mOwner = Done tt m' ∧
        effects m' = [EnqueMsg 0 mh0] ∧ heap m' = heap mOwner.
Proof.
  destruct (handleMsg_isol_sticky mh0 h0 mOwner 0 keyA)
    as (m' & H1 & H2 & H3 & _).
  - done.
  - done.
  - done.
  - by right; left.
  - done.
  - intros k Hk. right. unfold ms0 in Hk. simpl in Hk.
    apply elem_of_cons in Hk as [->|Hk]; [done|].
    apply elem_of_cons in Hk as [->|Hk]; [done|].
    by apply elem_of_nil in Hk.
  - by exists m'.
Defined.

Lemma handleMsg_isol_new_witness :
  ∃ m', handleMsg mh0 mIsol = Done tt m' ∧
        effects m' = [StartRcvr 0; EnqueMsg 0 mh0] ∧
        heap m' = [mkRcvrObj LocalRcvr rcvr1 0 1].
Proof.
  destruct (handleMsg_isol_new mh0 h0 mIsol)
    as (m' & H1 & H2 & _ & _ & H3 & _).
  - done.
  - done.
  - done.
  - intros k _. apply lookup_empty.
  - done.
  - by exists m'.
Defined.

Lemma poolOk_pool0 : poolOk pool0.
Proof.
  split; intros h x Hl; unfold pool0 in Hl; simpl in Hl;
    by rewrite lookup_empty in Hl.
Qed.

Lemma poolOk_preserved_witness : poolOk poolFailed.
Proof.
  exact (proj1 (poolOk_preserved 2 (refused 1000) pool0 poolOk_pool0)).
Defined.

Lemma hiveClient_cached_witness :
  hiveClient 2 (refused 5000) poolConnected = (inr 0, poolConnected).
Proof.
  refine (proj1 (proj2 (hiveClient_cached 2 (accepted 1000) pool0 0 _)) _).
  by vm_compute.
Defined.

Lemma resetHiveClient_replaces_witness :
  (resetHiveClient 2 (Some 0) (accepted 1000) poolConnected).1
    = inl (ErrBackoff 1000) ∧
  net (resetHiveClient 2 (Some 0) (accepted 1000) poolConnected).2
    = net poolConnected.
Proof.
  refine (proj1 (proj2 (proj2 (proj2
            (resetHiveClient_replaces 2 0 (accepted 1000) poolConnected _ _))))
            (mkDialTry 1000 (1 * second) 0) _ _).
  - by vm_compute.
  - vm_compute. lia.
  - by vm_compute.
  - by vm_compute.
Defined.

Lemma sendRaft_reset_policy_witness :
  (sendRaft batch0 (accepted 1000) (Some ErrShutdown) (accepted 1000)
     poolConnected).1.1 = Some ErrShutdown ∧
  hiveClients (sendRaft batch0 (accepted 1000) (Some ErrShutdown)
                 (accepted 1000) poolConnected).2 !! 2%N ≠ Some 0.
Proof.
  destruct (sendRaft_reset_policy batch0 (accepted 1000) (Some ErrShutdown)
              (accepted 1000) poolConnected 0
              (mkRpcClient "10.0.0.2:7767" 0 3 1 2))
    as (H1 & _ & _ & H2).
  - by vm_compute.
  - by vm_compute.
  - split; [exact H1|]. apply H2. by left.
Defined.

End MoreSamples.
